(** * Key pool management: the Anthropic key provider and the OpenAI key checker

    A shallow embedding of
    - [src/shared/key-management/anthropic/provider.ts] (class
      [AnthropicKeyProvider]), and
    - the OpenAI key checker (class [OpenAIKeyChecker]),
    together with the properties of key selection, lockout bookkeeping,
    usage accounting and check scheduling.

    Conventions of the embedding.
    - JavaScript numbers that hold timestamps, counters and durations are
      integers ([Z]); [Date.now()] is an explicit argument [now] of every
      synchronous entry point.
    - Key records are JavaScript objects: they live in an object store
      ([gmap loc AnthropicKey]) and the provider's array [this.keys] is a
      list of references into it, so that aliasing between the pool and
      what [get] hands out is visible.
    - A thrown exception is a [Throw] completion; the state that comes
      with it is the state at the point of the throw. *)

From Stdlib Require Import ZArith List Bool Lia Sorted.
From stdpp Require Import gmap strings list fin_maps.

Local Open Scope Z_scope.

(** ** JavaScript completions *)

Inductive Exn :=
| Error (message : string)   (* [throw new Error(message)] *)
| TypeError.                 (* property access or assignment on [undefined] *)

Inductive Completion (A : Type) :=
| Normal (a : A)
| Throw (e : Exn).
Arguments Normal {A} a.
Arguments Throw {A} e.

(** ** Array.prototype.sort

    [sort] is specified to be stable, and for a consistent comparator its
    result is the unique stable ordering of the input; insertion from the
    right computes exactly that ordering. The comparator returns a number
    whose sign decides, as in JavaScript. *)

Section Sort.
Context {A : Type} (cmp : A -> A -> Z).

Fixpoint insert_sorted (x : A) (l : list A) : list A :=
  match l with
  | [] => [x]
  | y :: l' => if cmp x y <=? 0 then x :: l else y :: insert_sorted x l'
  end.

Fixpoint sort (l : list A) : list A :=
  match l with
  | [] => []
  | x :: l' => insert_sorted x (sort l')
  end.
End Sort.

Module AnthropicKeyProvider.

(** ** Constants (provider.ts, lines 9-10) *)

Definition RATE_LIMIT_LOCKOUT : Z := 2000.
Definition KEY_REUSE_DELAY : Z := 500.

(** ** The key record

    [AnthropicModelFamily] is declared in [shared/models], which is not part
    of the sources at hand; the provider only ever touches the counter
    [claudeTokens], the usage field of the family [claude]. *)

Inductive AnthropicModelFamily := claude.

(** References to key objects. *)
Definition loc := positive.

(** References to the arrays that [modelFamilies] fields point to. The
    provider never reads or writes such an array; a record only carries the
    reference, and a spread copy of the record carries the same one. *)
Definition array_ref := positive.

Record AnthropicKey := mkKey {
  key : string;                 (* the secret *)
  hash : string;
  modelFamilies : array_ref;
  isDisabled : bool;
  promptCount : Z;
  lastUsed : Z;
  lastChecked : Z;
  rateLimitedAt : Z;
  rateLimitedUntil : Z;
  requiresPreamble : bool;
  isPozzed : bool;
  claudeTokens : Z;
}.

(** Field assignments [k.f = v]. *)
Definition set_isDisabled (v : bool) (k : AnthropicKey) : AnthropicKey :=
  mkKey (key k) (hash k) (modelFamilies k) v (promptCount k) (lastUsed k)
        (lastChecked k) (rateLimitedAt k) (rateLimitedUntil k)
        (requiresPreamble k) (isPozzed k) (claudeTokens k).
Definition set_promptCount (v : Z) (k : AnthropicKey) : AnthropicKey :=
  mkKey (key k) (hash k) (modelFamilies k) (isDisabled k) v (lastUsed k)
        (lastChecked k) (rateLimitedAt k) (rateLimitedUntil k)
        (requiresPreamble k) (isPozzed k) (claudeTokens k).
Definition set_lastUsed (v : Z) (k : AnthropicKey) : AnthropicKey :=
  mkKey (key k) (hash k) (modelFamilies k) (isDisabled k) (promptCount k) v
        (lastChecked k) (rateLimitedAt k) (rateLimitedUntil k)
        (requiresPreamble k) (isPozzed k) (claudeTokens k).
Definition set_lastChecked (v : Z) (k : AnthropicKey) : AnthropicKey :=
  mkKey (key k) (hash k) (modelFamilies k) (isDisabled k) (promptCount k)
        (lastUsed k) v (rateLimitedAt k) (rateLimitedUntil k)
        (requiresPreamble k) (isPozzed k) (claudeTokens k).
Definition set_rateLimitedAt (v : Z) (k : AnthropicKey) : AnthropicKey :=
  mkKey (key k) (hash k) (modelFamilies k) (isDisabled k) (promptCount k)
        (lastUsed k) (lastChecked k) v (rateLimitedUntil k)
        (requiresPreamble k) (isPozzed k) (claudeTokens k).
Definition set_rateLimitedUntil (v : Z) (k : AnthropicKey) : AnthropicKey :=
  mkKey (key k) (hash k) (modelFamilies k) (isDisabled k) (promptCount k)
        (lastUsed k) (lastChecked k) (rateLimitedAt k) v
        (requiresPreamble k) (isPozzed k) (claudeTokens k).
Definition set_isPozzed (v : bool) (k : AnthropicKey) : AnthropicKey :=
  mkKey (key k) (hash k) (modelFamilies k) (isDisabled k) (promptCount k)
        (lastUsed k) (lastChecked k) (rateLimitedAt k) (rateLimitedUntil k)
        (requiresPreamble k) v (claudeTokens k).
Definition set_claudeTokens (v : Z) (k : AnthropicKey) : AnthropicKey :=
  mkKey (key k) (hash k) (modelFamilies k) (isDisabled k) (promptCount k)
        (lastUsed k) (lastChecked k) (rateLimitedAt k) (rateLimitedUntil k)
        (requiresPreamble k) (isPozzed k) v.

(** [Partial<AnthropicKey>]: an object literal that carries any subset of the
    fields. *)
Record PartialKey := mkPartial {
  p_key : option string;
  p_hash : option string;
  p_modelFamilies : option array_ref;
  p_isDisabled : option bool;
  p_promptCount : option Z;
  p_lastUsed : option Z;
  p_lastChecked : option Z;
  p_rateLimitedAt : option Z;
  p_rateLimitedUntil : option Z;
  p_requiresPreamble : option bool;
  p_isPozzed : option bool;
  p_claudeTokens : option Z;
}.

(** The empty object literal [{}]. *)
Definition no_fields : PartialKey :=
  mkPartial None None None None None None None None None None None None.

(** [Object.assign(k, p)]: every field present in [p] overwrites the one of
    [k]. *)
Definition assign (k : AnthropicKey) (p : PartialKey) : AnthropicKey :=
  mkKey (default (key k) (p_key p))
        (default (hash k) (p_hash p))
        (default (modelFamilies k) (p_modelFamilies p))
        (default (isDisabled k) (p_isDisabled p))
        (default (promptCount k) (p_promptCount p))
        (default (lastUsed k) (p_lastUsed p))
        (default (lastChecked k) (p_lastChecked p))
        (default (rateLimitedAt k) (p_rateLimitedAt p))
        (default (rateLimitedUntil k) (p_rateLimitedUntil p))
        (default (requiresPreamble k) (p_requiresPreamble p))
        (default (isPozzed k) (p_isPozzed p))
        (default (claudeTokens k) (p_claudeTokens p)).

(** [{ lastChecked: Date.now(), ...update }]: the spread comes second, so a
    [lastChecked] of the caller wins over the stamp. *)
Definition stamped (now : Z) (p : PartialKey) : PartialKey :=
  mkPartial (p_key p) (p_hash p) (p_modelFamilies p) (p_isDisabled p)
            (p_promptCount p) (p_lastUsed p)
            (Some (default now (p_lastChecked p)))
            (p_rateLimitedAt p) (p_rateLimitedUntil p)
            (p_requiresPreamble p) (p_isPozzed p) (p_claudeTokens p).

(** ** Provider state

    The key checker of this vendor ([./checker]) is not part of the sources
    at hand; of the [checker] field the provider model keeps whether the
    object was constructed and which of its methods were invoked on it, in
    order. *)

Inductive CheckerCall := Start | ScheduleNextCheck.

Record State := mkState {
  heap : gmap loc AnthropicKey;          (* the object store *)
  keys : list loc;                       (* [this.keys] *)
  checker : option (list CheckerCall);   (* [this.checker] *)
}.

Definition with_heap (h : gmap loc AnthropicKey) (st : State) : State :=
  mkState h (keys st) (checker st).

(** No reference of the pool dangles (always so in JavaScript). *)
Definition wf (st : State) : Prop :=
  Forall (fun l => is_Some (heap st !! l)) (keys st).

(** The pool as the records it currently holds, in array order. Each entry
    keeps the reference next to the record read through it. *)
Fixpoint deref_all (h : gmap loc AnthropicKey) (ls : list loc)
  : list (loc * AnthropicKey) :=
  match ls with
  | [] => []
  | l :: ls' =>
      match h !! l with
      | Some k => (l, k) :: deref_all h ls'
      | None => deref_all h ls'
      end
  end.

Definition pool (st : State) : list (loc * AnthropicKey) :=
  deref_all (heap st) (keys st).

(** [this.keys.filter((k) => !k.isDisabled)] *)
Definition enabledKeys (st : State) : list (loc * AnthropicKey) :=
  List.filter (fun e => negb (isDisabled (snd e))) (pool st).

(** [this.keys.find((k) => k.hash === hash)] *)
Definition find_key (st : State) (h : string) : option (loc * AnthropicKey) :=
  List.find (fun e => String.eqb (hash (snd e)) h) (pool st).

(** ** get (provider.ts, lines 84-126) *)

(** The comparator handed to [sort]. *)
Definition compare_keys (now : Z) (a b : AnthropicKey) : Z :=
  let aRateLimited := now - rateLimitedAt a <? RATE_LIMIT_LOCKOUT in
  let bRateLimited := now - rateLimitedAt b <? RATE_LIMIT_LOCKOUT in
  if aRateLimited && negb bRateLimited then 1
  else if negb aRateLimited && bRateLimited then -1
  else if aRateLimited && bRateLimited then rateLimitedAt a - rateLimitedAt b
  else if isPozzed a && negb (isPozzed b) then 1
  else if negb (isPozzed a) && isPozzed b then -1
  else lastUsed a - lastUsed b.

(** The three assignments to the selected key. *)
Definition mark_selected (now : Z) (k : AnthropicKey) : AnthropicKey :=
  set_rateLimitedUntil (now + KEY_REUSE_DELAY)
    (set_rateLimitedAt now (set_lastUsed now k)).

Definition no_keys_message : string := "No Anthropic keys available.".

(** [availableKeys.sort(...)]; [availableKeys] is the array [filter] has just
    built, so sorting it in place leaves [this.keys] alone. *)
Definition keysByPriority (st : State) (now : Z) : list (loc * AnthropicKey) :=
  sort (fun a b => compare_keys now (snd a) (snd b)) (enabledKeys st).

(** [get] returns a reference to a newly allocated object, the spread copy
    [{ ...selectedKey }]. *)
Definition get (st : State) (now : Z) : State * Completion loc :=
  let availableKeys := enabledKeys st in
  if (length availableKeys =? 0)%nat then (st, Throw (Error no_keys_message))
  else
    match keysByPriority st now with
    | [] => (st, Throw TypeError)
    | (l, k) :: _ =>
        let selectedKey := mark_selected now k in
        let h1 := <[l := selectedKey]> (heap st) in
        let copy := fresh (dom h1) in
        (with_heap (<[copy := selectedKey]> h1) st, Normal copy)
    end.

(** ** disable (lines 128-133) *)

Definition disable (st : State) (k : AnthropicKey) : State * Completion unit :=
  match find_key st (hash k) with
  | None => (st, Normal tt)
  | Some (l, keyFromPool) =>
      if isDisabled keyFromPool then (st, Normal tt)
      else (with_heap (<[l := set_isDisabled true keyFromPool]> (heap st)) st,
            Normal tt)
  end.

(** ** update (lines 135-138)

    The result of [find] is asserted to be present ([!]); on [undefined],
    [Object.assign] throws a [TypeError]. *)

Definition update (st : State) (h : string) (p : PartialKey) (now : Z)
  : State * Completion unit :=
  match find_key st h with
  | None => (st, Throw TypeError)
  | Some (l, keyFromPool) =>
      (with_heap (<[l := assign keyFromPool (stamped now p)]> (heap st)) st,
       Normal tt)
  end.

(** ** available (lines 140-142) *)

Definition available (st : State) : Z := Z.of_nat (length (enabledKeys st)).

(** ** incrementUsage (lines 144-149); [_model] is not looked at. *)

Definition incrementUsage (st : State) (h : string) (_model : string)
  (tokens : Z) : State * Completion unit :=
  match find_key st h with
  | None => (st, Normal tt)
  | Some (l, k) =>
      let k1 := set_promptCount (promptCount k + 1) k in
      let k2 := set_claudeTokens (claudeTokens k1 + tokens) k1 in
      (with_heap (<[l := k2]> (heap st)) st, Normal tt)
  end.

(** ** getLockoutPeriod (lines 151-166) *)

(** [Math.min(...xs)] for a non-empty argument list [x :: xs]. *)
Definition Math_min (x : Z) (xs : list Z) : Z := fold_left Z.min xs x.

Definition getLockoutPeriod (st : State) (now : Z) : Z :=
  let activeKeys := map snd (enabledKeys st) in
  match activeKeys with
  | [] => 0
  | k0 :: rest =>
      let rateLimitedKeys :=
        List.filter (fun k => now <? rateLimitedUntil k) activeKeys in
      let anyNotRateLimited :=
        (length rateLimitedKeys <? length activeKeys)%nat in
      if anyNotRateLimited then 0
      else Math_min (rateLimitedUntil k0 - now)
                    (map (fun k => rateLimitedUntil k - now) rest)
  end.

(** ** markRateLimited (lines 175-181)

    As in [update], the result of [find] is asserted present; the first
    assignment on [undefined] throws. *)

Definition markRateLimited (st : State) (keyHash : string) (now : Z)
  : State * Completion unit :=
  match find_key st keyHash with
  | None => (st, Throw TypeError)
  | Some (l, k) =>
      let k' := set_rateLimitedUntil (now + RATE_LIMIT_LOCKOUT)
                  (set_rateLimitedAt now k) in
      (with_heap (<[l := k']> (heap st)) st, Normal tt)
  end.

(** ** recheck (lines 183-192) *)

Definition recheck_fields : PartialKey :=
  mkPartial None None None (Some false) None None (Some 0) None None None
            (Some false) None.

(** [this.keys.forEach((key) => this.update(key.hash, ...))]: the array is
    walked by reference, each [key.hash] is read when its turn comes, and an
    exception leaves the loop. *)
Fixpoint recheck_forEach (ls : list loc) (st : State) (now : Z)
  : State * Completion unit :=
  match ls with
  | [] => (st, Normal tt)
  | l :: ls' =>
      match heap st !! l with
      | None => (st, Throw TypeError)
      | Some k =>
          match update st (hash k) recheck_fields now with
          | (st', Normal _) => recheck_forEach ls' st' now
          | (st', Throw e) => (st', Throw e)
          end
      end
  end.

(** [this.checker?.scheduleNextCheck()] *)
Definition call_checker (c : CheckerCall) (st : State) : State :=
  mkState (heap st) (keys st) (fmap (fun calls => calls ++ [c]) (checker st)).

Definition recheck (st : State) (now : Z) : State * Completion unit :=
  match recheck_forEach (keys st) st now with
  | (st', Normal _) => (call_checker ScheduleNextCheck st', Normal tt)
  | (st', Throw e) => (st', Throw e)
  end.

(** ** init (lines 60-78)

    [loadedKeys] is what [this.store.load()] resolved to: the references of
    the loaded objects, which already live in the object store.
    [checkKeys] is [config.checkKeys]. *)

Definition init (st : State) (loadedKeys : list loc) (checkKeys : bool)
  : State :=
  if (length loadedKeys =? 0)%nat then st
  else
    let st1 := mkState (heap st) (keys st ++ loadedKeys) (checker st) in
    if checkKeys
    then mkState (heap st1) (keys st1) (Some [Start])
    else st1.

(** The provider as the constructor leaves it, over an object store [h]. *)
Definition new_provider (h : gmap loc AnthropicKey) : State :=
  mkState h [] None.

(** ** Sequences of calls on a provider *)

Inductive Call :=
| CallGet (now : Z)
| CallDisable (k : AnthropicKey)
| CallUpdate (h : string) (p : PartialKey) (now : Z)
| CallIncrementUsage (h : string) (model : string) (tokens : Z)
| CallGetLockoutPeriod (now : Z)
| CallMarkRateLimited (h : string) (now : Z)
| CallRecheck (now : Z).

(** The state a call leaves behind, whether it returned or threw. *)
Definition perform (st : State) (c : Call) : State :=
  match c with
  | CallGet now => fst (get st now)
  | CallDisable k => fst (disable st k)
  | CallUpdate h p now => fst (update st h p now)
  | CallIncrementUsage h model tokens => fst (incrementUsage st h model tokens)
  | CallGetLockoutPeriod _ => st
  | CallMarkRateLimited h now => fst (markRateLimited st h now)
  | CallRecheck now => fst (recheck st now)
  end.

Definition perform_all (st : State) (cs : list Call) : State :=
  fold_left perform cs st.

(** ** Vocabulary of the properties *)

(** What [get] treats as rate limited when it ranks: the last lockout was
    opened less than [RATE_LIMIT_LOCKOUT] ago. *)
Definition recently_limited (now : Z) (k : AnthropicKey) : bool :=
  now - rateLimitedAt k <? RATE_LIMIT_LOCKOUT.

(** [precedes now a b]: [a] ranks at least as high as [b] for [get]. *)
Definition precedes (now : Z) (a b : AnthropicKey) : Prop :=
  match recently_limited now a, recently_limited now b with
  | false, true => True
  | true, false => False
  | true, true => rateLimitedAt a <= rateLimitedAt b
  | false, false =>
      match isPozzed a, isPozzed b with
      | false, true => True
      | true, false => False
      | _, _ => lastUsed a <= lastUsed b
      end
  end.

(** "Currently locked out", as the data model defines it and as
    [getLockoutPeriod] tests it. *)
Definition locked_out (now : Z) (k : AnthropicKey) : bool :=
  now <? rateLimitedUntil k.

(** The ranking in the words of the specification of [get]: not locked out
    before locked out; among locked-out keys the earliest [rateLimitedAt];
    among the others, those without the quality flag; last, the smallest
    [lastUsed]. [spec_outranks now a b] says that [a] is ranked strictly
    higher than [b]. *)
Definition spec_outranks (now : Z) (a b : AnthropicKey) : bool :=
  match locked_out now a, locked_out now b with
  | false, true => true
  | true, false => false
  | true, true =>
      (rateLimitedAt a <? rateLimitedAt b)
      || ((rateLimitedAt a =? rateLimitedAt b) && (lastUsed a <? lastUsed b))
  | false, false =>
      (negb (isPozzed a) && isPozzed b)
      || (Bool.eqb (isPozzed a) (isPozzed b) && (lastUsed a <? lastUsed b))
  end.

(** [get], when it returns, hands out the enabled key that no other enabled
    key outranks in that ranking. *)
Definition spec_get_selects (st : State) (now : Z) : Prop :=
  forall st' c, get st now = (st', Normal c) ->
    exists l k,
      In (l, k) (enabledKeys st)
      /\ heap st' !! c = Some (mark_selected now k)
      /\ forall l' k', In (l', k') (enabledKeys st) ->
           spec_outranks now k' k = false.

(** Every key of the pool is disabled (so is it in the empty pool). *)
Definition all_disabled (st : State) : Prop :=
  forall l k, In (l, k) (pool st) -> isDisabled k = true.

(** The hashes of the pool, in array order. *)
Definition hashes (st : State) : list string :=
  map (fun e => hash (snd e)) (pool st).

(** The usage counter of a model family. *)
Definition tokens_of (f : AnthropicModelFamily) (k : AnthropicKey) : Z :=
  match f with claude => claudeTokens k end.

(** What [recheck] makes of a record. *)
Definition rechecked (k : AnthropicKey) : AnthropicKey :=
  set_lastChecked 0 (set_isDisabled false (set_isPozzed false k)).

(** ** Sample pools *)

(** A key selected one second ago, and a flagged key that was never used. *)
Definition key_a : AnthropicKey :=
  mkKey "sk-ant-a" "a" 7%positive false 3 9000 8000 9000 9500 false false 120.
Definition key_b : AnthropicKey :=
  mkKey "sk-ant-b" "b" 7%positive false 0 0 8000 0 0 false true 0.
(** A disabled key. *)
Definition key_c : AnthropicKey :=
  mkKey "sk-ant-c" "c" 7%positive true 7 100 8000 100 2100 false false 40.

Definition store_ab : gmap loc AnthropicKey :=
  <[1%positive := key_a]> (<[2%positive := key_b]> (<[3%positive := key_c]> ∅)).

Definition pool_ab : State :=
  mkState store_ab [1%positive; 2%positive; 3%positive] (Some [Start]).

Definition pool_c : State :=
  mkState store_ab [3%positive] None.

(** Two keys marked rate limited in the same millisecond; the first one was
    used more recently. *)
Definition key_d : AnthropicKey :=
  mkKey "sk-ant-d" "d" 7%positive false 1 8500 8000 9000 11000 false false 10.
Definition key_e : AnthropicKey :=
  mkKey "sk-ant-e" "e" 7%positive false 1 8000 8000 9000 11000 false false 10.

Definition pool_tie : State :=
  mkState (<[1%positive := key_d]> (<[2%positive := key_e]> ∅))
          [1%positive; 2%positive] None.

(** [pool_ab] after two selections in a row: both enabled keys are inside
    their reuse delay. *)
Definition pool_locked : State :=
  fst (get (fst (get pool_ab 10000)) 10001).

(** ** list (lines 80-82)

    [this.keys.map((k) => Object.freeze({ ...k, key: undefined }))]: one
    frozen object per key, with every field of the record but the secret,
    which is overwritten by [undefined]. A frozen object cannot be assigned
    to, so the result is a list of values. The name [list] is taken by the
    type of lists. *)

Record ListedKey := mkListed {
  listed_key : option string;           (* [undefined] *)
  listed_hash : string;
  listed_modelFamilies : array_ref;
  listed_isDisabled : bool;
  listed_promptCount : Z;
  listed_lastUsed : Z;
  listed_lastChecked : Z;
  listed_rateLimitedAt : Z;
  listed_rateLimitedUntil : Z;
  listed_requiresPreamble : bool;
  listed_isPozzed : bool;
  listed_claudeTokens : Z;
}.

Definition frozen_without_key (k : AnthropicKey) : ListedKey :=
  mkListed None (hash k) (modelFamilies k) (isDisabled k) (promptCount k)
           (lastUsed k) (lastChecked k) (rateLimitedAt k) (rateLimitedUntil k)
           (requiresPreamble k) (isPozzed k) (claudeTokens k).

Definition list_keys (st : State) : list ListedKey :=
  map (fun e => frozen_without_key (snd e)) (pool st).

(** ** More vocabulary *)

(** The lockout window of a record is well formed. *)
Definition window_ok (k : AnthropicKey) : Prop :=
  rateLimitedAt k <= rateLimitedUntil k.

(** A property of records that holds of every key of the pool. *)
Definition every_key (P : AnthropicKey -> Prop) (st : State) : Prop :=
  forall l k, In (l, k) (pool st) -> P k.

(** The secrets of the pool, in array order. *)
Definition secrets (st : State) : list string :=
  map (fun e => key (snd e)) (pool st).

(** A call that cannot touch the lockout window other than through the
    provider's own bookkeeping: any call but an [update] whose fields name
    [rateLimitedAt] or [rateLimitedUntil]. *)
Definition leaves_windows_alone (c : Call) : Prop :=
  match c with
  | CallUpdate _ p _ => p_rateLimitedAt p = None /\ p_rateLimitedUntil p = None
  | _ => True
  end.

(** A call that cannot rename a key: any call but an [update] whose fields
    name [hash] or [key]. *)
Definition leaves_identity_alone (c : Call) : Prop :=
  match c with
  | CallUpdate _ p _ => p_hash p = None /\ p_key p = None
  | _ => True
  end.

(** The entry of the pool for object [l], once [k'] has been written to
    that object. *)
Definition overwrite (l : loc) (k' : AnthropicKey) (e : loc * AnthropicKey)
  : loc * AnthropicKey :=
  if Pos.eqb (fst e) l then (l, k') else e.

(** What identifies the keys of a pool: the array, and the hash and the
    secret of each key. *)
Definition identity (st : State) : list loc * list string * list string :=
  (keys st, hashes st, secrets st).

(** The fields two [update]s in a row amount to: those of the later call
    win, and of [lastChecked] only the later call's counts, since the later
    stamp overwrites whatever the earlier call left. *)
Definition merge_fields (p q : PartialKey) : PartialKey :=
  mkPartial (from_option Some (p_key p) (p_key q))
            (from_option Some (p_hash p) (p_hash q))
            (from_option Some (p_modelFamilies p) (p_modelFamilies q))
            (from_option Some (p_isDisabled p) (p_isDisabled q))
            (from_option Some (p_promptCount p) (p_promptCount q))
            (from_option Some (p_lastUsed p) (p_lastUsed q))
            (p_lastChecked q)
            (from_option Some (p_rateLimitedAt p) (p_rateLimitedAt q))
            (from_option Some (p_rateLimitedUntil p) (p_rateLimitedUntil q))
            (from_option Some (p_requiresPreamble p) (p_requiresPreamble q))
            (from_option Some (p_isPozzed p) (p_isPozzed q))
            (from_option Some (p_claudeTokens p) (p_claudeTokens q)).

(** The number of enabled records among the objects [ls] refer to. *)
Definition enabled_among (h : gmap loc AnthropicKey) (ls : list loc) : Z :=
  Z.of_nat (length (List.filter (fun e => negb (isDisabled (snd e)))
                      (deref_all h ls))).

(** A pool with one enabled key (and a disabled one). *)
Definition pool_single : State :=
  mkState store_ab [3%positive; 1%positive] None.

End AnthropicKeyProvider.

Module OpenAIKeyChecker.

(** ** Constants of the checker *)

(** Minimum time in between any two key checks. *)
Definition MIN_CHECK_INTERVAL : Z := 3 * 1000.
(** Minimum time in between checks for a given key. *)
Definition KEY_CHECK_PERIOD : Z := 30 * 60 * 1000.
(** Size of a startup batch ([uncheckedKeys.slice(0, 12)]) and the delay of
    its timer. *)
Definition BATCH_SIZE : nat := 12.
Definition BATCH_DELAY : Z := 250.

(** ** Keys and updates

    [OpenAIKey] is declared next to the OpenAI provider, which is not part
    of the sources at hand; the record has the fields the checker reads or
    writes. The dollar limits are copied from the vendor's reply and never
    computed with. *)

Record OpenAIKey := mkKey {
  key : string;
  hash : string;
  isDisabled : bool;
  lastChecked : Z;
  isGpt4 : bool;
  isTrial : bool;
  softLimit : Z;
  hardLimit : Z;
  systemHardLimit : Z;
}.

(** [Partial<OpenAIKey>], restricted to the fields the checker passes. *)
Record PartialKey := mkPartial {
  p_isDisabled : option bool;
  p_lastChecked : option Z;
  p_isGpt4 : option bool;
  p_isTrial : option bool;
  p_softLimit : option Z;
  p_hardLimit : option Z;
  p_systemHardLimit : option Z;
}.

Definition no_fields : PartialKey :=
  mkPartial None None None None None None None.

Definition assign (k : OpenAIKey) (p : PartialKey) : OpenAIKey :=
  mkKey (key k) (hash k)
        (default (isDisabled k) (p_isDisabled p))
        (default (lastChecked k) (p_lastChecked p))
        (default (isGpt4 k) (p_isGpt4 p))
        (default (isTrial k) (p_isTrial p))
        (default (softLimit k) (p_softLimit p))
        (default (hardLimit k) (p_hardLimit p))
        (default (systemHardLimit k) (p_systemHardLimit p)).

(** Key objects are referred to by their position in the key array, which
    is shared with the provider and never reordered. *)
Definition ref := nat.

(** A call [this.updateKey(hash, fields)] of the checker. *)
Record UpdateCall := mkCall {
  call_hash : string;
  call_fields : PartialKey;
}.

(** Modelled from the spec: [OpenAIKeyProvider.update], the callback
    [updateKey] the checker is constructed with; the OpenAI provider is not
    part of the sources at hand. The spec: it "merges given fields into the
    matching record and stamps lastChecked = now unless the caller
    explicitly supplies a different value", and is a no-op for an unknown
    hash. The matching record is the first one with that hash. *)
Fixpoint updateKey (ks : list OpenAIKey) (now : Z) (u : UpdateCall)
  : list OpenAIKey :=
  match ks with
  | [] => []
  | k :: ks' =>
      if String.eqb (hash k) (call_hash u)
      then assign (assign k (mkPartial None (Some now) None None None None None))
                  (call_fields u)
             :: ks'
      else k :: updateKey ks' now u
  end.

(** The calls of one synchronous stretch of the checker, applied in the
    order they were made. *)
Definition apply_calls (ks : list OpenAIKey) (now : Z) (us : list UpdateCall)
  : list OpenAIKey :=
  fold_left (fun ks u => updateKey ks now u) us ks.

(** ** Probe results *)

Record GetSubscriptionResponse := mkSubscription {
  has_payment_method : bool;
  soft_limit_usd : Z;
  hard_limit_usd : Z;
  system_hard_limit_usd : Z;
}.

Record ProvisionedModels := mkModels { turbo : bool; gpt4 : bool }.

(** What axios reports of a failed request: [error.response], when there is
    one, with its status and [data?.error?.type]. *)
Record AxiosResponse := mkResponse {
  status : Z;
  error_type : option string;
}.

Record AxiosError := mkAxiosError { response : option AxiosResponse }.

(** What the awaited [Promise.all] of a probe settled to. The provisioned
    models are fetched, and used, on an initial check only. *)
Inductive Probe :=
| Fulfilled (subscription : GetSubscriptionResponse)
            (provisionedModels : ProvisionedModels)
| Rejected (error : AxiosError).

(** ** Checker state *)

Inductive Callback :=
| CheckBatch (keysToCheck : list ref)   (* the async batch callback *)
| CheckOne (oldestKey : ref).           (* [() => this.checkKey(oldestKey)] *)

(** A [setTimeout(callback, delay)] issued at time [set_at]. *)
Record Timer := mkTimer {
  callback : Callback;
  delay : Z;
  set_at : Z;
}.

Definition due (t : Timer) : Z := set_at t + delay t.

Record Checker := mkChecker {
  keys : list OpenAIKey;       (* [this.keys], the provider's array *)
  timeout : option Timer;      (* [this.timeout], the last handle *)
  lastCheck : Z;               (* [this.lastCheck] *)
  timers : list Timer;         (* every timer set so far, oldest first *)
}.

Definition setTimeout (t : Timer) (c : Checker) : Checker :=
  mkChecker (keys c) (Some t) (lastCheck c) (timers c ++ [t]).

Definition with_keys (ks : list OpenAIKey) (c : Checker) : Checker :=
  mkChecker ks (timeout c) (lastCheck c) (timers c).

Definition with_lastCheck (t : Z) (c : Checker) : Checker :=
  mkChecker (keys c) (timeout c) t (timers c).

(** The constructor. *)
Definition new_checker (ks : list OpenAIKey) : Checker :=
  mkChecker ks None 0 [].

(** The array with the position of each key. *)
Definition indexed (ks : list OpenAIKey) : list (ref * OpenAIKey) :=
  combine (seq 0 (length ks)) ks.

(** ** scheduleNextCheck *)

(** [!key.lastChecked] *)
Definition unchecked (k : OpenAIKey) : bool := lastChecked k =? 0.

(** [enabledKeys.reduce((oldest, key) =>
      key.lastChecked < oldest.lastChecked ? key : oldest)] *)
Definition oldest_of (k0 : ref * OpenAIKey) (rest : list (ref * OpenAIKey))
  : ref * OpenAIKey :=
  fold_left
    (fun oldest key =>
       if lastChecked (snd key) <? lastChecked (snd oldest) then key
       else oldest)
    rest k0.

Definition scheduleNextCheck (c : Checker) (now : Z) : Checker :=
  let enabledKeys :=
    List.filter (fun e => negb (isDisabled (snd e))) (indexed (keys c)) in
  match enabledKeys with
  | [] => c
  | k0 :: rest =>
      let uncheckedKeys := List.filter (fun e => unchecked (snd e)) enabledKeys in
      if (0 <? length uncheckedKeys)%nat then
        let keysToCheck := firstn BATCH_SIZE uncheckedKeys in
        setTimeout (mkTimer (CheckBatch (map fst keysToCheck)) BATCH_DELAY now) c
      else
        let oldestKey := oldest_of k0 rest in
        let nextCheck :=
          Z.max (lastChecked (snd oldestKey) + KEY_CHECK_PERIOD)
                (lastCheck c + MIN_CHECK_INTERVAL) in
        let delay := nextCheck - now in
        setTimeout (mkTimer (CheckOne (fst oldestKey)) delay now) c
  end.

Definition start (c : Checker) (now : Z) : Checker := scheduleNextCheck c now.

(** ** handleAxiosError *)

(** [errorIsOpenAiError]: [data?.error?.type] is there and truthy. *)
Definition errorIsOpenAiError (r : AxiosResponse) : option string :=
  match error_type r with
  | Some EmptyString => None
  | Some t => Some t
  | None => None
  end.

(** [{ isDisabled: true }] *)
Definition disabled_fields : PartialKey :=
  mkPartial (Some true) None None None None None None.

(** [{ lastChecked: t }] *)
Definition lastChecked_fields (t : Z) : PartialKey :=
  mkPartial None (Some t) None None None None None.

(** The calls of [this.updateKey] that [handleAxiosError] makes for the key
    with hash [h]; what it logs is left out. *)
Definition handleAxiosError (h : string) (error : AxiosError) (now : Z)
  : list UpdateCall :=
  match response error with
  | None => []
  | Some r =>
      match errorIsOpenAiError r with
      | None => []
      | Some type =>
          if status r =? 401 then [mkCall h disabled_fields]
          else if (status r =? 429) && String.eqb type "insufficient_quota"
          then [mkCall h disabled_fields]
          else if (status r =? 429) && String.eqb type "access_terminated"
          then [mkCall h disabled_fields]
          else if (status r =? 429) && String.eqb type "billing_not_active"
          then [mkCall h disabled_fields]
          else if (status r =? 429)
                  && (String.eqb type "requests" || String.eqb type "tokens")
          then
            if String.eqb type "requests" then
              let fifteenSeconds := 15 * 1000 in
              let nextCheck := now - (KEY_CHECK_PERIOD - fifteenSeconds) in
              [mkCall h (lastChecked_fields nextCheck)]
            else if String.eqb type "tokens" then
              [mkCall h (lastChecked_fields now)]
            else []
          else []
      end
  end.

(** ** checkKey

    [checkKey] is asynchronous: it runs up to its [await], and resumes when
    the probe has settled. *)

(** Up to the [await]: [None] when the key was skipped as disabled (the
    schedule is recomputed at once), otherwise [isInitialCheck]. *)
Definition checkKey_begin (c : Checker) (r : ref) (now : Z)
  : Checker * option bool :=
  match keys c !! r with
  | None => (c, None)
  | Some k =>
      if isDisabled k then (scheduleNextCheck c now, None)
      else (c, Some (unchecked k))
  end.

Definition initial_updates (s : GetSubscriptionResponse)
  (m : ProvisionedModels) : PartialKey :=
  mkPartial None None (Some (gpt4 m)) (Some (negb (has_payment_method s)))
            (Some (soft_limit_usd s)) (Some (hard_limit_usd s))
            (Some (system_hard_limit_usd s)).

Definition recheck_updates (s : GetSubscriptionResponse) : PartialKey :=
  mkPartial None None None None
            (Some (soft_limit_usd s)) (Some (hard_limit_usd s))
            (Some (system_hard_limit_usd s)).

(** The [catch] branch: touch the key, then classify the error. *)
Definition on_probe_error (h : string) (error : AxiosError) (now : Z)
  : list UpdateCall :=
  mkCall h no_fields :: handleAxiosError h error now.

(** The calls of [this.updateKey] between the [await] and the end. *)
Definition checkKey_calls (h : string) (isInitialCheck : bool) (p : Probe)
  (now : Z) : list UpdateCall :=
  match p with
  | Fulfilled subscription provisionedModels =>
      if isInitialCheck
      then [mkCall h (initial_updates subscription provisionedModels)]
      else [mkCall h (recheck_updates subscription)]
  | Rejected error => on_probe_error h error now
  end.

(** From the [await] to the end. *)
Definition checkKey_resume (c : Checker) (r : ref) (isInitialCheck : bool)
  (p : Probe) (now : Z) : Checker :=
  match keys c !! r with
  | None => c
  | Some k =>
      let ks :=
        apply_calls (keys c) now (checkKey_calls (hash k) isInitialCheck p now) in
      let c1 := with_lastCheck now (with_keys ks c) in
      if negb isInitialCheck then scheduleNextCheck c1 now else c1
  end.

(** ** Running a timer callback

    A settlement is a probe in flight that settles: which key, to what, and
    when. *)
Record Settlement := mkSettlement {
  s_key : ref;
  s_probe : Probe;
  s_at : Z;
}.

(** [keysToCheck.map((key) => this.checkKey(key))]: every check of the batch
    runs up to its [await], in order. *)
Fixpoint begin_all (c : Checker) (rs : list ref) (now : Z)
  : Checker * list (ref * bool) :=
  match rs with
  | [] => (c, [])
  | r :: rs' =>
      match checkKey_begin c r now with
      | (c1, None) => begin_all c1 rs' now
      | (c1, Some i) =>
          let '(c2, started) := begin_all c1 rs' now in (c2, (r, i) :: started)
      end
  end.

Definition started_as (started : list (ref * bool)) (r : ref) : option bool :=
  snd <$> List.find (fun e => Nat.eqb (fst e) r) started.

(** The probes in flight settle in the order the environment gives. *)
Definition settle (started : list (ref * bool)) (c : Checker) (s : Settlement)
  : Checker :=
  match started_as started (s_key s) with
  | None => c
  | Some i => checkKey_resume c (s_key s) i (s_probe s) (s_at s)
  end.

(** The batch up to the point where every probe has settled. *)
Definition batch_settled (c : Checker) (keysToCheck : list ref) (now : Z)
  (settlements : list Settlement) : Checker :=
  let '(c1, started) := begin_all c keysToCheck now in
  fold_left (settle started) settlements c1.

(** The batch callback: [await Promise.all(promises)], then
    [this.scheduleNextCheck()] at the time [finished] the batch is
    through. *)
Definition run_batch (c : Checker) (keysToCheck : list ref) (now : Z)
  (settlements : list Settlement) (finished : Z) : Checker :=
  scheduleNextCheck (batch_settled c keysToCheck now settlements) finished.

(** The callback of a steady-state timer, up to its [await]. *)
Definition run_single_begin (c : Checker) (oldestKey : ref) (now : Z)
  : Checker * option bool :=
  checkKey_begin c oldestKey now.

(** ** Vocabulary of the properties *)

(** [this.keys.filter((key) => !key.isDisabled)], with positions. *)
Definition enabledKeys (c : Checker) : list (ref * OpenAIKey) :=
  List.filter (fun e => negb (isDisabled (snd e))) (indexed (keys c)).

(** The startup batch: the first [BATCH_SIZE] enabled keys never checked. *)
Definition startup_batch (c : Checker) : list ref :=
  map fst (firstn BATCH_SIZE
             (List.filter (fun e => unchecked (snd e)) (enabledKeys c))).

(** The record at [r] is the first of the array with its hash, so
    [updateKey] called with that hash reaches it. *)
Definition first_with_hash (ks : list OpenAIKey) (r : ref) : Prop :=
  exists k, ks !! r = Some k
    /\ forall j k', (j < r)%nat -> ks !! j = Some k' -> hash k' <> hash k.

(** The vendor's error types that retire a key on a 429. *)
Definition fatal_429 (t : string) : bool :=
  String.eqb t "insufficient_quota" || String.eqb t "access_terminated"
  || String.eqb t "billing_not_active".

(** A structured vendor error: there is a response and its body carries a
    non-empty error type. *)
Definition structured (e : AxiosError) (st : Z) (t : string) : Prop :=
  exists r, response e = Some r /\ status r = st
    /\ error_type r = Some t /\ t <> EmptyString.


Definition set_lastChecked (v : Z) (k : OpenAIKey) : OpenAIKey :=
  mkKey (key k) (hash k) (isDisabled k) v (isGpt4 k) (isTrial k)
        (softLimit k) (hardLimit k) (systemHardLimit k).
Definition set_isDisabled (v : bool) (k : OpenAIKey) : OpenAIKey :=
  mkKey (key k) (hash k) v (lastChecked k) (isGpt4 k) (isTrial k)
        (softLimit k) (hardLimit k) (systemHardLimit k).

(** ** Sample pool *)

Definition key_1 : OpenAIKey :=
  mkKey "sk-1" "h1" false 0 false false 0 0 0.
Definition key_2 : OpenAIKey :=
  mkKey "sk-2" "h2" false 5000 true false 120 120 120.
Definition key_3 : OpenAIKey :=
  mkKey "sk-3" "h3" true 0 false true 5 5 5.
Definition key_4 : OpenAIKey :=
  mkKey "sk-4" "h4" false 7000 false true 5 5 5.

Definition checker_startup : Checker := new_checker [key_1; key_2; key_3].
Definition checker_steady : Checker :=
  mkChecker [key_4; key_2; key_3] None 6000 [].
Definition checker_halted : Checker := new_checker [key_3].

Definition error_of (st : Z) (t : string) : AxiosError :=
  mkAxiosError (Some (mkResponse st (Some t))).
Definition network_error : AxiosError := mkAxiosError None.

(** ** getProvisionedModels

    [ids] are the [id]s of the models the vendor lists for the key;
    [models.some(({ id }) => id.startsWith(...))]. *)
Definition getProvisionedModels (ids : list string) : ProvisionedModels :=
  mkModels (existsb (String.prefix "gpt-3.5") ids)
           (existsb (String.prefix "gpt-4") ids).

(** ** More vocabulary *)

(** How a record may differ after the checker has been at work: the secret
    and the hash are the same, and a disabled key is still disabled. *)
Definition checked_from (k k' : OpenAIKey) : Prop :=
  key k' = key k /\ hash k' = hash k
  /\ (isDisabled k = true -> isDisabled k' = true).

(** The fields of a call do not enable a key. *)
Definition never_enables (u : UpdateCall) : Prop :=
  p_isDisabled (call_fields u) <> Some false.

(** The record of a key after a successful first check, and after a
    successful later one. *)
Definition after_initial_check (s : GetSubscriptionResponse)
  (m : ProvisionedModels) (now : Z) (k : OpenAIKey) : OpenAIKey :=
  mkKey (key k) (hash k) (isDisabled k) now (gpt4 m)
        (negb (has_payment_method s)) (soft_limit_usd s) (hard_limit_usd s)
        (system_hard_limit_usd s).

Definition after_later_check (s : GetSubscriptionResponse) (now : Z)
  (k : OpenAIKey) : OpenAIKey :=
  mkKey (key k) (hash k) (isDisabled k) now (isGpt4 k) (isTrial k)
        (soft_limit_usd s) (hard_limit_usd s) (system_hard_limit_usd s).

(** A reference of the array whose key is enabled. *)
Definition enabled_at (ks : list OpenAIKey) (r : ref) : bool :=
  match ks !! r with
  | Some k => negb (isDisabled k)
  | None => false
  end.

(** A pool in steady state at a realistic clock. *)
Definition key_5 : OpenAIKey :=
  mkKey "sk-5" "h5" false 1700000100000 true false 120 120 120.
Definition key_6 : OpenAIKey :=
  mkKey "sk-6" "h6" false 1700000200000 false true 5 5 5.
Definition checker_running : Checker :=
  mkChecker [key_5; key_3; key_6] None 1700000200000 [].

(** ** The clock reads of a check

    From its [await] to its end [checkKey] reads the clock up to five
    times, and the clock may advance between any two reads: the provider
    reads it in [update] for the stamp of the first [updateKey] call,
    [handleAxiosError] reads it for the [lastChecked] it passes on a rate
    limit, the provider reads it again for the call [handleAxiosError]
    makes, [checkKey] reads it for [this.lastCheck], and
    [scheduleNextCheck] reads it for the delay. *)
Record Reads := mkReads {
  at_update : Z;       (* the stamp of the first [updateKey] call *)
  at_error : Z;        (* [Date.now()] in [handleAxiosError] *)
  at_reupdate : Z;     (* the stamp of the call [handleAxiosError] makes *)
  at_lastCheck : Z;    (* [this.lastCheck = Date.now()] *)
  at_schedule : Z;     (* [Date.now()] in [scheduleNextCheck] *)
}.

(** The reads of a stretch during which the clock stands still. *)
Definition frozen (now : Z) : Reads := mkReads now now now now now.

(** [checkKey] from the [await] to the end, each read of the clock with its
    own value. [checkKey_resume c r i p now] is the run with the reads
    [frozen now]. *)
Definition checkKey_resume_at (c : Checker) (r : ref) (isInitialCheck : bool)
  (p : Probe) (clk : Reads) : Checker :=
  match keys c !! r with
  | None => c
  | Some k =>
      let ks :=
        match p with
        | Fulfilled _ _ =>
            apply_calls (keys c) (at_update clk)
              (checkKey_calls (hash k) isInitialCheck p (at_error clk))
        | Rejected error =>
            apply_calls
              (updateKey (keys c) (at_update clk) (mkCall (hash k) no_fields))
              (at_reupdate clk)
              (handleAxiosError (hash k) error (at_error clk))
        end in
      let c1 := with_lastCheck (at_lastCheck clk) (with_keys ks c) in
      if negb isInitialCheck then scheduleNextCheck c1 (at_schedule clk)
      else c1
  end.

(** ** Runs of the checker

    The environment plays out the timers: each timer fires once, no sooner
    than it is due, and the probes it starts settle as the vendor answers.
    A run fires the timers in the order they were set and keeps the log of
    the probes started: which key, and when. *)

(** What the environment supplies when a timer fires. *)
Inductive Firing :=
| BatchFires (settlements : list Settlement) (finished : Z)
| SingleFires (p : Probe) (settled : Z).

(** A timer with a delay that is not positive fires at once. *)
Definition fires_at (t : Timer) : Z := Z.max (set_at t) (due t).

(** Timer number [n] fires. *)
Definition fire (c : Checker) (n : nat) (f : Firing)
  : Checker * list (ref * Z) :=
  match timers c !! n with
  | None => (c, [])
  | Some t =>
      let now := fires_at t in
      match callback t, f with
      | CheckBatch keysToCheck, BatchFires settlements finished =>
          (run_batch c keysToCheck now settlements finished,
           map (fun e => (fst e, now)) (snd (begin_all c keysToCheck now)))
      | CheckOne oldestKey, SingleFires p settled =>
          match run_single_begin c oldestKey now with
          | (c1, None) => (c1, [])
          | (c1, Some i) =>
              (checkKey_resume c1 oldestKey i p settled, [(oldestKey, now)])
          end
      | _, _ => (c, [])
      end
  end.

Fixpoint run (c : Checker) (n : nat) (fs : list Firing)
  : Checker * list (ref * Z) :=
  match fs with
  | [] => (c, [])
  | f :: fs' =>
      let '(c1, log1) := fire c n f in
      let '(c2, log2) := run c1 (S n) fs' in
      (c2, log1 ++ log2)
  end.

(** In the spec's words: "no single key is re-verified more often than the
    per-key period". *)
Definition spec_per_key_cap (log : list (ref * Z)) : Prop :=
  forall i j r t t', (i < j)%nat ->
    log !! i = Some (r, t) -> log !! j = Some (r, t') ->
    KEY_CHECK_PERIOD <= t' - t.

(** In the spec's words: "no two probes fire closer together than the global
    minimum interval". *)
Definition spec_global_cap (log : list (ref * Z)) : Prop :=
  forall i j r t r' t', (i < j)%nat ->
    log !! i = Some (r, t) -> log !! j = Some (r', t') ->
    MIN_CHECK_INTERVAL <= t' - t.

(** A fresh pool of two keys, and how its first half minute goes: both keys
    are probed by the startup batch; the first runs into the request limit
    of its minute, the second is fine; then the timer of the first key
    fires. *)
Definition key_7 : OpenAIKey :=
  mkKey "sk-7" "h7" false 0 false false 0 0 0.
Definition checker_fresh : Checker :=
  start (new_checker [key_1; key_7]) 1700000000000.
Definition first_half_minute : list Firing :=
  [ BatchFires
      [ mkSettlement 0%nat (Rejected (error_of 429 "requests")) 1700000000400;
        mkSettlement 1%nat
          (Fulfilled (mkSubscription true 100 120 120) (mkModels true true))
          1700000000450 ]
      1700000000450;
    SingleFires
      (Fulfilled (mkSubscription true 100 120 120) (mkModels true true))
      1700000015600 ].

End OpenAIKeyChecker.

(** * The user store

    The in-memory store of proxy users: [users], a [Map] from token to user,
    and [usersToFlush], the [Set] of tokens changed since the last flush.
    A JavaScript [Map] keeps its entries in insertion order, which
    [getPublicUsers] shows, so it is an association list here. The store
    holds the only reference to a user that matters to it, so a user is a
    value of the list, and a write to a user found in the map is a write to
    its entry. Numbers are integers; [parseInt] is taken to have produced
    one. *)

Section JsMap.
Context {V : Type}.

(** [m.get(k)] *)
Fixpoint map_get (m : list (string * V)) (k : string) : option V :=
  match m with
  | [] => None
  | (k', v) :: m' => if String.eqb k' k then Some v else map_get m' k
  end.

(** [m.set(k, v)]: an existing entry keeps its place, a new one goes last. *)
Fixpoint map_set (m : list (string * V)) (k : string) (v : V)
  : list (string * V) :=
  match m with
  | [] => [(k, v)]
  | (k', v') :: m' =>
      if String.eqb k' k then (k', v) :: m' else (k', v') :: map_set m' k v
  end.

(** [m.delete(k)] *)
Fixpoint map_delete (m : list (string * V)) (k : string) : list (string * V) :=
  match m with
  | [] => []
  | (k', v') :: m' =>
      if String.eqb k' k then m' else (k', v') :: map_delete m' k
  end.
End JsMap.

Module UserStore.

Inductive UserType := normal | special | temp.

Record User := mkUser {
  token : string;
  ip : list string;
  ipPromptCount : list (string * Z);
  type : UserType;
  promptCount : Z;
  promptClaudeCount : Z;
  promptGptCount : Z;
  promptLimit : option Z;
  endTimeLimit : option Z;
  timeLimit : option Z;
  tokenClaudeCount : Z;
  tokenGptCount : Z;
  rateLimit : option Z;
  createdAt : Z;
  lastUsedAt : option Z;
  disabledAt : option Z;
  disabledReason : option string;
}.

(** [UserUpdate]: [Partial<User> & Pick<User, "token">]. *)
Record UserUpdate := mkUpdate {
  u_token : string;
  u_ip : option (list string);
  u_ipPromptCount : option (list (string * Z));
  u_type : option UserType;
  u_promptCount : option Z;
  u_promptClaudeCount : option Z;
  u_promptGptCount : option Z;
  u_promptLimit : option Z;
  u_endTimeLimit : option Z;
  u_timeLimit : option Z;
  u_tokenClaudeCount : option Z;
  u_tokenGptCount : option Z;
  u_rateLimit : option Z;
  u_createdAt : option Z;
  u_lastUsedAt : option Z;
  u_disabledAt : option Z;
  u_disabledReason : option string;
}.

(** What the module reads of [config]. *)
Record Config := mkConfig {
  firebase : bool;        (* [config.gatekeeperStore === "firebase_rtdb"] *)
  maxIpsPerUser : Z;      (* [config.maxIpsPerUser] *)
}.

Record Store := mkStore {
  users : list (string * User);
  usersToFlush : gset string;
  immediates : nat;       (* [setImmediate(flushUsers)] calls not yet run *)
}.

Definition with_users (us : list (string * User)) (st : Store) : Store :=
  mkStore us (usersToFlush st) (immediates st).

(** [usersToFlush.add(token)] *)
Definition mark (t : string) (st : Store) : Store :=
  mkStore (users st) ({[t]} ∪ usersToFlush st) (immediates st).

(** Field assignments. *)
Definition set_ip (v : list string) (u : User) : User :=
  mkUser (token u) v (ipPromptCount u) (type u) (promptCount u)
         (promptClaudeCount u) (promptGptCount u) (promptLimit u)
         (endTimeLimit u) (timeLimit u) (tokenClaudeCount u) (tokenGptCount u)
         (rateLimit u) (createdAt u) (lastUsedAt u) (disabledAt u)
         (disabledReason u).
Definition set_ipPromptCount (v : list (string * Z)) (u : User) : User :=
  mkUser (token u) (ip u) v (type u) (promptCount u)
         (promptClaudeCount u) (promptGptCount u) (promptLimit u)
         (endTimeLimit u) (timeLimit u) (tokenClaudeCount u) (tokenGptCount u)
         (rateLimit u) (createdAt u) (lastUsedAt u) (disabledAt u)
         (disabledReason u).
Definition set_promptCount (v : Z) (u : User) : User :=
  mkUser (token u) (ip u) (ipPromptCount u) (type u) v
         (promptClaudeCount u) (promptGptCount u) (promptLimit u)
         (endTimeLimit u) (timeLimit u) (tokenClaudeCount u) (tokenGptCount u)
         (rateLimit u) (createdAt u) (lastUsedAt u) (disabledAt u)
         (disabledReason u).
Definition set_promptClaudeCount (v : Z) (u : User) : User :=
  mkUser (token u) (ip u) (ipPromptCount u) (type u) (promptCount u)
         v (promptGptCount u) (promptLimit u)
         (endTimeLimit u) (timeLimit u) (tokenClaudeCount u) (tokenGptCount u)
         (rateLimit u) (createdAt u) (lastUsedAt u) (disabledAt u)
         (disabledReason u).
Definition set_promptGptCount (v : Z) (u : User) : User :=
  mkUser (token u) (ip u) (ipPromptCount u) (type u) (promptCount u)
         (promptClaudeCount u) v (promptLimit u)
         (endTimeLimit u) (timeLimit u) (tokenClaudeCount u) (tokenGptCount u)
         (rateLimit u) (createdAt u) (lastUsedAt u) (disabledAt u)
         (disabledReason u).
Definition set_endTimeLimit (v : Z) (u : User) : User :=
  mkUser (token u) (ip u) (ipPromptCount u) (type u) (promptCount u)
         (promptClaudeCount u) (promptGptCount u) (promptLimit u)
         (Some v) (timeLimit u) (tokenClaudeCount u) (tokenGptCount u)
         (rateLimit u) (createdAt u) (lastUsedAt u) (disabledAt u)
         (disabledReason u).
Definition set_tokenClaudeCount (v : Z) (u : User) : User :=
  mkUser (token u) (ip u) (ipPromptCount u) (type u) (promptCount u)
         (promptClaudeCount u) (promptGptCount u) (promptLimit u)
         (endTimeLimit u) (timeLimit u) v (tokenGptCount u)
         (rateLimit u) (createdAt u) (lastUsedAt u) (disabledAt u)
         (disabledReason u).
Definition set_tokenGptCount (v : Z) (u : User) : User :=
  mkUser (token u) (ip u) (ipPromptCount u) (type u) (promptCount u)
         (promptClaudeCount u) (promptGptCount u) (promptLimit u)
         (endTimeLimit u) (timeLimit u) (tokenClaudeCount u) v
         (rateLimit u) (createdAt u) (lastUsedAt u) (disabledAt u)
         (disabledReason u).
Definition set_lastUsedAt (v : Z) (u : User) : User :=
  mkUser (token u) (ip u) (ipPromptCount u) (type u) (promptCount u)
         (promptClaudeCount u) (promptGptCount u) (promptLimit u)
         (endTimeLimit u) (timeLimit u) (tokenClaudeCount u) (tokenGptCount u)
         (rateLimit u) (createdAt u) (Some v) (disabledAt u)
         (disabledReason u).
(** [user.disabledAt = now; user.disabledReason = reason] *)
Definition set_disabled (now : Z) (reason : option string) (u : User) : User :=
  mkUser (token u) (ip u) (ipPromptCount u) (type u) (promptCount u)
         (promptClaudeCount u) (promptGptCount u) (promptLimit u)
         (endTimeLimit u) (timeLimit u) (tokenClaudeCount u) (tokenGptCount u)
         (rateLimit u) (createdAt u) (lastUsedAt u) (Some now) reason.

(** ** createUser and createTempUser

    [token] is what [uuid()] returned, [random] what [generateTempString()]
    returned; the limits are the parsed arguments. *)

Definition createUser (st : Store) (token : string) (rLimit : Z) (now : Z)
  : Store * string :=
  let u := mkUser token [] [] normal 0 0 0 None None None 0 0 (Some rLimit)
                  now None None None in
  (mark token (with_users (map_set (users st) token u) st), token).

Definition createTempUser (st : Store) (random : string)
  (pLimit tLimit rLimit : Z) (now : Z) : Store * string :=
  let token := String.append "temp-" random in
  let u := mkUser token [] [] temp 0 0 0 (Some pLimit) (Some (-1))
                  (Some tLimit) 0 0 (Some rLimit) now None None None in
  (mark token (with_users (map_set (users st) token u) st), token).

(** ** getUser, getUsers, getPublicUsers *)

Definition getUser (st : Store) (token : string) : option User :=
  map_get (users st) token.

(** [Array.from(users.values()).map((user) => ({ ...user }))] *)
Definition getUsers (st : Store) : list User := map snd (users st).

(** What [getPublicUsers] shows of a user: the position in the map stands
    in for the token. *)
Record PublicUser := mkPublic {
  pub_createdAt : Z;
  pub_lastUsedAt : option Z;
  pub_token : nat;
  pub_type : UserType;
  pub_promptLimit : option Z;
  pub_timeLimit : option Z;
  pub_endTimeLimit : option Z;
  pub_promptCount : Z;
  pub_promptClaudeCount : Z;
  pub_promptGptCount : Z;
  pub_tokenClaudeCount : Z;
  pub_tokenGptCount : Z;
}.

Definition public_view (index : nat) (u : User) : PublicUser :=
  mkPublic (createdAt u) (lastUsedAt u) index (type u) (promptLimit u)
           (timeLimit u) (endTimeLimit u) (promptCount u)
           (promptClaudeCount u) (promptGptCount u) (tokenClaudeCount u)
           (tokenGptCount u).

(** [usersArray.map((user, index) => ...)] *)
Fixpoint map_with_index {A B : Type} (f : nat -> A -> B) (i : nat)
  (l : list A) : list B :=
  match l with
  | [] => []
  | a :: l' => f i a :: map_with_index f (S i) l'
  end.

Definition getPublicUsers (st : Store) : list PublicUser :=
  map_with_index (fun index e => public_view index (snd e)) 0 (users st).

(** ** upsertUser *)

(** The user made up for a token that is not in the map. *)
Definition blank_user (token : string) (now : Z) : User :=
  mkUser token [] [] normal 0 0 0 (Some (-1)) None None 0 0 None now
         None None None.

(** [{ ...existing, ...user }] *)
Definition merge_user (existing : User) (user : UserUpdate) : User :=
  mkUser (u_token user)
         (default (ip existing) (u_ip user))
         (default (ipPromptCount existing) (u_ipPromptCount user))
         (default (type existing) (u_type user))
         (default (promptCount existing) (u_promptCount user))
         (default (promptClaudeCount existing) (u_promptClaudeCount user))
         (default (promptGptCount existing) (u_promptGptCount user))
         (from_option Some (promptLimit existing) (u_promptLimit user))
         (from_option Some (endTimeLimit existing) (u_endTimeLimit user))
         (from_option Some (timeLimit existing) (u_timeLimit user))
         (default (tokenClaudeCount existing) (u_tokenClaudeCount user))
         (default (tokenGptCount existing) (u_tokenGptCount user))
         (from_option Some (rateLimit existing) (u_rateLimit user))
         (default (createdAt existing) (u_createdAt user))
         (from_option Some (lastUsedAt existing) (u_lastUsedAt user))
         (from_option Some (disabledAt existing) (u_disabledAt user))
         (from_option Some (disabledReason existing) (u_disabledReason user)).

Definition upsertUser (cfg : Config) (st : Store) (user : UserUpdate) (now : Z)
  : Store * option User :=
  let existing :=
    default (blank_user (u_token user) now) (map_get (users st) (u_token user)) in
  let st1 :=
    mark (u_token user)
      (with_users (map_set (users st) (u_token user) (merge_user existing user))
         st) in
  let st2 :=
    if firebase cfg
    then mkStore (users st1) (usersToFlush st1) (S (immediates st1))
    else st1 in
  (st2, map_get (users st2) (u_token user)).

(** ** incrementPromptCount *)

(** [user.ipPromptCount] after the prompt. *)
Definition count_ip (m : list (string * Z)) (user_ip : string)
  : list (string * Z) :=
  match map_get m user_ip with
  | None => map_set m user_ip 1
  | Some count => map_set m user_ip (count + 1)
  end.

(** [model.slice(0, 3)] *)
Definition slice3 (model : string) : string := String.substring 0 3 model.

(** [(user.disabledAt ?? false) == false] *)
Definition not_marked_disabled (u : User) : bool :=
  match disabledAt u with
  | None => true
  | Some n => n =? 0
  end.

(** The counting part: the address, the prompt, and the vendor by the first
    three letters of the model. *)
Definition counted (model user_ip : string) (user : User) : User :=
  let u1 := set_ipPromptCount (count_ip (ipPromptCount user) user_ip) user in
  let u2 := set_promptCount (promptCount u1 + 1) u1 in
  if String.eqb (slice3 model) "gpt"
  then set_promptGptCount (promptGptCount u2 + 1) u2
  else if String.eqb (slice3 model) "cla"
  then set_promptClaudeCount (promptClaudeCount u2 + 1) u2
  else u2.

Definition incrementPromptCount (st : Store) (token : string) (model : string)
  (user_ip : string) (now : Z) : Store :=
  match map_get (users st) token with
  | None => st
  | Some user =>
      let u3 := counted model user_ip user in
      let us3 := map_set (users st) token u3 in
      let us :=
        match type u3 with
        | temp =>
            if not_marked_disabled u3 then
              let u4 :=
                if (default 0 (endTimeLimit u3) =? -1)
                   && (default 0 (promptLimit u3) =? -1)
                then set_endTimeLimit (now + default 0 (timeLimit u3) * 1000) u3
                else u3 in
              let us4 := map_set (users st) token u4 in
              let us5 :=
                if negb (default 0 (promptLimit u4) =? -1)
                   && (default 0 (promptLimit u4) <=? promptCount u4)
                then map_delete us4 (UserStore.token u4)
                else us4 in
              if (default 0 (promptLimit u4) =? -1)
                 && (default 0 (endTimeLimit u4) <=? now)
                 && negb (default (-1) (timeLimit u4) =? -1)
              then map_delete us5 (UserStore.token u4)
              else us5
            else us3
        | _ => us3
        end in
      mark token (with_users us st)
  end.

(** ** incrementTokenCount; [amount] defaults to 1. *)

Definition incrementTokenCount (st : Store) (token : string)
  (amount : option Z) (service : string) : Store :=
  match map_get (users st) token with
  | None => st
  | Some user =>
      let a := default 1 amount in
      let u1 :=
        if String.eqb service "openai"
        then set_tokenGptCount (tokenGptCount user + a) user
        else if String.eqb service "anthropic"
        then set_tokenClaudeCount (tokenClaudeCount user + a) user
        else user in
      mark token (with_users (map_set (users st) token u1) st)
  end.

(** ** disableUser and authenticate *)

Definition disableUser (st : Store) (token : string) (reason : option string)
  (now : Z) : Store :=
  match map_get (users st) token with
  | None => st
  | Some user =>
      mark token
        (with_users (map_set (users st) token (set_disabled now reason user)) st)
  end.

(** [user.disabledAt] is truthy. *)
Definition is_disabled (u : User) : bool :=
  match disabledAt u with
  | None => false
  | Some n => negb (n =? 0)
  end.

Definition too_many_ips : string :=
  "Too many IP addresses associated with this token.".

(** [user.ip.length > ipLimit], with [ipLimit] infinite for a special user
    and when [MAX_IPS_PER_USER] is falsy. *)
Definition over_ip_limit (cfg : Config) (u : User) : bool :=
  match type u with
  | special => false
  | _ =>
      if maxIpsPerUser cfg =? 0 then false
      else maxIpsPerUser cfg <? Z.of_nat (length (ip u))
  end.

(** [user.ip.includes(ip)] *)
Definition includes (l : list string) (x : string) : bool :=
  existsb (String.eqb x) l.

Definition authenticate (cfg : Config) (st : Store) (token : string)
  (ip_ : string) (now : Z) : Store * option User :=
  match map_get (users st) token with
  | None => (st, None)
  | Some user =>
      if is_disabled user then (st, None)
      else
        let u1 := if includes (ip user) ip_ then user
                  else set_ip (ip user ++ [ip_]) user in
        let st1 := with_users (map_set (users st) token u1) st in
        if over_ip_limit cfg u1
        then (disableUser st1 token (Some too_many_ips) now, None)
        else
          let u2 := set_lastUsedAt now u1 in
          (mark token (with_users (map_set (users st) token u2) st), Some u2)
  end.

(** ** flushUsers

    What is handed to [usersRef.update], if anything: the users marked for
    flushing that are still in the map, by token. *)

Definition flushUsers (st : Store) : Store * option (list (string * User)) :=
  let updates :=
    List.filter (fun e => bool_decide (fst e ∈ usersToFlush st)) (users st) in
  let st1 := mkStore (users st) ∅ (immediates st) in
  if (length updates =? 0)%nat then (st1, None) else (st1, Some updates).

(** ** Vocabulary of the properties *)

(** Every entry of the map is filed under the token of its user, and no
    token is there twice. *)
Definition filed_by_token (st : Store) : Prop :=
  NoDup (map fst (users st))
  /\ Forall (fun e => token (snd e) = fst e) (users st).

(** A run of prompts of one user: each with its model, address and time. *)
Fixpoint prompts (st : Store) (t : string) (ps : list (string * string * Z))
  : Store :=
  match ps with
  | [] => st
  | (model, user_ip, now) :: ps' =>
      prompts (incrementPromptCount st t model user_ip now) t ps'
  end.

(** ** Sequences of requests to the store *)

Inductive Request :=
| ReqCreateUser (token : string) (rLimit now : Z)
| ReqCreateTempUser (random : string) (pLimit tLimit rLimit now : Z)
| ReqUpsertUser (user : UserUpdate) (now : Z)
| ReqIncrementPromptCount (token model user_ip : string) (now : Z)
| ReqIncrementTokenCount (token : string) (amount : option Z) (service : string)
| ReqAuthenticate (token ip_ : string) (now : Z)
| ReqDisableUser (token : string) (reason : option string) (now : Z)
| ReqFlushUsers.

Definition serve (cfg : Config) (st : Store) (r : Request) : Store :=
  match r with
  | ReqCreateUser t rl now => fst (createUser st t rl now)
  | ReqCreateTempUser rnd p t rl now => fst (createTempUser st rnd p t rl now)
  | ReqUpsertUser u now => fst (upsertUser cfg st u now)
  | ReqIncrementPromptCount t m i now => incrementPromptCount st t m i now
  | ReqIncrementTokenCount t a s => incrementTokenCount st t a s
  | ReqAuthenticate t i now => fst (authenticate cfg st t i now)
  | ReqDisableUser t reason now => disableUser st t reason now
  | ReqFlushUsers => fst (flushUsers st)
  end.

Definition serve_all (cfg : Config) (st : Store) (rs : list Request) : Store :=
  fold_left (serve cfg) rs st.

(** A temporary user with a prompt limit, still in use. *)
Definition prompt_limited (p : Z) (u : User) : Prop :=
  type u = temp /\ disabledAt u = None /\ promptLimit u = Some p /\ p <> -1.


(** ** Sample store *)

Definition empty_store : Store := mkStore [] ∅ 0.

Definition alice : User :=
  mkUser "alice" ["10.0.0.1"; "10.0.0.2"] [("10.0.0.1", 3)] normal 3 1 2
         None None None 40 60 None 1000 (Some 2000) None None.
Definition vip : User :=
  mkUser "vip" ["10.0.0.1"; "10.0.0.2"; "10.0.0.3"] [] special 0 0 0
         None None None 0 0 None 1000 None None None.

Definition store_2 : Store :=
  mkStore [("alice", alice); ("vip", vip)] ∅ 0.

Definition cfg_2 : Config := mkConfig false 2.

(** Two requests of the admin API: one for a user of [store_2], one for a
    token that is new. *)
Definition update_alice : UserUpdate :=
  mkUpdate "alice" None None (Some special) None None None (Some 10) None
           None None None None None None None None.
Definition update_bob : UserUpdate :=
  mkUpdate "bob" None None None None None None None None None None None
           (Some 4) None None None None.

End UserStore.

(** * Properties *)

(** ** The head of a sorted array *)

Section SortFacts.
Context {A : Type} (cmp : A -> A -> Z).

(** A consistent comparator: swapping the arguments flips the sign, and
    "not after" is transitive. *)
Hypothesis cmp_flip : forall a b, 0 < cmp a b -> cmp b a < 0.
Hypothesis cmp_trans :
  forall a b c, cmp a b <= 0 -> cmp b c <= 0 -> cmp a c <= 0.

Lemma insert_sorted_not_nil (x : A) (l : list A) :
  insert_sorted cmp x l <> [].
Proof. destruct l as [|y l]; simpl; [|destruct (cmp x y <=? 0)]; discriminate. Qed.

Lemma sort_nil_inv (l : list A) : sort cmp l = [] -> l = [].
Proof.
  destruct l as [|x l]; [reflexivity|]. simpl. intros H.
  now apply insert_sorted_not_nil in H.
Qed.

(** The first element of the sorted array is the first in the original
    order of those that nothing is strictly before. *)
Lemma sort_head (l : list A) (x : A) (s : list A) :
  sort cmp l = x :: s ->
  exists l1 l2,
    l = l1 ++ x :: l2
    /\ Forall (fun z => 0 < cmp z x) l1
    /\ Forall (fun z => cmp x z <= 0) l2.
Proof.
  revert x s. induction l as [|a l IH]; intros x s Hs; [discriminate|].
  simpl in Hs. destruct (sort cmp l) as [|y s'] eqn:Hl.
  - apply sort_nil_inv in Hl. subst l. simpl in Hs.
    injection Hs as <- _. exists [], []. repeat split; constructor.
  - destruct (IH y s' eq_refl) as (l1 & l2 & -> & H1 & H2).
    simpl in Hs. destruct (cmp a y <=? 0) eqn:Hay.
    + apply Z.leb_le in Hay. injection Hs as <- _.
      exists [], (l1 ++ y :: l2). split; [reflexivity|].
      split; [constructor|].
      apply Forall_app. split; [|constructor].
      * eapply Forall_impl; [exact H1|]. simpl. intros z Hz.
        apply cmp_flip in Hz. apply (cmp_trans a y z); lia.
      * exact Hay.
      * eapply Forall_impl; [exact H2|]. simpl. intros z Hz.
        now apply (cmp_trans a y z).
    + apply Z.leb_gt in Hay. injection Hs as <- _.
      exists (a :: l1), l2. split; [reflexivity|].
      split; [constructor; [lia|exact H1]|exact H2].
Qed.
End SortFacts.

Module AnthropicKeyProviderSpec.
Import AnthropicKeyProvider.

(** ** The pool and the object store *)

Lemma in_deref_all (h : gmap loc AnthropicKey) (ls : list loc) l k :
  In (l, k) (deref_all h ls) <-> In l ls /\ h !! l = Some k.
Proof.
  induction ls as [|l0 ls IH]; simpl; [tauto|].
  destruct (h !! l0) as [k0|] eqn:E; simpl; rewrite IH; split.
  - intros [[= <- <-]|[? ?]]; auto.
  - intros [[->|?] Hk]; [left; congruence|auto].
  - intros [? ?]; auto.
  - intros [[->|?] Hk]; [congruence|auto].
Qed.

Lemma in_pool (st : State) l k :
  In (l, k) (pool st) <-> In l (keys st) /\ heap st !! l = Some k.
Proof. apply in_deref_all. Qed.

Lemma in_enabledKeys (st : State) l k :
  In (l, k) (enabledKeys st) <-> In (l, k) (pool st) /\ isDisabled k = false.
Proof.
  unfold enabledKeys. rewrite filter_In. simpl.
  rewrite negb_true_iff. reflexivity.
Qed.

Lemma all_disabled_iff (st : State) : all_disabled st <-> enabledKeys st = [].
Proof.
  unfold all_disabled. split.
  - intros H. destruct (enabledKeys st) as [|[l k] r] eqn:E; [reflexivity|].
    assert (Hin : In (l, k) (enabledKeys st)) by (rewrite E; now left).
    apply in_enabledKeys in Hin as [Hp Hd].
    rewrite (H _ _ Hp) in Hd. discriminate.
  - intros E l k Hp. destruct (isDisabled k) eqn:Hd; [reflexivity|].
    assert (Hin : In (l, k) (enabledKeys st)) by now apply in_enabledKeys.
    rewrite E in Hin. destruct Hin.
Qed.

(** [find] returns the first entry with the hash looked for. *)
Lemma find_key_Some (st : State) h l k :
  find_key st h = Some (l, k) ->
  In l (keys st) /\ heap st !! l = Some k /\ hash k = h.
Proof.
  unfold find_key. intros H. apply find_some in H as [Hin Hh].
  apply in_pool in Hin as [? ?]. simpl in Hh.
  apply String.eqb_eq in Hh. auto.
Qed.

Lemma find_key_None (st : State) h :
  find_key st h = None <-> ~ In h (hashes st).
Proof.
  unfold find_key, hashes. split.
  - intros H Hin. apply in_map_iff in Hin as ([l k] & Hh & Hin).
    apply (find_none _ _ H) in Hin. simpl in *.
    apply String.eqb_neq in Hin. congruence.
  - intros H. destruct (List.find _ _) as [[l k]|] eqn:E; [|reflexivity].
    apply find_some in E as [Hin Hh]. simpl in Hh.
    apply String.eqb_eq in Hh. exfalso. apply H.
    apply in_map_iff. exists (l, k). auto.
Qed.

(** ** The comparator of [get] *)

Lemma compare_keys_le (now : Z) (a b : AnthropicKey) :
  compare_keys now a b <= 0 <-> precedes now a b.
Proof.
  unfold compare_keys, precedes, recently_limited.
  destruct (now - rateLimitedAt a <? RATE_LIMIT_LOCKOUT),
           (now - rateLimitedAt b <? RATE_LIMIT_LOCKOUT);
    simpl; try destruct (isPozzed a), (isPozzed b); simpl; intuition lia.
Qed.

Lemma compare_keys_flip (now : Z) (a b : AnthropicKey) :
  0 < compare_keys now a b -> compare_keys now b a < 0.
Proof.
  unfold compare_keys.
  destruct (now - rateLimitedAt a <? RATE_LIMIT_LOCKOUT),
           (now - rateLimitedAt b <? RATE_LIMIT_LOCKOUT);
    simpl; try lia.
  destruct (isPozzed a), (isPozzed b); simpl; lia.
Qed.

Lemma compare_keys_trans (now : Z) (a b c : AnthropicKey) :
  compare_keys now a b <= 0 -> compare_keys now b c <= 0 ->
  compare_keys now a c <= 0.
Proof.
  unfold compare_keys.
  destruct (now - rateLimitedAt a <? RATE_LIMIT_LOCKOUT),
           (now - rateLimitedAt b <? RATE_LIMIT_LOCKOUT),
           (now - rateLimitedAt c <? RATE_LIMIT_LOCKOUT);
    simpl; try lia;
    destruct (isPozzed a), (isPozzed b), (isPozzed c); simpl; lia.
Qed.

(** Which key comes first in [keysByPriority]. *)
Lemma keysByPriority_head (st : State) (now : Z) l k rest :
  keysByPriority st now = (l, k) :: rest ->
  exists before after,
    enabledKeys st = before ++ (l, k) :: after
    /\ Forall (fun e => ~ precedes now (snd e) k) before
    /\ Forall (fun e => precedes now k (snd e)) after.
Proof.
  unfold keysByPriority. intros H.
  apply sort_head in H as (l1 & l2 & E & H1 & H2).
  - exists l1, l2. split; [exact E|]. split.
    + eapply Forall_impl; [exact H1|]. simpl. intros e He Hp.
      apply compare_keys_le in Hp. lia.
    + eapply Forall_impl; [exact H2|]. simpl. intros e He.
      now apply compare_keys_le.
  - intros a b. apply compare_keys_flip.
  - intros a b c. apply compare_keys_trans.
Qed.

Lemma keysByPriority_nonempty (st : State) (now : Z) :
  enabledKeys st <> [] -> exists l k rest, keysByPriority st now = (l, k) :: rest.
Proof.
  intros H. unfold keysByPriority.
  destruct (sort _ (enabledKeys st)) as [|[l k] rest] eqn:E.
  - apply sort_nil_inv in E. contradiction.
  - eauto.
Qed.

(** [get] in terms of the head of [keysByPriority]. *)
Lemma get_empty (st : State) (now : Z) :
  enabledKeys st = [] -> get st now = (st, Throw (Error no_keys_message)).
Proof. unfold get. intros ->. reflexivity. Qed.

Lemma get_head (st : State) (now : Z) l k rest :
  keysByPriority st now = (l, k) :: rest ->
  get st now =
    (with_heap (<[fresh (dom (<[l := mark_selected now k]> (heap st)))
                  := mark_selected now k]>
                  (<[l := mark_selected now k]> (heap st))) st,
     Normal (fresh (dom (<[l := mark_selected now k]> (heap st))))).
Proof.
  intros H. unfold get. rewrite H.
  destruct (enabledKeys st) as [|e r] eqn:E; [|reflexivity].
  unfold keysByPriority in H. rewrite E in H. discriminate.
Qed.

(** ** get: selection *)

(** C1, as amended. When every key of the pool is disabled (the empty pool
    included) [get] throws the no-key-available error and changes nothing.
    Otherwise it returns a copy of an enabled key of the pool which, in the
    array of enabled keys, is the first one that no other precedes, where
    a key counts as rate limited when [now - rateLimitedAt] is below
    [RATE_LIMIT_LOCKOUT]: keys that are not rate limited come before those
    that are; rate-limited keys are ordered by [rateLimitedAt]; keys that
    are not are ordered by the quality flag and then by [lastUsed]. The key
    handed out is never a disabled one. *)
Theorem get_selects_by_priority (st : State) (now : Z) :
  (all_disabled st -> get st now = (st, Throw (Error no_keys_message)))
  /\ (~ all_disabled st ->
      exists before l k after st' c,
        enabledKeys st = before ++ (l, k) :: after
        /\ Forall (fun e => ~ precedes now (snd e) k) before
        /\ Forall (fun e => precedes now k (snd e)) after
        /\ In l (keys st) /\ heap st !! l = Some k /\ isDisabled k = false
        /\ get st now = (st', Normal c)
        /\ heap st' !! c = Some (mark_selected now k)
        /\ isDisabled (mark_selected now k) = false).
Proof.
  split.
  - intros H. apply get_empty. now apply all_disabled_iff.
  - intros H. rewrite all_disabled_iff in H.
    destruct (keysByPriority_nonempty st now H) as (l & k & rest & Hk).
    destruct (keysByPriority_head _ _ _ _ _ Hk) as (before & after & E & Hb & Ha).
    assert (Hin : In (l, k) (enabledKeys st)).
    { rewrite E. apply in_or_app. right. now left. }
    apply in_enabledKeys in Hin as [Hp Hd]. apply in_pool in Hp as [Hl Hh].
    eexists before, l, k, after, _, _.
    repeat split; try eassumption.
    + apply (get_head _ _ _ _ _ Hk).
    + simpl. apply lookup_insert_eq.
Qed.

Lemma get_selects_by_priority_witness :
  get pool_c 10000 = (pool_c, Throw (Error no_keys_message))
  /\ exists before l k after st' c,
       enabledKeys pool_ab = before ++ (l, k) :: after
       /\ Forall (fun e => ~ precedes 10000 (snd e) k) before
       /\ Forall (fun e => precedes 10000 k (snd e)) after
       /\ In l (keys pool_ab) /\ heap pool_ab !! l = Some k
       /\ isDisabled k = false
       /\ get pool_ab 10000 = (st', Normal c)
       /\ heap st' !! c = Some (mark_selected 10000 k)
       /\ isDisabled (mark_selected 10000 k) = false.
Proof.
  split.
  - apply (proj1 (get_selects_by_priority pool_c 10000)).
    intros l k H. vm_compute in H.
    destruct H as [H|[]]. injection H as _ <-. reflexivity.
  - apply (proj2 (get_selects_by_priority pool_ab 10000)).
    intros H. specialize (H 1%positive key_a).
    assert (Hin : In (1%positive, key_a) (pool pool_ab))
      by (vm_compute; auto).
    apply H in Hin. discriminate Hin.
Defined.

(** C1, as stated, fails on two counts. With "locked out" read as
    [now < rateLimitedUntil], [key_a] (selected a second ago, its window of
    500 ms over, not flagged) outranks the flagged [key_b], yet [get] hands
    out [key_b]. And of two locked-out keys with the same [rateLimitedAt],
    [get] hands out the first of the array, [key_d], not the less recently
    used [key_e]. *)
Lemma get_departs_from_stated_ranking :
  ~ spec_get_selects pool_ab 10000 /\ ~ spec_get_selects pool_tie 10000.
Proof.
  split.
  - intros H.
    assert (E : get pool_ab 10000 = (fst (get pool_ab 10000), Normal 4%positive))
      by (vm_compute; reflexivity).
    destruct (H _ _ E) as (l & k & Hin & Hc & Hbest).
    vm_compute in Hin. destruct Hin as [Hin|[Hin|[]]]; injection Hin as <- <-.
    + vm_compute in Hc. discriminate Hc.
    + assert (Ha : In (1%positive, key_a) (enabledKeys pool_ab))
        by (vm_compute; auto).
      apply Hbest in Ha. vm_compute in Ha. discriminate Ha.
  - intros H.
    assert (E : get pool_tie 10000 = (fst (get pool_tie 10000), Normal 3%positive))
      by (vm_compute; reflexivity).
    destruct (H _ _ E) as (l & k & Hin & Hc & Hbest).
    vm_compute in Hin. destruct Hin as [Hin|[Hin|[]]]; injection Hin as <- <-.
    + assert (He : In (2%positive, key_e) (enabledKeys pool_tie))
        by (vm_compute; auto).
      apply Hbest in He. vm_compute in He. discriminate He.
    + vm_compute in Hc. discriminate Hc.
Qed.

(** ** getLockoutPeriod *)

Lemma filter_keeps_all {A : Type} (f : A -> bool) (l : list A) :
  (length (List.filter f l) <? length l)%nat = false <->
  forall x, In x l -> f x = true.
Proof.
  rewrite Nat.ltb_ge. induction l as [|a l IH]; simpl.
  - split; [intros _ x []|lia].
  - pose proof (List.filter_length_le f l) as Hle.
    destruct (f a) eqn:Ha; simpl.
    + split.
      * intros H x [<-|Hx]; [exact Ha|]. apply IH; [lia|exact Hx].
      * intros H. apply le_n_S. apply IH. intros x Hx. apply H. now right.
    + split; [lia|]. intros H. specialize (H a (or_introl eq_refl)). congruence.
Qed.

Lemma Math_min_le_init (x : Z) (xs : list Z) : Math_min x xs <= x.
Proof.
  unfold Math_min. revert x. induction xs as [|y xs IH]; intros x; simpl; [lia|].
  specialize (IH (Z.min x y)). lia.
Qed.

Lemma Math_min_le (x : Z) (xs : list Z) y : In y xs -> Math_min x xs <= y.
Proof.
  unfold Math_min. revert x. induction xs as [|z xs IH]; intros x; simpl; [tauto|].
  intros [->|Hy]; [|now apply IH].
  pose proof (Math_min_le_init (Z.min x y) xs) as H. unfold Math_min in H. lia.
Qed.

Lemma Math_min_in (x : Z) (xs : list Z) : In (Math_min x xs) (x :: xs).
Proof.
  unfold Math_min. revert x. induction xs as [|z xs IH]; intros x; simpl; [auto|].
  destruct (IH (Z.min x z)) as [H|H]; [|auto].
  rewrite <- H. destruct (Z.min_spec x z) as [[_ ->]|[_ ->]]; auto.
Qed.

(** C3. [getLockoutPeriod] is 0 when the pool has no enabled key, and 0 when
    some enabled key is not locked out ([rateLimitedUntil <= now]); when
    every enabled key is locked out it is the least [rateLimitedUntil - now]
    over the enabled keys: the value of one of them, and at most that of
    each. *)
Theorem getLockoutPeriod_spec (st : State) (now : Z) :
  (enabledKeys st = [] -> getLockoutPeriod st now = 0)
  /\ ((exists l k, In (l, k) (enabledKeys st) /\ rateLimitedUntil k <= now) ->
      getLockoutPeriod st now = 0)
  /\ (enabledKeys st <> [] ->
      (forall l k, In (l, k) (enabledKeys st) -> now < rateLimitedUntil k) ->
      (exists l k, In (l, k) (enabledKeys st)
                   /\ getLockoutPeriod st now = rateLimitedUntil k - now)
      /\ (forall l k, In (l, k) (enabledKeys st) ->
            getLockoutPeriod st now <= rateLimitedUntil k - now)).
Proof.
  unfold getLockoutPeriod.
  destruct (enabledKeys st) as [|[l0 k0] rest] eqn:E.
  { split; [reflexivity|]. split; [reflexivity|]. intros H. contradiction. }
  cbn [map snd].
  set (active := k0 :: map snd rest).
  set (limited := fun k : AnthropicKey => now <? rateLimitedUntil k).
  assert (Hact : forall k, In k active <-> exists l, In (l, k) ((l0, k0) :: rest)).
  { intros k. unfold active. simpl. split.
    - intros [<-|H]; [exists l0; now left|].
      apply in_map_iff in H as ([l k'] & <- & H). exists l. now right.
    - intros (l & [[= <- <-]|H]); [now left|].
      right. apply in_map_iff. exists (l, k). auto. }
  split; [discriminate|]. split.
  - intros (l & k & Hin & Hk).
    destruct (length (List.filter limited active) <? length active)%nat eqn:F;
      [reflexivity|].
    exfalso. rewrite filter_keeps_all in F.
    assert (Hk' : limited k = true) by (apply F, Hact; eauto).
    unfold limited in Hk'. apply Z.ltb_lt in Hk'. lia.
  - intros _ Hall.
    assert (F : (length (List.filter limited active) <? length active)%nat = false).
    { apply filter_keeps_all. intros k Hk. apply Hact in Hk as (l & Hk).
      unfold limited. apply Z.ltb_lt. eauto. }
    rewrite F. split.
    + destruct (Math_min_in (rateLimitedUntil k0 - now)
                  (map (fun k => rateLimitedUntil k - now) (map snd rest)))
        as [H|H].
      * exists l0, k0. split; [now left|]. now rewrite <- H.
      * apply in_map_iff in H as (k & Hk & Hin).
        apply in_map_iff in Hin as ([l k'] & <- & Hin).
        exists l, k'. split; [now right|]. now rewrite <- Hk.
    + intros l k [[= <- <-]|Hin].
      * apply Math_min_le_init.
      * apply Math_min_le. apply in_map_iff. exists k. split; [reflexivity|].
        apply in_map_iff. exists (l, k). auto.
Qed.

Lemma getLockoutPeriod_spec_witness :
  getLockoutPeriod pool_c 10000 = 0
  /\ getLockoutPeriod pool_ab 9100 = 0
  /\ ((exists l k, In (l, k) (enabledKeys pool_locked)
         /\ getLockoutPeriod pool_locked 10100
            = rateLimitedUntil k - 10100)
      /\ (forall l k, In (l, k) (enabledKeys pool_locked) ->
            getLockoutPeriod pool_locked 10100
            <= rateLimitedUntil k - 10100)).
Proof.
  split; [|split].
  - apply (proj1 (getLockoutPeriod_spec pool_c 10000)). reflexivity.
  - apply (proj1 (proj2 (getLockoutPeriod_spec pool_ab 9100))).
    exists 2%positive, key_b. split; [vm_compute; auto|vm_compute; discriminate].
  - apply (proj2 (proj2 (getLockoutPeriod_spec pool_locked 10100))).
    + vm_compute. discriminate.
    + intros l k H. vm_compute in H.
      destruct H as [H|[H|[]]]; injection H as _ <-; reflexivity.
Defined.

(** ** get and markRateLimited: what is written *)

Lemma get_Normal_inv (st : State) (now : Z) st' c :
  get st now = (st', Normal c) ->
  exists l k rest,
    keysByPriority st now = (l, k) :: rest
    /\ c = fresh (dom (<[l := mark_selected now k]> (heap st)))
    /\ st' = with_heap (<[c := mark_selected now k]>
                          (<[l := mark_selected now k]> (heap st))) st.
Proof.
  intros H. destruct (enabledKeys st) as [|e r] eqn:E.
  - rewrite (get_empty _ _ E) in H. discriminate.
  - destruct (keysByPriority_nonempty st now) as (l & k & rest & Hk).
    { rewrite E. discriminate. }
    rewrite (get_head _ _ _ _ _ Hk) in H. injection H as <- <-.
    exists l, k, rest. auto.
Qed.

Lemma keysByPriority_head_in_pool (st : State) (now : Z) l k rest :
  keysByPriority st now = (l, k) :: rest ->
  In l (keys st) /\ heap st !! l = Some k /\ isDisabled k = false.
Proof.
  intros H. apply keysByPriority_head in H as (b & a & E & _).
  assert (Hin : In (l, k) (enabledKeys st)).
  { rewrite E. apply in_or_app. right. now left. }
  apply in_enabledKeys in Hin as [Hp Hd]. apply in_pool in Hp. tauto.
Qed.

Lemma copy_is_fresh (h : gmap loc AnthropicKey) l v :
  fresh (dom (<[l := v]> h)) <> l /\ h !! fresh (dom (<[l := v]> h)) = None.
Proof.
  pose proof (is_fresh (dom (<[l := v]> h))) as Hf.
  set (c := fresh (dom (<[l := v]> h))) in *. split.
  - intros E. apply Hf. rewrite E. apply elem_of_dom.
    rewrite lookup_insert_eq. eauto.
  - apply not_elem_of_dom. intros Hin. apply Hf.
    rewrite dom_insert_L. set_solver.
Qed.

(** C6. After [markRateLimited] on a key of the pool at time [now], that key
    has [rateLimitedAt = now] and [rateLimitedUntil = now + 2000]; after
    [get] has selected a key at time [now], that key of the pool (and the
    copy handed out) has [lastUsed = now], [rateLimitedAt = now] and
    [rateLimitedUntil = now + 500]; and the confirmed lockout is strictly
    longer than the reuse delay. *)
Theorem lockout_windows (st : State) (now : Z) :
  (forall h l k, find_key st h = Some (l, k) ->
     exists st' k',
       markRateLimited st h now = (st', Normal tt)
       /\ heap st' !! l = Some k'
       /\ rateLimitedAt k' = now
       /\ rateLimitedUntil k' = now + 2000
       /\ rateLimitedUntil k' - rateLimitedAt k' = RATE_LIMIT_LOCKOUT)
  /\ (forall st' c, get st now = (st', Normal c) ->
     exists l k rest k',
       keysByPriority st now = (l, k) :: rest
       /\ In l (keys st')
       /\ heap st' !! l = Some k' /\ heap st' !! c = Some k'
       /\ lastUsed k' = now
       /\ rateLimitedAt k' = now
       /\ rateLimitedUntil k' = now + 500
       /\ rateLimitedUntil k' - rateLimitedAt k' = KEY_REUSE_DELAY)
  /\ KEY_REUSE_DELAY < RATE_LIMIT_LOCKOUT.
Proof.
  split; [|split].
  - intros h l k H. unfold markRateLimited. rewrite H.
    eexists _, _. split; [reflexivity|]. split.
    + simpl. apply lookup_insert_eq.
    + simpl. unfold RATE_LIMIT_LOCKOUT. repeat split; lia.
  - intros st' c H.
    apply get_Normal_inv in H as (l & k & rest & Hk & -> & ->).
    destruct (keysByPriority_head_in_pool _ _ _ _ _ Hk) as (Hl & _).
    destruct (copy_is_fresh (heap st) l (mark_selected now k)) as [Hne _].
    exists l, k, rest, (mark_selected now k).
    split; [exact Hk|]. split; [exact Hl|]. split; [|split].
    + simpl. rewrite lookup_insert_ne by exact Hne. apply lookup_insert_eq.
    + simpl. apply lookup_insert_eq.
    + simpl. unfold KEY_REUSE_DELAY. repeat split; lia.
  - reflexivity.
Qed.

Lemma lockout_windows_witness :
  (exists st' k',
     markRateLimited pool_ab "a" 10000 = (st', Normal tt)
     /\ heap st' !! 1%positive = Some k'
     /\ rateLimitedAt k' = 10000
     /\ rateLimitedUntil k' = 10000 + 2000
     /\ rateLimitedUntil k' - rateLimitedAt k' = RATE_LIMIT_LOCKOUT)
  /\ (exists l k rest k',
       keysByPriority pool_ab 10000 = (l, k) :: rest
       /\ In l (keys (fst (get pool_ab 10000)))
       /\ heap (fst (get pool_ab 10000)) !! l = Some k'
       /\ heap (fst (get pool_ab 10000)) !! 4%positive = Some k'
       /\ lastUsed k' = 10000
       /\ rateLimitedAt k' = 10000
       /\ rateLimitedUntil k' = 10000 + 500
       /\ rateLimitedUntil k' - rateLimitedAt k' = KEY_REUSE_DELAY).
Proof.
  split.
  - apply (proj1 (lockout_windows pool_ab 10000) "a" 1%positive key_a).
    vm_compute. reflexivity.
  - apply (proj1 (proj2 (lockout_windows pool_ab 10000))).
    vm_compute. reflexivity.
Defined.

(** ** get: the copy and the frame *)

Lemma deref_all_insert_fresh (h : gmap loc AnthropicKey) ls c v :
  ~ In c ls -> deref_all (<[c := v]> h) ls = deref_all h ls.
Proof.
  induction ls as [|l ls IH]; simpl; [reflexivity|]. intros Hc.
  rewrite lookup_insert_ne by (intros ->; apply Hc; now left).
  rewrite IH by (intros ?; apply Hc; now right). reflexivity.
Qed.

Lemma wf_lookup (st : State) l : wf st -> In l (keys st) -> is_Some (heap st !! l).
Proof.
  unfold wf. rewrite Forall_forall. intros H Hl. apply H.
  now apply list_elem_of_In.
Qed.

(** C8. What [get] returns is a new object, not one of the pool: it holds
    the field values of the selected key, and whatever is written to its
    fields afterwards, the records of the pool stay as they are. [get]
    itself leaves the key array as it was and writes to no object other
    than the selected key and the new copy. *)
Theorem get_returns_copy (st : State) (now : Z) (st' : State) (c : loc) :
  wf st -> get st now = (st', Normal c) ->
  heap st !! c = None
  /\ ~ In c (keys st')
  /\ (forall v, pool (with_heap (<[c := v]> (heap st')) st') = pool st')
  /\ (forall v l, In l (keys st') ->
        <[c := v]> (heap st') !! l = heap st' !! l)
  /\ keys st' = keys st
  /\ exists l k rest,
       keysByPriority st now = (l, k) :: rest
       /\ l <> c
       /\ heap st' !! l = Some (mark_selected now k)
       /\ heap st' !! c = Some (mark_selected now k)
       /\ forall l', l' <> l -> l' <> c -> heap st' !! l' = heap st !! l'.
Proof.
  intros Hwf H.
  apply get_Normal_inv in H as (l & k & rest & Hk & Hc & ->).
  destruct (copy_is_fresh (heap st) l (mark_selected now k)) as [Hne Hnone].
  rewrite <- Hc in Hne, Hnone.
  assert (Hnotin : ~ In c (keys st)).
  { intros Hin. destruct (wf_lookup _ _ Hwf Hin) as [x Hx]. congruence. }
  split; [exact Hnone|]. split; [exact Hnotin|]. split; [|split; [|split]].
  - intros v. unfold pool. simpl. now apply deref_all_insert_fresh.
  - intros v l0 Hl0. simpl in *. apply lookup_insert_ne.
    intros ->. contradiction.
  - reflexivity.
  - exists l, k, rest. split; [exact Hk|]. split; [congruence|]. simpl.
    split; [|split].
    + rewrite lookup_insert_ne by exact Hne. apply lookup_insert_eq.
    + apply lookup_insert_eq.
    + intros l' H1 H2.
      rewrite lookup_insert_ne by congruence.
      rewrite lookup_insert_ne by congruence. reflexivity.
Qed.

Lemma wf_pool_ab : wf pool_ab.
Proof. unfold wf. repeat constructor; vm_compute; eauto. Qed.

Lemma get_returns_copy_witness :
  heap pool_ab !! 4%positive = None
  /\ ~ In 4%positive (keys (fst (get pool_ab 10000)))
  /\ (forall v, pool (with_heap (<[4%positive := v]>
                                   (heap (fst (get pool_ab 10000))))
                        (fst (get pool_ab 10000)))
                = pool (fst (get pool_ab 10000)))
  /\ (forall v l, In l (keys (fst (get pool_ab 10000))) ->
        <[4%positive := v]> (heap (fst (get pool_ab 10000))) !! l
        = heap (fst (get pool_ab 10000)) !! l)
  /\ keys (fst (get pool_ab 10000)) = keys pool_ab
  /\ exists l k rest,
       keysByPriority pool_ab 10000 = (l, k) :: rest
       /\ l <> 4%positive
       /\ heap (fst (get pool_ab 10000)) !! l = Some (mark_selected 10000 k)
       /\ heap (fst (get pool_ab 10000)) !! 4%positive
          = Some (mark_selected 10000 k)
       /\ forall l', l' <> l -> l' <> 4%positive ->
            heap (fst (get pool_ab 10000)) !! l' = heap pool_ab !! l'.
Proof.
  apply (get_returns_copy pool_ab 10000).
  - exact wf_pool_ab.
  - vm_compute. reflexivity.
Defined.

(** ** incrementUsage *)

Section Usage.
(** The family a model name stands for is decided in [shared/models],
    outside the sources at hand; whatever that mapping is, it lands in
    [AnthropicModelFamily]. *)
Variable family_of : string -> AnthropicModelFamily.

(** C9. For a hash that matches a key of the pool, [incrementUsage] adds 1
    to that key's [promptCount] and [tokens] to the token counter of the
    model's family, and leaves every other field of that key, every other
    object and the key array as they were. *)
Theorem incrementUsage_counts (st : State) (h model : string) (tokens : Z)
  (l : loc) (k : AnthropicKey) :
  find_key st h = Some (l, k) ->
  exists st' k',
    incrementUsage st h model tokens = (st', Normal tt)
    /\ heap st' !! l = Some k'
    /\ promptCount k' = promptCount k + 1
    /\ tokens_of (family_of model) k' = tokens_of (family_of model) k + tokens
    /\ k' = set_claudeTokens (claudeTokens k')
              (set_promptCount (promptCount k') k)
    /\ (forall l', l' <> l -> heap st' !! l' = heap st !! l')
    /\ keys st' = keys st /\ checker st' = checker st.
Proof.
  intros H. unfold incrementUsage. rewrite H.
  eexists _, _. split; [reflexivity|]. simpl.
  split; [apply lookup_insert_eq|].
  split; [reflexivity|].
  split; [destruct (family_of model); reflexivity|].
  split; [reflexivity|].
  split; [|auto]. intros l' Hl'. now apply lookup_insert_ne.
Qed.
End Usage.

Lemma incrementUsage_counts_witness :
  exists st' k',
    incrementUsage pool_ab "a" "claude-2" 100 = (st', Normal tt)
    /\ heap st' !! 1%positive = Some k'
    /\ promptCount k' = promptCount key_a + 1
    /\ tokens_of claude k' = tokens_of claude key_a + 100
    /\ k' = set_claudeTokens (claudeTokens k')
              (set_promptCount (promptCount k') key_a)
    /\ (forall l', l' <> 1%positive -> heap st' !! l' = heap pool_ab !! l')
    /\ keys st' = keys pool_ab /\ checker st' = checker pool_ab.
Proof.
  apply (incrementUsage_counts (fun _ => claude) pool_ab "a" "claude-2" 100
           1%positive key_a).
  vm_compute. reflexivity.
Defined.

(** ** Unknown hashes *)

Lemma disable_unknown (st : State) (k : AnthropicKey) :
  ~ In (hash k) (hashes st) -> disable st k = (st, Normal tt).
Proof. intros H. apply find_key_None in H. unfold disable. now rewrite H. Qed.

Lemma incrementUsage_unknown (st : State) h model tokens :
  ~ In h (hashes st) -> incrementUsage st h model tokens = (st, Normal tt).
Proof.
  intros H. apply find_key_None in H. unfold incrementUsage. now rewrite H.
Qed.

Lemma update_unknown (st : State) h p now :
  ~ In h (hashes st) -> update st h p now = (st, Throw TypeError).
Proof. intros H. apply find_key_None in H. unfold update. now rewrite H. Qed.

Lemma markRateLimited_unknown (st : State) h now :
  ~ In h (hashes st) -> markRateLimited st h now = (st, Throw TypeError).
Proof.
  intros H. apply find_key_None in H. unfold markRateLimited. now rewrite H.
Qed.

(** C2, at a hash that is not in the pool. [disable] and [incrementUsage]
    return and change nothing; [update] and [markRateLimited] change nothing
    either, but they do not return: they throw a [TypeError]. *)
Theorem unknown_hash_update_throws :
  ~ In "nope" (hashes pool_ab)
  /\ disable pool_ab (mkKey "sk" "nope" 7%positive false 0 0 0 0 0 false false 0)
     = (pool_ab, Normal tt)
  /\ incrementUsage pool_ab "nope" "claude-2" 100 = (pool_ab, Normal tt)
  /\ update pool_ab "nope" no_fields 10000 = (pool_ab, Throw TypeError)
  /\ markRateLimited pool_ab "nope" 10000 = (pool_ab, Throw TypeError).
Proof.
  assert (H : ~ In "nope" (hashes pool_ab)).
  { vm_compute. intros [H|[H|[H|[]]]]; discriminate H. }
  split; [exact H|].
  split; [now apply disable_unknown|].
  split; [now apply incrementUsage_unknown|].
  split; [now apply update_unknown|now apply markRateLimited_unknown].
Qed.

(** ** init without keys *)

Lemma empty_pool_facts (st : State) :
  keys st = [] ->
  pool st = [] /\ enabledKeys st = [] /\ forall h, find_key st h = None.
Proof.
  intros E. unfold find_key, enabledKeys, pool. rewrite E. simpl. auto.
Qed.

Lemma perform_keeps_empty (st : State) (c : Call) :
  keys st = [] -> checker st = None ->
  keys (perform st c) = [] /\ checker (perform st c) = None.
Proof.
  intros E C. destruct (empty_pool_facts st E) as (Hp & He & Hf).
  destruct c; simpl.
  - rewrite (get_empty _ _ He). auto.
  - unfold disable. rewrite Hf. auto.
  - unfold update. rewrite Hf. auto.
  - unfold incrementUsage. rewrite Hf. auto.
  - auto.
  - unfold markRateLimited. rewrite Hf. auto.
  - unfold recheck. rewrite E. simpl. rewrite E, C. auto.
Qed.

Lemma perform_all_keeps_empty (cs : list Call) (st : State) :
  keys st = [] -> checker st = None ->
  keys (perform_all st cs) = [] /\ checker (perform_all st cs) = None.
Proof.
  unfold perform_all. revert st.
  induction cs as [|c cs IH]; intros st E C; simpl; [auto|].
  destruct (perform_keeps_empty st c E C). now apply IH.
Qed.

(** C10. When the store loads no key, [init] leaves the pool empty and
    constructs no checker, whatever [config.checkKeys] says; and after any
    sequence of calls on the provider, [available] is 0 and [get] throws the
    no-key-available error. *)
Theorem init_without_keys (h : gmap loc AnthropicKey) (checkKeys : bool)
  (calls : list Call) (now : Z) :
  keys (init (new_provider h) [] checkKeys) = []
  /\ checker (init (new_provider h) [] checkKeys) = None
  /\ available (perform_all (init (new_provider h) [] checkKeys) calls) = 0
  /\ snd (get (perform_all (init (new_provider h) [] checkKeys) calls) now)
     = Throw (Error no_keys_message)
  /\ checker (perform_all (init (new_provider h) [] checkKeys) calls) = None.
Proof.
  split; [reflexivity|]. split; [reflexivity|].
  destruct (perform_all_keeps_empty calls (init (new_provider h) [] checkKeys))
    as [E C]; [reflexivity|reflexivity|].
  destruct (empty_pool_facts _ E) as (_ & He & _).
  split; [|split].
  - unfold available. now rewrite He.
  - now rewrite (get_empty _ _ He).
  - exact C.
Qed.

(** ** recheck *)

Lemma assign_recheck_fields (k : AnthropicKey) (now : Z) :
  assign k (stamped now recheck_fields) = rechecked k.
Proof. reflexivity. Qed.

Lemma rechecked_idem (k : AnthropicKey) : rechecked (rechecked k) = rechecked k.
Proof. reflexivity. Qed.

Lemma NoDup_map_eq {A B : Type} (f : A -> B) (l : list A) x y :
  NoDup (map f l) -> In x l -> In y l -> f x = f y -> x = y.
Proof.
  induction l as [|a l IH]; simpl; [tauto|].
  rewrite NoDup_cons. intros [Ha Hl] [<-|Hx] [<-|Hy] E; auto.
  - exfalso. apply Ha. rewrite E. apply list_elem_of_In. now apply in_map.
  - exfalso. apply Ha. rewrite <- E. apply list_elem_of_In. now apply in_map.
Qed.

(** With unique hashes, looking a key of the pool up by its hash finds that
    very key. *)
Lemma find_key_own (st : State) l k :
  NoDup (hashes st) -> In (l, k) (pool st) -> find_key st (hash k) = Some (l, k).
Proof.
  intros Hnd Hin. destruct (find_key st (hash k)) as [[l' k']|] eqn:E.
  - unfold find_key in E. apply find_some in E as [Hin' Hh]. simpl in Hh.
    apply String.eqb_eq in Hh.
    now rewrite (NoDup_map_eq (fun e => hash (snd e)) _ _ _ Hnd Hin' Hin Hh).
  - exfalso. apply find_key_None in E. apply E. unfold hashes.
    apply in_map_iff. exists (l, k). auto.
Qed.

Lemma hashes_insert_same_hash (h : gmap loc AnthropicKey) ls l k k' :
  h !! l = Some k -> hash k' = hash k ->
  map (fun e => hash (snd e)) (deref_all (<[l := k']> h) ls)
  = map (fun e => hash (snd e)) (deref_all h ls).
Proof.
  intros Hl Hh. induction ls as [|l0 ls IH]; simpl; [reflexivity|].
  destruct (decide (l = l0)) as [<-|Hne].
  - rewrite lookup_insert_eq, Hl. simpl. now rewrite IH, Hh.
  - rewrite lookup_insert_ne by exact Hne.
    destruct (h !! l0); simpl; now rewrite IH.
Qed.

Lemma wf_insert (st : State) l k' :
  wf st -> wf (with_heap (<[l := k']> (heap st)) st).
Proof.
  unfold wf. simpl. intros H. eapply Forall_impl; [exact H|].
  intros l0 [x Hx]. simpl. destruct (decide (l = l0)) as [<-|Hne].
  - rewrite lookup_insert_eq. eauto.
  - rewrite lookup_insert_ne by exact Hne. eauto.
Qed.

Lemma recheck_forEach_spec (ls : list loc) (now : Z) (st : State) :
  wf st -> NoDup (hashes st) -> (forall l, In l ls -> In l (keys st)) ->
  exists st',
    recheck_forEach ls st now = (st', Normal tt)
    /\ keys st' = keys st /\ checker st' = checker st
    /\ (forall l k, In l ls -> heap st !! l = Some k ->
          heap st' !! l = Some (rechecked k))
    /\ (forall l, ~ In l ls -> heap st' !! l = heap st !! l).
Proof.
  revert st. induction ls as [|l ls IH]; intros st Hwf Hnd Hsub; simpl.
  - exists st. repeat split; auto. intros l k [].
  - assert (Hl : In l (keys st)) by (apply Hsub; now left).
    destruct (wf_lookup _ _ Hwf Hl) as [k Hk]. rewrite Hk.
    assert (Hp : In (l, k) (pool st)) by (apply in_pool; auto).
    unfold update. rewrite (find_key_own _ _ _ Hnd Hp).
    rewrite assign_recheck_fields.
    set (st1 := with_heap (<[l := rechecked k]> (heap st)) st).
    destruct (IH st1) as (st' & Hrun & Hkeys & Hchk & Hin & Hout).
    { now apply wf_insert. }
    { unfold hashes, pool, st1. simpl.
      rewrite (hashes_insert_same_hash _ _ _ k) by auto. exact Hnd. }
    { intros l0 H0. simpl. apply Hsub. now right. }
    exists st'. split; [exact Hrun|]. split; [exact Hkeys|].
    split; [exact Hchk|]. split.
    + intros l0 k0 Hl0 Hk0.
      destruct (in_dec Pos.eq_dec l0 ls) as [Hils|Hnils].
      * destruct (decide (l = l0)) as [<-|Hne].
        -- assert (k0 = k) by congruence. subst k0.
           rewrite <- rechecked_idem. apply Hin; [exact Hils|].
           simpl. apply lookup_insert_eq.
        -- apply Hin; [exact Hils|]. simpl.
           now rewrite lookup_insert_ne by exact Hne.
      * destruct Hl0 as [<-|?]; [|contradiction].
        assert (k0 = k) by congruence. subst k0.
        rewrite (Hout _ Hnils). simpl. apply lookup_insert_eq.
    + intros l0 Hl0. rewrite Hout by (intros ?; apply Hl0; now right).
      simpl. apply lookup_insert_ne. intros ->. apply Hl0. now left.
Qed.

(** C7. On a pool whose hashes are unique, [recheck] returns, and every key
    of the pool then has [isDisabled = false], [isPozzed = false] and
    [lastChecked = 0] and is otherwise as before; no other object and not
    the key array is touched; and the checker, when there is one, is asked
    once more for [scheduleNextCheck]. *)
Theorem recheck_resets_every_key (st : State) (now : Z) :
  wf st -> NoDup (hashes st) ->
  exists st',
    recheck st now = (st', Normal tt)
    /\ keys st' = keys st
    /\ (forall l k, In (l, k) (pool st) ->
          heap st' !! l = Some (rechecked k)
          /\ isDisabled (rechecked k) = false
          /\ isPozzed (rechecked k) = false
          /\ lastChecked (rechecked k) = 0
          /\ rechecked k
             = set_lastChecked 0 (set_isDisabled false (set_isPozzed false k)))
    /\ (forall l, ~ In l (keys st) -> heap st' !! l = heap st !! l)
    /\ checker st'
       = fmap (fun calls => calls ++ [ScheduleNextCheck]) (checker st).
Proof.
  intros Hwf Hnd.
  destruct (recheck_forEach_spec (keys st) now st Hwf Hnd)
    as (st1 & Hrun & Hkeys & Hchk & Hin & Hout); [auto|].
  exists (call_checker ScheduleNextCheck st1).
  unfold recheck. rewrite Hrun. simpl.
  split; [reflexivity|]. split; [exact Hkeys|]. split; [|split].
  - intros l k Hp. apply in_pool in Hp as [Hl Hk].
    split; [now apply Hin|]. repeat split.
  - exact Hout.
  - now rewrite Hchk.
Qed.

Lemma recheck_resets_every_key_witness :
  exists st',
    recheck pool_ab 10000 = (st', Normal tt)
    /\ keys st' = keys pool_ab
    /\ (forall l k, In (l, k) (pool pool_ab) ->
          heap st' !! l = Some (rechecked k)
          /\ isDisabled (rechecked k) = false
          /\ isPozzed (rechecked k) = false
          /\ lastChecked (rechecked k) = 0
          /\ rechecked k
             = set_lastChecked 0 (set_isDisabled false (set_isPozzed false k)))
    /\ (forall l, ~ In l (keys pool_ab) -> heap st' !! l = heap pool_ab !! l)
    /\ checker st'
       = fmap (fun calls => calls ++ [ScheduleNextCheck]) (checker pool_ab).
Proof.
  apply (recheck_resets_every_key pool_ab 10000).
  - exact wf_pool_ab.
  - vm_compute. repeat constructor; rewrite ?list_elem_of_In; simpl;
      intuition discriminate.
Defined.

End AnthropicKeyProviderSpec.

Module OpenAIKeyCheckerSpec.
Import OpenAIKeyChecker.

(** ** The key array *)

Lemma in_combine_seq (ks : list OpenAIKey) (s r : nat) (k : OpenAIKey) :
  In (r, k) (combine (seq s (length ks)) ks) <->
  (s <= r)%nat /\ ks !! (r - s)%nat = Some k.
Proof.
  revert s. induction ks as [|k0 ks IH]; intros s; simpl.
  - split; [tauto|]. intros [_ H]. discriminate.
  - rewrite IH. split.
    + intros [[= <- <-]|[Hle Hk]].
      * split; [lia|]. now rewrite Nat.sub_diag.
      * split; [lia|]. replace (r - s)%nat with (S (r - S s)) by lia. exact Hk.
    + intros [Hle Hk]. destruct (r - s)%nat as [|n] eqn:E.
      * left. simpl in Hk. injection Hk as <-. f_equal. lia.
      * right. split; [lia|]. simpl in Hk.
        replace (r - S s)%nat with n by lia. exact Hk.
Qed.

Lemma in_indexed (ks : list OpenAIKey) r k :
  In (r, k) (indexed ks) <-> ks !! r = Some k.
Proof.
  unfold indexed. rewrite in_combine_seq. rewrite Nat.sub_0_r.
  split; [tauto|]. split; [lia|assumption].
Qed.

Lemma in_enabled_refs (c : Checker) r k :
  In (r, k) (enabledKeys c) <-> keys c !! r = Some k /\ isDisabled k = false.
Proof.
  unfold enabledKeys. rewrite filter_In, in_indexed. simpl.
  now rewrite negb_true_iff.
Qed.

(** ** scheduleNextCheck *)

Lemma oldest_of_spec (rest : list (ref * OpenAIKey)) (k0 : ref * OpenAIKey) :
  In (oldest_of k0 rest) (k0 :: rest)
  /\ forall e, In e (k0 :: rest) ->
       lastChecked (snd (oldest_of k0 rest)) <= lastChecked (snd e).
Proof.
  unfold oldest_of. revert k0.
  induction rest as [|e1 rest IH]; intros k0; simpl.
  - split; [auto|]. intros e [<-|[]]. lia.
  - destruct (lastChecked (snd e1) <? lastChecked (snd k0)) eqn:E.
    + apply Z.ltb_lt in E. destruct (IH e1) as [Hin Hle]. split.
      * destruct Hin as [<-|Hin]; auto.
      * intros e [<-|[<-|He]].
        -- specialize (Hle e1 (or_introl eq_refl)). lia.
        -- apply Hle. now left.
        -- apply Hle. now right.
    + apply Z.ltb_ge in E. destruct (IH k0) as [Hin Hle]. split.
      * destruct Hin as [<-|Hin]; auto.
      * intros e [<-|[<-|He]].
        -- apply Hle. now left.
        -- specialize (Hle k0 (or_introl eq_refl)). lia.
        -- apply Hle. now right.
Qed.

Lemma scheduleNextCheck_keys (c : Checker) (now : Z) :
  keys (scheduleNextCheck c now) = keys c
  /\ lastCheck (scheduleNextCheck c now) = lastCheck c.
Proof.
  unfold scheduleNextCheck.
  destruct (List.filter _ (indexed (keys c))) as [|k0 rest]; [auto|].
  destruct (0 <? _)%nat; auto.
Qed.

Lemma filter_nonempty {A : Type} (f : A -> bool) (l : list A) x :
  In x l -> f x = true -> (0 <? length (List.filter f l))%nat = true.
Proof.
  intros Hin Hf. apply Nat.ltb_lt.
  assert (H : In x (List.filter f l)) by (apply filter_In; auto).
  destruct (List.filter f l); [destruct H|simpl; lia].
Qed.

Lemma filter_empty {A : Type} (f : A -> bool) (l : list A) :
  (forall x, In x l -> f x = false) -> List.filter f l = [].
Proof.
  intros H. destruct (List.filter f l) as [|x r] eqn:E; [reflexivity|].
  assert (Hin : In x (List.filter f l)) by (rewrite E; now left).
  apply filter_In in Hin as [Hin Hf]. rewrite (H _ Hin) in Hf. discriminate.
Qed.

Lemma in_firstn {A : Type} (n : nat) (l : list A) x :
  In x (firstn n l) -> In x l.
Proof.
  revert l. induction n as [|n IH]; intros [|a l]; simpl; try tauto.
  intros [->|H]; auto.
Qed.

(** ** Probe failures *)

Lemma updateKey_first (ks : list OpenAIKey) (now : Z) (p : PartialKey) r k :
  ks !! r = Some k ->
  (forall j k', (j < r)%nat -> ks !! j = Some k' -> hash k' <> hash k) ->
  updateKey ks now (mkCall (hash k) p)
  = <[r := assign (assign k (lastChecked_fields now)) p]> ks.
Proof.
  revert r. induction ks as [|k0 ks IH]; intros r Hk Hfirst; [discriminate|].
  simpl. destruct r as [|r]; simpl in *.
  - injection Hk as ->. now rewrite String.eqb_refl.
  - assert (Hne : hash k0 <> hash k) by (apply (Hfirst 0%nat); [lia|reflexivity]).
    apply String.eqb_neq in Hne. rewrite Hne. f_equal.
    apply IH; [exact Hk|]. intros j k' Hj Hk'. apply (Hfirst (S j)); [lia|exact Hk'].
Qed.

(** A touch followed by one more call on the same key. *)
Lemma touch_then_update (ks : list OpenAIKey) (now : Z) (p : PartialKey) r k :
  ks !! r = Some k ->
  (forall j k', (j < r)%nat -> ks !! j = Some k' -> hash k' <> hash k) ->
  apply_calls ks now [mkCall (hash k) no_fields; mkCall (hash k) p]
  = <[r := assign (set_lastChecked now k) p]> ks.
Proof.
  intros Hk Hfirst. unfold apply_calls. simpl.
  rewrite (updateKey_first ks now no_fields r k Hk Hfirst).
  set (k1 := assign (assign k (lastChecked_fields now)) no_fields).
  assert (Hr : (r < length ks)%nat) by (eapply lookup_lt_Some; eauto).
  change (hash k) with (hash k1).
  rewrite (updateKey_first _ now p r k1).
  - rewrite list_insert_insert_eq. reflexivity.
  - now apply list_lookup_insert_eq.
  - intros j k' Hj Hk'. rewrite list_lookup_insert_ne in Hk' by lia.
    now apply (Hfirst j).
Qed.

Lemma touch_only (ks : list OpenAIKey) (now : Z) r k :
  ks !! r = Some k ->
  (forall j k', (j < r)%nat -> ks !! j = Some k' -> hash k' <> hash k) ->
  apply_calls ks now [mkCall (hash k) no_fields]
  = <[r := set_lastChecked now k]> ks.
Proof.
  intros Hk Hfirst. unfold apply_calls. simpl.
  now rewrite (updateKey_first ks now no_fields r k Hk Hfirst).
Qed.

Lemma errorIsOpenAiError_Some (r : AxiosResponse) t :
  error_type r = Some t -> t <> EmptyString -> errorIsOpenAiError r = Some t.
Proof.
  unfold errorIsOpenAiError. intros -> H. destruct t; [contradiction|reflexivity].
Qed.

(** What [handleAxiosError] does with a structured error. *)
Lemma handleAxiosError_structured h e now st t :
  structured e st t ->
  handleAxiosError h e now =
    if st =? 401 then [mkCall h disabled_fields]
    else if (st =? 429) && fatal_429 t then [mkCall h disabled_fields]
    else if (st =? 429) && String.eqb t "requests"
    then [mkCall h (lastChecked_fields (now - (KEY_CHECK_PERIOD - 15000)))]
    else if (st =? 429) && String.eqb t "tokens"
    then [mkCall h (lastChecked_fields now)]
    else [].
Proof.
  intros (r & Hr & <- & Ht & Hne). unfold handleAxiosError.
  rewrite Hr, (errorIsOpenAiError_Some r t Ht Hne).
  unfold fatal_429.
  destruct (status r =? 401); [reflexivity|].
  destruct (status r =? 429); simpl; [|reflexivity].
  destruct (String.eqb t "insufficient_quota"); [reflexivity|].
  destruct (String.eqb t "access_terminated"); [reflexivity|].
  destruct (String.eqb t "billing_not_active"); [reflexivity|]. simpl.
  destruct (String.eqb t "requests"); [reflexivity|]. simpl.
  destruct (String.eqb t "tokens"); reflexivity.
Qed.


Lemma checkKey_resume_keys (c : Checker) r i p now k :
  keys c !! r = Some k ->
  keys (checkKey_resume c r i p now)
  = apply_calls (keys c) now (checkKey_calls (hash k) i p now).
Proof.
  intros Hk. unfold checkKey_resume. rewrite Hk.
  destruct (negb i); [|reflexivity].
  now rewrite (proj1 (scheduleNextCheck_keys _ _)).
Qed.

(** With the clock standing still, the reads of a check agree. *)
Lemma checkKey_resume_frozen (c : Checker) r i p now :
  checkKey_resume c r i p now = checkKey_resume_at c r i p (frozen now).
Proof.
  unfold checkKey_resume, checkKey_resume_at.
  destruct (keys c !! r) as [k|]; [|reflexivity].
  destruct p as [s m|e]; reflexivity.
Qed.


Lemma key_2_first : forall j k',
  (j < 1)%nat -> keys checker_steady !! j = Some k' -> hash k' <> hash key_2.
Proof.
  intros j k' Hj Hk'. destruct j as [|j]; [|lia].
  injection Hk' as <-. discriminate.
Qed.

Lemma structured_error_of (st : Z) (t : string) :
  t <> EmptyString -> structured (error_of st t) st t.
Proof. intros H. exists (mkResponse st (Some t)). auto. Qed.


(** ** The schedule *)

(** The calls [handleAxiosError] can make. *)
Lemma handleAxiosError_shape (h : string) (e : AxiosError) (now : Z) :
  handleAxiosError h e now = []
  \/ handleAxiosError h e now = [mkCall h disabled_fields]
  \/ handleAxiosError h e now
     = [mkCall h (lastChecked_fields (now - (KEY_CHECK_PERIOD - 15000)))]
  \/ handleAxiosError h e now = [mkCall h (lastChecked_fields now)].
Proof.
  unfold handleAxiosError.
  destruct (response e) as [r|]; [|auto].
  destruct (errorIsOpenAiError r) as [t|]; [|auto].
  destruct (status r =? 401); [auto|].
  destruct (status r =? 429); simpl; [|auto].
  destruct (String.eqb t "insufficient_quota"); [auto|].
  destruct (String.eqb t "access_terminated"); [auto|].
  destruct (String.eqb t "billing_not_active"); [auto|].
  destruct (String.eqb t "requests"); simpl; [auto|].
  destruct (String.eqb t "tokens"); simpl; auto.
Qed.

Lemma in_startup_batch (c : Checker) r :
  In r (startup_batch c) ->
  exists k, keys c !! r = Some k /\ isDisabled k = false /\ lastChecked k = 0.
Proof.
  unfold startup_batch. intros H.
  apply in_map_iff in H as ([r1 k1] & <- & H1).
  apply in_firstn in H1. apply filter_In in H1 as [H1 Hu].
  apply in_enabled_refs in H1 as [Hl Hd]. exists k1. simpl.
  unfold unchecked in Hu. simpl in Hu. apply Z.eqb_eq in Hu. auto.
Qed.

Lemma startup_batch_keys (c c' : Checker) :
  keys c' = keys c -> startup_batch c' = startup_batch c.
Proof. unfold startup_batch, enabledKeys. now intros ->. Qed.

(** The three cases of [scheduleNextCheck], each with the timer it sets. *)
Lemma scheduleNextCheck_halts (c : Checker) (now : Z) :
  enabledKeys c = [] -> scheduleNextCheck c now = c.
Proof.
  intros E. unfold scheduleNextCheck. fold (enabledKeys c). now rewrite E.
Qed.

Lemma scheduleNextCheck_startup (c : Checker) (now : Z) r k :
  In (r, k) (enabledKeys c) -> lastChecked k = 0 ->
  scheduleNextCheck c now
  = setTimeout (mkTimer (CheckBatch (startup_batch c)) 250 now) c
  /\ (0 < length (startup_batch c) <= 12)%nat.
Proof.
  intros Hin Hk.
  assert (Hne : (0 <? length (List.filter (fun e => unchecked (snd e))
                                (enabledKeys c)))%nat = true).
  { apply (filter_nonempty _ _ (r, k)); [exact Hin|].
    unfold unchecked. simpl. now apply Z.eqb_eq. }
  split.
  - unfold scheduleNextCheck. fold (enabledKeys c). unfold startup_batch.
    destruct (enabledKeys c) as [|k0 rest] eqn:E; [destruct Hin|].
    rewrite Hne. reflexivity.
  - unfold startup_batch. rewrite length_map, length_firstn.
    apply Nat.ltb_lt in Hne. unfold BATCH_SIZE. lia.
Qed.

Lemma scheduleNextCheck_oldest (c : Checker) (now : Z) :
  enabledKeys c <> [] ->
  (forall r k, In (r, k) (enabledKeys c) -> lastChecked k <> 0) ->
  exists r k,
    In (r, k) (enabledKeys c)
    /\ (forall r' k', In (r', k') (enabledKeys c) ->
          lastChecked k <= lastChecked k')
    /\ scheduleNextCheck c now
       = setTimeout
           (mkTimer (CheckOne r)
              (Z.max (lastChecked k + KEY_CHECK_PERIOD)
                     (lastCheck c + MIN_CHECK_INTERVAL) - now) now) c.
Proof.
  intros Hne Hall. unfold scheduleNextCheck. fold (enabledKeys c).
  destruct (enabledKeys c) as [|k0 rest] eqn:E; [contradiction|].
  rewrite filter_empty.
  2:{ intros [r k] Hin. unfold unchecked. simpl. apply Z.eqb_neq. eauto. }
  simpl.
  destruct (oldest_of_spec rest k0) as [Hin Hle].
  destruct (oldest_of k0 rest) as [r k] eqn:Ho. simpl in *.
  exists r, k. split; [exact Hin|]. split; [|reflexivity].
  intros r' k' H'. apply (Hle (r', k')). exact H'.
Qed.

(** *** The probes of a batch *)

Lemma begin_all_enabled (rs : list ref) (c : Checker) (now : Z) :
  (forall r, In r rs ->
     exists k, keys c !! r = Some k /\ isDisabled k = false
               /\ lastChecked k = 0) ->
  begin_all c rs now = (c, map (fun r => (r, true)) rs).
Proof.
  induction rs as [|r rs IH]; simpl; intros H; [reflexivity|].
  destruct (H r (or_introl eq_refl)) as (k & Hk & Hd & Hz).
  unfold checkKey_begin. rewrite Hk, Hd. unfold unchecked. rewrite Hz. simpl.
  rewrite IH; [reflexivity|]. intros r' Hr'. apply H. now right.
Qed.

Lemma started_as_initial (rs : list ref) (r : ref) (i : bool) :
  started_as (map (fun r => (r, true)) rs) r = Some i -> i = true.
Proof.
  unfold started_as. induction rs as [|a rs IH]; simpl; [discriminate|].
  destruct (Nat.eqb a r); simpl; [congruence|exact IH].
Qed.

Lemma started_as_member (rs : list ref) (r : ref) :
  In r rs -> started_as (map (fun r => (r, true)) rs) r = Some true.
Proof.
  unfold started_as. induction rs as [|a rs IH]; simpl; [tauto|].
  intros [->|Hin].
  - now rewrite Nat.eqb_refl.
  - destruct (Nat.eqb a r); simpl; [reflexivity|now apply IH].
Qed.

Lemma checkKey_resume_initial (c : Checker) r p now :
  timers (checkKey_resume c r true p now) = timers c.
Proof. unfold checkKey_resume. now destruct (keys c !! r). Qed.

Lemma settle_all_timers (rs : list ref) (ss : list Settlement) (c : Checker) :
  timers (fold_left (settle (map (fun r => (r, true)) rs)) ss c) = timers c.
Proof.
  revert c. induction ss as [|s ss IH]; intros c; simpl; [reflexivity|].
  rewrite IH. unfold settle.
  destruct (started_as _ (s_key s)) as [i|] eqn:E; [|reflexivity].
  apply started_as_initial in E as ->. apply checkKey_resume_initial.
Qed.

(** *** Hashes and stamps *)

Lemma updateKey_hashes (ks : list OpenAIKey) (now : Z) (u : UpdateCall) :
  map hash (updateKey ks now u) = map hash ks.
Proof.
  induction ks as [|k ks IH]; simpl; [reflexivity|].
  destruct (String.eqb (hash k) (call_hash u)); simpl; [reflexivity|].
  now rewrite IH.
Qed.

Lemma apply_calls_hashes (us : list UpdateCall) (ks : list OpenAIKey) now :
  map hash (apply_calls ks now us) = map hash ks.
Proof.
  unfold apply_calls. revert ks.
  induction us as [|u us IH]; intros ks; simpl; [reflexivity|].
  now rewrite IH, updateKey_hashes.
Qed.

Lemma checkKey_resume_hashes (c : Checker) r i p now :
  map hash (keys (checkKey_resume c r i p now)) = map hash (keys c).
Proof.
  destruct (keys c !! r) as [k|] eqn:Hk.
  - rewrite (checkKey_resume_keys c r i p now k Hk). apply apply_calls_hashes.
  - unfold checkKey_resume. now rewrite Hk.
Qed.

Lemma settle_hashes (started : list (ref * bool)) (c : Checker)
  (s : Settlement) :
  map hash (keys (settle started c s)) = map hash (keys c).
Proof.
  unfold settle. destruct (started_as started (s_key s)); [|reflexivity].
  apply checkKey_resume_hashes.
Qed.

Lemma NoDup_hash_first (ks : list OpenAIKey) r k :
  NoDup (map hash ks) -> ks !! r = Some k ->
  forall j k', (j < r)%nat -> ks !! j = Some k' -> hash k' <> hash k.
Proof.
  revert r. induction ks as [|k0 ks IH]; intros r Hnd Hk j k' Hj Hk';
    [discriminate|].
  simpl in Hnd. apply NoDup_cons in Hnd as [Hnotin Hnd].
  destruct r as [|r]; [lia|]. simpl in Hk. destruct j as [|j]; simpl in Hk'.
  - injection Hk' as <-. intros E. apply Hnotin. rewrite E.
    apply list_elem_of_In, in_map. apply list_elem_of_In.
    now apply list_elem_of_lookup_2 in Hk.
  - apply (IH r Hnd Hk j k'); [lia|exact Hk'].
Qed.

(** A call that passes no [lastChecked] of 0 leaves a stamped key
    stamped. *)
Lemma updateKey_keeps_stamp (ks : list OpenAIKey) (now : Z) (u : UpdateCall)
  r k :
  now <> 0 ->
  (forall t, p_lastChecked (call_fields u) = Some t -> t <> 0) ->
  ks !! r = Some k -> lastChecked k <> 0 ->
  exists k', updateKey ks now u !! r = Some k' /\ lastChecked k' <> 0.
Proof.
  intros Hn Hu. revert r.
  induction ks as [|k0 ks IH]; intros r Hk Hz; [discriminate|]. simpl.
  destruct (String.eqb (hash k0) (call_hash u)).
  - destruct r as [|r]; simpl in *; [|eauto].
    injection Hk as ->. eexists. split; [reflexivity|]. simpl.
    destruct (p_lastChecked (call_fields u)) as [t|] eqn:E; simpl;
      [now apply Hu|exact Hn].
  - destruct r as [|r]; simpl in *; eauto.
Qed.

Lemma apply_calls_keep_stamp (us : list UpdateCall) (ks : list OpenAIKey)
  (now : Z) r k :
  now <> 0 ->
  Forall (fun u => forall t, p_lastChecked (call_fields u) = Some t -> t <> 0)
         us ->
  ks !! r = Some k -> lastChecked k <> 0 ->
  exists k', apply_calls ks now us !! r = Some k' /\ lastChecked k' <> 0.
Proof.
  intros Hn. unfold apply_calls. revert ks k.
  induction us as [|u us IH]; intros ks k Hus Hk Hz; simpl; [eauto|].
  apply Forall_cons in Hus as [Hu Hus].
  destruct (updateKey_keeps_stamp ks now u r k Hn Hu Hk Hz) as (k1 & Hk1 & Hz1).
  now apply (IH _ k1).
Qed.

Lemma checkKey_calls_stamps (h : string) (i : bool) (p : Probe) (now : Z) :
  KEY_CHECK_PERIOD < now ->
  Forall (fun u => forall t, p_lastChecked (call_fields u) = Some t -> t <> 0)
         (checkKey_calls h i p now).
Proof.
  intros Hnow. unfold KEY_CHECK_PERIOD in Hnow.
  unfold checkKey_calls. destruct p as [s m|e].
  - destruct i; repeat constructor; discriminate.
  - unfold on_probe_error. constructor; [discriminate|].
    destruct (handleAxiosError_shape h e now) as [E|[E|[E|E]]]; rewrite E;
      repeat constructor; simpl; intros t [= <-];
      unfold KEY_CHECK_PERIOD; lia.
Qed.

Lemma checkKey_resume_keeps_stamp (c : Checker) r' i p now r k :
  KEY_CHECK_PERIOD < now ->
  keys c !! r = Some k -> lastChecked k <> 0 ->
  exists k', keys (checkKey_resume c r' i p now) !! r = Some k'
             /\ lastChecked k' <> 0.
Proof.
  intros Hnow Hk Hz. destruct (keys c !! r') as [k0|] eqn:Hk0.
  - rewrite (checkKey_resume_keys c r' i p now k0 Hk0).
    apply (apply_calls_keep_stamp _ _ _ r k); auto.
    + unfold KEY_CHECK_PERIOD in Hnow. lia.
    + now apply checkKey_calls_stamps.
  - unfold checkKey_resume. rewrite Hk0. eauto.
Qed.

(** A probe that settles stamps its key. *)
Lemma checkKey_resume_stamps (c : Checker) r k i p now :
  keys c !! r = Some k ->
  (forall j k', (j < r)%nat -> keys c !! j = Some k' -> hash k' <> hash k) ->
  KEY_CHECK_PERIOD < now ->
  exists k', keys (checkKey_resume c r i p now) !! r = Some k'
             /\ lastChecked k' <> 0.
Proof.
  intros Hk Hfirst Hnow. unfold KEY_CHECK_PERIOD in Hnow.
  assert (Hr : (r < length (keys c))%nat) by (eapply lookup_lt_Some; eauto).
  rewrite (checkKey_resume_keys c r i p now k Hk).
  unfold checkKey_calls. destruct p as [s m|e].
  - destruct i; unfold apply_calls; simpl;
      rewrite (updateKey_first _ now _ r k Hk Hfirst);
      rewrite list_lookup_insert_eq by exact Hr; eexists;
      (split; [reflexivity|]); simpl; lia.
  - unfold on_probe_error.
    destruct (handleAxiosError_shape (hash k) e now) as [E|[E|[E|E]]];
      rewrite E.
    + rewrite (touch_only _ _ r k Hk Hfirst).
      rewrite list_lookup_insert_eq by exact Hr. eexists.
      split; [reflexivity|]. simpl. lia.
    + rewrite (touch_then_update _ _ _ r k Hk Hfirst).
      rewrite list_lookup_insert_eq by exact Hr. eexists.
      split; [reflexivity|]. simpl. lia.
    + rewrite (touch_then_update _ _ _ r k Hk Hfirst).
      rewrite list_lookup_insert_eq by exact Hr. eexists.
      split; [reflexivity|]. simpl. unfold KEY_CHECK_PERIOD. lia.
    + rewrite (touch_then_update _ _ _ r k Hk Hfirst).
      rewrite list_lookup_insert_eq by exact Hr. eexists.
      split; [reflexivity|]. simpl. lia.
Qed.

(** Every key whose probe settles during the batch is stamped when the
    batch is through, in whatever order the probes settle. *)
Lemma settle_all_stamps (rs : list ref) (ss : list Settlement) (c : Checker)
  (r : ref) :
  NoDup (map hash (keys c)) ->
  (forall s, In s ss -> KEY_CHECK_PERIOD < s_at s) ->
  (r < length (keys c))%nat ->
  (exists k, keys c !! r = Some k /\ lastChecked k <> 0)
  \/ (In r rs /\ exists s, In s ss /\ s_key s = r) ->
  exists k', keys (fold_left (settle (map (fun r => (r, true)) rs)) ss c) !! r
             = Some k'
             /\ lastChecked k' <> 0.
Proof.
  revert c. induction ss as [|s ss IH]; intros c Hnd Hat Hr H; simpl.
  - destruct H as [H|(_ & s & [] & _)]. exact H.
  - assert (Hh := settle_hashes (map (fun r => (r, true)) rs) c s).
    assert (Hnd' : NoDup (map hash
                     (keys (settle (map (fun r => (r, true)) rs) c s))))
      by now rewrite Hh.
    assert (Hr' : (r < length
                     (keys (settle (map (fun r => (r, true)) rs) c s)))%nat).
    { rewrite <- (length_map hash), Hh, length_map. exact Hr. }
    assert (Hat' : forall s', In s' ss -> KEY_CHECK_PERIOD < s_at s')
      by (intros s' Hs'; apply Hat; now right).
    apply IH; [exact Hnd'|exact Hat'|exact Hr'|].
    assert (Hkeep : (exists k, keys c !! r = Some k /\ lastChecked k <> 0) ->
              exists k, keys (settle (map (fun r => (r, true)) rs) c s) !! r
                        = Some k /\ lastChecked k <> 0).
    { intros (k & Hk & Hz). unfold settle.
      destruct (started_as _ (s_key s)); [|eauto].
      apply (checkKey_resume_keeps_stamp c _ _ _ _ r k); auto.
      apply Hat. now left. }
    destruct H as [H|(Hin & s0 & [<-|Hs0] & Hkey)].
    + left. now apply Hkeep.
    + left. unfold settle. rewrite Hkey, (started_as_member rs r Hin).
      destruct (lookup_lt_is_Some_2 (keys c) r Hr) as [k Hk].
      apply (checkKey_resume_stamps c r k); [exact Hk| |apply Hat; now left].
      now apply NoDup_hash_first.
    + right. split; [exact Hin|]. eauto.
Qed.

(** C5, amended. [scheduleNextCheck] sets no timer when no key is enabled.
    While some enabled key has never been checked it sets one timer, 250 ms
    ahead, for a batch of at most 12 such keys, whatever the size of the
    pool. When that timer fires on the array as it was, the probes of the
    whole batch are started together, each as a first check; no probe sets
    a timer when it settles; the schedule is computed once more when the
    batch is through, and by then every key of the batch whose probe has
    settled is stamped and out of the backlog. Once every enabled key has
    been checked, the timer is for the enabled key with the smallest
    [lastChecked], due at the later of that [lastChecked] plus
    [KEY_CHECK_PERIOD] and [lastCheck] plus [MIN_CHECK_INTERVAL], where
    [lastCheck] is the clock as read when the last probe completed: that
    timer is due no sooner than either bound. The bounds are on the stamps
    as recorded, and on the one timer set; they are not bounds between any
    two probes. *)
Theorem scheduleNextCheck_spec (c : Checker) (now : Z) :
  (enabledKeys c = [] ->
     scheduleNextCheck c now = c /\ timers (scheduleNextCheck c now) = timers c)
  /\ ((exists r k, In (r, k) (enabledKeys c) /\ lastChecked k = 0) ->
      scheduleNextCheck c now
      = setTimeout (mkTimer (CheckBatch (startup_batch c)) 250 now) c
      /\ (0 < length (startup_batch c) <= 12)%nat
      /\ (forall r, In r (startup_batch c) ->
            exists k, keys c !! r = Some k
                      /\ isDisabled k = false /\ lastChecked k = 0)
      /\ (forall c1 t settlements finished,
            keys c1 = keys c -> NoDup (map hash (keys c)) ->
            (forall s, In s settlements -> KEY_CHECK_PERIOD < s_at s) ->
            snd (begin_all c1 (startup_batch c) t)
            = map (fun r => (r, true)) (startup_batch c)
            /\ (exists c',
                  timers c' = timers c1
                  /\ run_batch c1 (startup_batch c) t settlements finished
                     = scheduleNextCheck c' finished)
            /\ (forall s, In s settlements -> In (s_key s) (startup_batch c) ->
                  (exists k',
                     keys (run_batch c1 (startup_batch c) t settlements
                             finished) !! s_key s = Some k'
                     /\ lastChecked k' <> 0)
                  /\ ~ In (s_key s)
                         (startup_batch
                            (run_batch c1 (startup_batch c) t settlements
                               finished)))))
  /\ (enabledKeys c <> [] ->
      (forall r k, In (r, k) (enabledKeys c) -> lastChecked k <> 0) ->
      exists r k,
        In (r, k) (enabledKeys c)
        /\ (forall r' k', In (r', k') (enabledKeys c) ->
              lastChecked k <= lastChecked k')
        /\ scheduleNextCheck c now
           = setTimeout
               (mkTimer (CheckOne r)
                  (Z.max (lastChecked k + KEY_CHECK_PERIOD)
                         (lastCheck c + MIN_CHECK_INTERVAL) - now) now) c
        /\ due (mkTimer (CheckOne r)
                  (Z.max (lastChecked k + KEY_CHECK_PERIOD)
                         (lastCheck c + MIN_CHECK_INTERVAL) - now) now)
           = Z.max (lastChecked k + 1800000) (lastCheck c + 3000)
        /\ lastChecked k + KEY_CHECK_PERIOD
           <= due (mkTimer (CheckOne r)
                     (Z.max (lastChecked k + KEY_CHECK_PERIOD)
                            (lastCheck c + MIN_CHECK_INTERVAL) - now) now)
        /\ lastCheck c + MIN_CHECK_INTERVAL
           <= due (mkTimer (CheckOne r)
                     (Z.max (lastChecked k + KEY_CHECK_PERIOD)
                            (lastCheck c + MIN_CHECK_INTERVAL) - now) now))
  /\ (forall r i p clk k, keys c !! r = Some k ->
        lastCheck (checkKey_resume_at c r i p clk) = at_lastCheck clk).
Proof.
  split; [|split; [|split]].
  - intros E. now rewrite (scheduleNextCheck_halts c now E).
  - intros (r & k & Hin & Hk).
    destruct (scheduleNextCheck_startup c now r k Hin Hk) as [Hset Hlen].
    split; [exact Hset|]. split; [exact Hlen|].
    split; [intros r0; apply in_startup_batch|].
    intros c1 t ss finished Hkeys Hnd Hat.
    assert (Hb : begin_all c1 (startup_batch c) t
                 = (c1, map (fun r => (r, true)) (startup_batch c))).
    { apply begin_all_enabled. intros r0 H0. rewrite Hkeys.
      now apply in_startup_batch. }
    split; [now rewrite Hb|]. split.
    + exists (batch_settled c1 (startup_batch c) t ss). split; [|reflexivity].
      unfold batch_settled. rewrite Hb. apply settle_all_timers.
    + intros s Hs Hmem.
      assert (Hstamp : exists k',
                keys (run_batch c1 (startup_batch c) t ss finished) !! s_key s
                = Some k' /\ lastChecked k' <> 0).
      { unfold run_batch. rewrite (proj1 (scheduleNextCheck_keys _ _)).
        unfold batch_settled. rewrite Hb.
        apply settle_all_stamps.
        - now rewrite Hkeys.
        - exact Hat.
        - rewrite Hkeys.
          destruct (in_startup_batch c _ Hmem) as (k0 & Hk0 & _).
          eapply lookup_lt_Some; eauto.
        - right. split; [exact Hmem|]. eauto. }
      split; [exact Hstamp|].
      destruct Hstamp as (k' & Hk' & Hz). intros Hin'.
      apply in_startup_batch in Hin' as (k1 & Hk1 & _ & Hz1). congruence.
  - intros Hne Hall.
    destruct (scheduleNextCheck_oldest c now Hne Hall)
      as (r & k & Hin & Hle & Hset).
    exists r, k. split; [exact Hin|]. split; [exact Hle|].
    split; [exact Hset|].
    unfold due, KEY_CHECK_PERIOD, MIN_CHECK_INTERVAL. simpl. lia.
  - intros r i p clk k Hk. unfold checkKey_resume_at. rewrite Hk.
    destruct (negb i); [|reflexivity].
    now rewrite (proj2 (scheduleNextCheck_keys _ _)).
Qed.

Lemma fresh_pool_hashes : NoDup (map hash [key_1; key_7]).
Proof.
  repeat constructor; simpl.
  - intros H. apply list_elem_of_In in H. destruct H as [H|[]]. discriminate H.
  - intros H. apply list_elem_of_In in H. destruct H.
Defined.

Lemma scheduleNextCheck_spec_witness :
  (scheduleNextCheck checker_halted 9000 = checker_halted
   /\ timers (scheduleNextCheck checker_halted 9000) = timers checker_halted)
  /\ (snd (begin_all checker_fresh (startup_batch (new_checker [key_1; key_7]))
             1700000000250)
      = map (fun r => (r, true)) (startup_batch (new_checker [key_1; key_7]))
      /\ (exists c',
            timers c' = timers checker_fresh
            /\ run_batch checker_fresh
                 (startup_batch (new_checker [key_1; key_7])) 1700000000250
                 [mkSettlement 0%nat (Rejected (error_of 429 "requests"))
                    1700000000400] 1700000000450
               = scheduleNextCheck c' 1700000000450)
      /\ (forall s,
            In s [mkSettlement 0%nat (Rejected (error_of 429 "requests"))
                    1700000000400] ->
            In (s_key s) (startup_batch (new_checker [key_1; key_7])) ->
            (exists k',
               keys (run_batch checker_fresh
                       (startup_batch (new_checker [key_1; key_7]))
                       1700000000250
                       [mkSettlement 0%nat (Rejected (error_of 429 "requests"))
                          1700000000400] 1700000000450) !! s_key s = Some k'
               /\ lastChecked k' <> 0)
            /\ ~ In (s_key s)
                   (startup_batch
                      (run_batch checker_fresh
                         (startup_batch (new_checker [key_1; key_7]))
                         1700000000250
                         [mkSettlement 0%nat
                            (Rejected (error_of 429 "requests"))
                            1700000000400] 1700000000450))))
  /\ (exists r k,
        In (r, k) (enabledKeys checker_steady)
        /\ (forall r' k', In (r', k') (enabledKeys checker_steady) ->
              lastChecked k <= lastChecked k')
        /\ scheduleNextCheck checker_steady 9000
           = setTimeout
               (mkTimer (CheckOne r)
                  (Z.max (lastChecked k + KEY_CHECK_PERIOD)
                         (lastCheck checker_steady + MIN_CHECK_INTERVAL) - 9000)
                  9000) checker_steady
        /\ due (mkTimer (CheckOne r)
                  (Z.max (lastChecked k + KEY_CHECK_PERIOD)
                         (lastCheck checker_steady + MIN_CHECK_INTERVAL) - 9000)
                  9000)
           = Z.max (lastChecked k + 1800000) (lastCheck checker_steady + 3000)
        /\ lastChecked k + KEY_CHECK_PERIOD
           <= due (mkTimer (CheckOne r)
                     (Z.max (lastChecked k + KEY_CHECK_PERIOD)
                            (lastCheck checker_steady + MIN_CHECK_INTERVAL) - 9000)
                     9000)
        /\ lastCheck checker_steady + MIN_CHECK_INTERVAL
           <= due (mkTimer (CheckOne r)
                     (Z.max (lastChecked k + KEY_CHECK_PERIOD)
                            (lastCheck checker_steady + MIN_CHECK_INTERVAL) - 9000)
                     9000))
  /\ lastCheck (checkKey_resume_at checker_steady 1%nat false
                  (Rejected network_error)
                  (mkReads 9000 9000 9001 9002 9003)) = 9002.
Proof.
  split; [|split; [|split]].
  - apply (proj1 (scheduleNextCheck_spec checker_halted 9000)). reflexivity.
  - apply (proj1 (proj2 (scheduleNextCheck_spec (new_checker [key_1; key_7])
                           1700000000000))).
    + exists 0%nat, key_1. split; [vm_compute; auto|reflexivity].
    + reflexivity.
    + exact fresh_pool_hashes.
    + intros s [<-|[]]. reflexivity.
  - apply (proj1 (proj2 (proj2 (scheduleNextCheck_spec checker_steady 9000)))).
    + vm_compute. discriminate.
    + intros r k H. vm_compute in H.
      destruct H as [H|[H|[]]]; injection H as _ <-; vm_compute; discriminate.
  - apply (proj2 (proj2 (proj2 (scheduleNextCheck_spec checker_steady 9000)))
             1%nat false (Rejected network_error)
             (mkReads 9000 9000 9001 9002 9003) key_2).
    reflexivity.
Defined.

(** C5, as stated, fails on both of its closing bounds. A fresh pool of two
    keys is started; the startup batch probes both keys at the same
    instant, so two probes are closer together than [MIN_CHECK_INTERVAL].
    The first key runs into the request limit of its minute, its
    [lastChecked] is set back, and its next probe comes 15 seconds after
    the first: the same key is probed twice within [KEY_CHECK_PERIOD].
    Each timer of this run is set after the one before it has fired. *)
Lemma probes_outrun_stated_caps :
  snd (run checker_fresh 0 first_half_minute)
  = [(0%nat, 1700000000250); (1%nat, 1700000000250); (0%nat, 1700000015400)]
  /\ timers (fst (run checker_fresh 0 first_half_minute))
     = [mkTimer (CheckBatch [0%nat; 1%nat]) 250 1700000000000;
        mkTimer (CheckOne 0%nat) 14950 1700000000450;
        mkTimer (CheckOne 1%nat) 1784850 1700000015600]
  /\ ~ spec_global_cap (snd (run checker_fresh 0 first_half_minute))
  /\ ~ spec_per_key_cap (snd (run checker_fresh 0 first_half_minute)).
Proof.
  assert (E : snd (run checker_fresh 0 first_half_minute)
              = [(0%nat, 1700000000250); (1%nat, 1700000000250);
                 (0%nat, 1700000015400)]) by (vm_compute; reflexivity).
  split; [exact E|]. split; [vm_compute; reflexivity|]. rewrite E. split.
  - intros H.
    specialize (H 0%nat 1%nat 0%nat 1700000000250 1%nat 1700000000250).
    unfold MIN_CHECK_INTERVAL in H.
    assert (3 * 1000 <= 1700000000250 - 1700000000250)
      by (apply H; [lia|reflexivity|reflexivity]).
    lia.
  - intros H.
    specialize (H 0%nat 2%nat 0%nat 1700000000250 1700000015400).
    unfold KEY_CHECK_PERIOD in H.
    assert (30 * 60 * 1000 <= 1700000015400 - 1700000000250)
      by (apply H; [lia|reflexivity|reflexivity]).
    lia.
Qed.

End OpenAIKeyCheckerSpec.

Module AnthropicKeyProviderMore.
Import AnthropicKeyProvider AnthropicKeyProviderSpec.

(** ** Writing to one object of the store *)

Lemma deref_all_insert (h : gmap loc AnthropicKey) ls l k' :
  is_Some (h !! l) ->
  deref_all (<[l := k']> h) ls = map (overwrite l k') (deref_all h ls).
Proof.
  intros [k Hk]. induction ls as [|l0 ls IH]; simpl; [reflexivity|].
  destruct (decide (l = l0)) as [<-|Hne].
  - rewrite lookup_insert_eq, Hk. simpl. unfold overwrite at 1. simpl.
    rewrite Pos.eqb_refl. now rewrite IH.
  - rewrite lookup_insert_ne by exact Hne.
    destruct (h !! l0) as [k1|]; [|exact IH]. simpl.
    unfold overwrite at 1. simpl.
    assert (E : Pos.eqb l0 l = false) by (apply Pos.eqb_neq; congruence).
    rewrite E. now rewrite IH.
Qed.

Lemma in_pool_insert (st : State) l k' l0 k0 :
  In (l0, k0) (pool (with_heap (<[l := k']> (heap st)) st)) ->
  (l0 = l /\ k0 = k') \/ (l0 <> l /\ In (l0, k0) (pool st)).
Proof.
  intros H. apply in_pool in H as [Hl Hk]. simpl in *.
  destruct (decide (l = l0)) as [<-|Hne].
  - rewrite lookup_insert_eq in Hk. left. split; congruence.
  - rewrite lookup_insert_ne in Hk by exact Hne. right.
    split; [congruence|]. apply in_pool. auto.
Qed.

Lemma in_pool_insert_other (st : State) l k' l0 k0 :
  l0 <> l -> In (l0, k0) (pool st) ->
  In (l0, k0) (pool (with_heap (<[l := k']> (heap st)) st)).
Proof.
  intros Hne H. apply in_pool in H as [Hl Hk]. apply in_pool. simpl.
  split; [exact Hl|]. now rewrite lookup_insert_ne by congruence.
Qed.

Lemma every_key_insert (P : AnthropicKey -> Prop) (st : State) l k' :
  every_key P st -> P k' ->
  every_key P (with_heap (<[l := k']> (heap st)) st).
Proof.
  intros H Hk' l0 k0 Hin.
  apply in_pool_insert in Hin as [[_ ->]|[_ Hin]]; [exact Hk'|].
  exact (H _ _ Hin).
Qed.

Lemma every_key_insert_twice (P : AnthropicKey -> Prop) (st : State) l c k' :
  every_key P st -> P k' ->
  every_key P (with_heap (<[c := k']> (<[l := k']> (heap st))) st).
Proof.
  intros H Hk' l0 k0 Hin. apply in_pool in Hin as [Hl Hk]. simpl in *.
  destruct (decide (c = l0)) as [<-|Hc].
  { rewrite lookup_insert_eq in Hk. congruence. }
  rewrite lookup_insert_ne in Hk by exact Hc.
  destruct (decide (l = l0)) as [<-|Hne].
  { rewrite lookup_insert_eq in Hk. congruence. }
  rewrite lookup_insert_ne in Hk by exact Hne.
  apply (H l0). apply in_pool. auto.
Qed.

(** A projection of the records that the new record agrees on with the old
    one reads the same down the array. *)
Lemma projection_insert_same {B : Type} (f : AnthropicKey -> B)
  (h : gmap loc AnthropicKey) ls l k k' :
  h !! l = Some k -> f k' = f k ->
  map (fun e => f (snd e)) (deref_all (<[l := k']> h) ls)
  = map (fun e => f (snd e)) (deref_all h ls).
Proof.
  intros Hl Hf. induction ls as [|l0 ls IH]; simpl; [reflexivity|].
  destruct (decide (l = l0)) as [<-|Hne].
  - rewrite lookup_insert_eq, Hl. simpl. now rewrite IH, Hf.
  - rewrite lookup_insert_ne by exact Hne.
    destruct (h !! l0); simpl; now rewrite IH.
Qed.

Lemma wf_length_pool (st : State) : wf st -> length (pool st) = length (keys st).
Proof.
  unfold wf, pool. generalize (heap st) as h. intros h.
  induction (keys st) as [|l ls IH]; intros H; simpl; [reflexivity|].
  apply Forall_cons in H as [[k Hk] H]. rewrite Hk. simpl. now rewrite IH.
Qed.

(** ** disable *)

Lemma find_map_same {A : Type} (p : A -> bool) (f : A -> A) (l : list A) :
  (forall x, In x l -> p (f x) = p x) ->
  List.find p (map f l) = option_map f (List.find p l).
Proof.
  induction l as [|a l IH]; intros H; simpl; [reflexivity|].
  rewrite (H a (or_introl eq_refl)). destruct (p a); [reflexivity|].
  apply IH. intros x Hx. apply H. now right.
Qed.

Lemma find_key_after_write (st : State) h l k k' :
  find_key st h = Some (l, k) -> hash k' = hash k ->
  find_key (with_heap (<[l := k']> (heap st)) st) h = Some (l, k').
Proof.
  intros Hf Hh. destruct (find_key_Some _ _ _ _ Hf) as (Hl & Hk & Hhk).
  unfold find_key, pool in *. simpl.
  rewrite deref_all_insert by eauto.
  rewrite find_map_same.
  - rewrite Hf. simpl. unfold overwrite. simpl. now rewrite Pos.eqb_refl.
  - intros [l0 k0] Hin. unfold overwrite. simpl.
    destruct (Pos.eqb l0 l) eqn:E; [|reflexivity]. simpl.
    apply Pos.eqb_eq in E. subst l0.
    apply in_deref_all in Hin as [_ Hin]. congruence.
Qed.

Lemma enabled_count_after_disable (h : gmap loc AnthropicKey) ls l k k' :
  NoDup ls -> In l ls -> h !! l = Some k ->
  isDisabled k = false -> isDisabled k' = true ->
  S (length (List.filter (fun e => negb (isDisabled (snd e)))
               (deref_all (<[l := k']> h) ls)))
  = length (List.filter (fun e => negb (isDisabled (snd e))) (deref_all h ls)).
Proof.
  intros Hnd Hin Hk Hen Hdis. induction ls as [|l0 ls IH]; [destruct Hin|].
  apply NoDup_cons in Hnd as [Hl0 Hnd]. simpl.
  destruct (decide (l = l0)) as [<-|Hne].
  - rewrite lookup_insert_eq, Hk. simpl. rewrite Hdis, Hen. simpl.
    rewrite deref_all_insert_fresh; [reflexivity|].
    intros H. apply Hl0. now apply list_elem_of_In.
  - rewrite lookup_insert_ne by exact Hne.
    destruct Hin as [->|Hin]; [contradiction|].
    destruct (h !! l0) as [k0|]; simpl; [|now apply IH].
    destruct (isDisabled k0); simpl; [now apply IH|].
    f_equal. now apply IH.
Qed.

(** X1. [disable] of a key of the pool that is enabled sets [isDisabled] on
    that record and writes nothing else; with every object once in the
    array, [available] drops by exactly one; and disabling again changes
    nothing. *)
Theorem disable_retires_one_key (st : State) (k : AnthropicKey) (l : loc)
  (k0 : AnthropicKey) :
  NoDup (keys st) ->
  find_key st (hash k) = Some (l, k0) -> isDisabled k0 = false ->
  exists st',
    disable st k = (st', Normal tt)
    /\ heap st' !! l = Some (set_isDisabled true k0)
    /\ (forall l', l' <> l -> heap st' !! l' = heap st !! l')
    /\ keys st' = keys st /\ checker st' = checker st
    /\ available st' = available st - 1
    /\ disable st' k = (st', Normal tt).
Proof.
  intros Hnd Hf Hen.
  destruct (find_key_Some _ _ _ _ Hf) as (Hl & Hk & Hh).
  unfold disable at 1. rewrite Hf, Hen.
  eexists. split; [reflexivity|]. simpl.
  split; [apply lookup_insert_eq|].
  split; [intros l' Hl'; now apply lookup_insert_ne|].
  split; [reflexivity|]. split; [reflexivity|]. split.
  - unfold available, enabledKeys, pool. simpl.
    rewrite <- (enabled_count_after_disable (heap st) (keys st) l k0
                  (set_isDisabled true k0)); auto. lia.
  - unfold disable.
    rewrite (find_key_after_write st (hash k) l k0 (set_isDisabled true k0) Hf)
      by reflexivity.
    reflexivity.
Qed.

Lemma disable_retires_one_key_witness :
  exists st',
    disable pool_ab key_a = (st', Normal tt)
    /\ heap st' !! 1%positive = Some (set_isDisabled true key_a)
    /\ (forall l', l' <> 1%positive -> heap st' !! l' = heap pool_ab !! l')
    /\ keys st' = keys pool_ab /\ checker st' = checker pool_ab
    /\ available st' = available pool_ab - 1
    /\ disable st' key_a = (st', Normal tt).
Proof.
  apply (disable_retires_one_key pool_ab key_a 1%positive key_a).
  - repeat constructor; rewrite ?list_elem_of_In; simpl; intuition discriminate.
  - vm_compute. reflexivity.
  - reflexivity.
Defined.

(** ** get and available *)

(** X2. [get] returns a key exactly when [available] is positive, and when
    [available] is 0 it throws the no-key-available error and leaves the
    state as it was; it never fails in any other way. *)
Theorem get_succeeds_iff_available (st : State) (now : Z) :
  (0 < available st <-> exists st' c, get st now = (st', Normal c))
  /\ (available st = 0 <-> get st now = (st, Throw (Error no_keys_message)))
  /\ snd (get st now) <> Throw TypeError.
Proof.
  unfold available. destruct (enabledKeys st) as [|e r] eqn:E.
  - rewrite (get_empty _ _ E). simpl. split; [|split].
    + split; [lia|]. intros (st' & c & H). discriminate.
    + tauto.
    + discriminate.
  - destruct (keysByPriority_nonempty st now) as (l & k & rest & Hk).
    { rewrite E. discriminate. }
    rewrite (get_head _ _ _ _ _ Hk). simpl length. split; [|split].
    + split; [eauto|lia].
    + split; [lia|discriminate].
    + discriminate.
Qed.

(** ** update after update *)

Lemma assign_twice (k : AnthropicKey) (p q : PartialKey) (t1 t2 : Z) :
  assign (assign k (stamped t1 p)) (stamped t2 q)
  = assign k (stamped t2 (merge_fields p q)).
Proof.
  destruct p as [a1 a2 a3 a4 a5 a6 a7 a8 a9 a10 a11 a12],
           q as [b1 b2 b3 b4 b5 b6 b7 b8 b9 b10 b11 b12].
  unfold assign, stamped, merge_fields. simpl.
  destruct b1, b2, b3, b4, b5, b6, b7, b8, b9, b10, b11, b12; reflexivity.
Qed.

(** X3. Two [update]s in a row on a key of the pool, the first of which does
    not rename the key, leave the state that one [update] at the later time
    leaves with the fields merged, the later call's winning; a
    [lastChecked] given by the first call only is overwritten by the second
    call's stamp. *)
Theorem update_twice (st : State) (h : string) (p q : PartialKey) (t1 t2 : Z)
  (l : loc) (k : AnthropicKey) :
  find_key st h = Some (l, k) -> p_hash p = None ->
  update (fst (update st h p t1)) h q t2
  = update st h (merge_fields p q) t2
  /\ snd (update st h (merge_fields p q) t2) = Normal tt
  /\ (p_lastChecked q = None ->
      exists k', heap (fst (update (fst (update st h p t1)) h q t2)) !! l = Some k'
                 /\ lastChecked k' = t2).
Proof.
  intros Hf Hp.
  set (k1 := assign k (stamped t1 p)).
  assert (Hh : hash k1 = hash k).
  { unfold k1, assign, stamped. simpl. now rewrite Hp. }
  assert (E1 : update st h p t1
               = (with_heap (<[l := k1]> (heap st)) st, Normal tt)).
  { unfold update. now rewrite Hf. }
  assert (E2 : update (with_heap (<[l := k1]> (heap st)) st) h q t2
               = (with_heap (<[l := assign k (stamped t2 (merge_fields p q))]>
                               (heap st)) st, Normal tt)).
  { unfold update. rewrite (find_key_after_write st h l k k1 Hf Hh).
    unfold with_heap. simpl. rewrite insert_insert_eq.
    unfold k1. now rewrite assign_twice. }
  assert (E3 : update st h (merge_fields p q) t2
               = (with_heap (<[l := assign k (stamped t2 (merge_fields p q))]>
                               (heap st)) st, Normal tt)).
  { unfold update. now rewrite Hf. }
  rewrite E1. simpl fst. rewrite E2, E3.
  split; [reflexivity|]. split; [reflexivity|].
  intros Hq. eexists. split; [apply lookup_insert_eq|].
  unfold assign, stamped, merge_fields. simpl. now rewrite Hq.
Qed.

Lemma update_twice_witness :
  update (fst (update pool_ab "a" (mkPartial None None None None None None
                                     (Some 1) None None None None None) 9000))
         "a" no_fields 9500
  = update pool_ab "a"
      (merge_fields (mkPartial None None None None None None
                       (Some 1) None None None None None) no_fields) 9500
  /\ snd (update pool_ab "a"
            (merge_fields (mkPartial None None None None None None
                             (Some 1) None None None None None) no_fields) 9500)
     = Normal tt
  /\ (p_lastChecked no_fields = None ->
      exists k',
        heap (fst (update (fst (update pool_ab "a"
                                  (mkPartial None None None None None None
                                     (Some 1) None None None None None) 9000))
                     "a" no_fields 9500)) !! 1%positive = Some k'
        /\ lastChecked k' = 9500).
Proof.
  apply (update_twice pool_ab "a" _ no_fields 9000 9500 1%positive key_a).
  - vm_compute. reflexivity.
  - reflexivity.
Defined.

(** ** get after get *)

Lemma precedes_total (now : Z) (a b : AnthropicKey) :
  ~ precedes now a b -> precedes now b a.
Proof.
  intros H. apply compare_keys_le.
  assert (H1 : 0 < compare_keys now a b).
  { destruct (Z.lt_ge_cases 0 (compare_keys now a b)) as [?|N]; [assumption|].
    exfalso. apply H. apply compare_keys_le. lia. }
  apply compare_keys_flip in H1. lia.
Qed.

Lemma head_precedes_all (st : State) (now : Z) l k rest :
  keysByPriority st now = (l, k) :: rest ->
  In (l, k) (enabledKeys st)
  /\ forall l0 k0, In (l0, k0) (enabledKeys st) -> precedes now k k0.
Proof.
  intros H. apply keysByPriority_head in H as (b & a & E & Hb & Ha).
  rewrite E. split; [apply in_or_app; right; now left|].
  intros l0 k0 Hin. apply in_app_or in Hin as [Hin|[Hin|Hin]].
  - rewrite Forall_forall in Hb. apply precedes_total.
    apply (Hb (l0, k0)). now apply list_elem_of_In.
  - injection Hin as <- <-. apply compare_keys_le.
    unfold compare_keys.
    destruct (now - rateLimitedAt k <? RATE_LIMIT_LOCKOUT); simpl; [lia|].
    destruct (isPozzed k); simpl; lia.
  - rewrite Forall_forall in Ha. apply (Ha (l0, k0)). now apply list_elem_of_In.
Qed.

(** X4. After [get] has handed out a key at time [now], a second [get]
    within [RATE_LIMIT_LOCKOUT] of it hands out a different key, as soon as
    the pool has another enabled key whose last lockout was opened before
    [now]. *)
Theorem get_moves_on (st : State) (now now' : Z) (l : loc) (k : AnthropicKey)
  (rest : list (loc * AnthropicKey)) (l2 : loc) (k2 : AnthropicKey) :
  keysByPriority st now = (l, k) :: rest ->
  In (l2, k2) (enabledKeys st) -> l2 <> l -> rateLimitedAt k2 < now ->
  now <= now' < now + RATE_LIMIT_LOCKOUT ->
  exists l' k' rest' st2 c2,
    keysByPriority (fst (get st now)) now' = (l', k') :: rest'
    /\ l' <> l
    /\ get (fst (get st now)) now' = (st2, Normal c2).
Proof.
  intros Hk Hin2 Hne Hat Hnow.
  rewrite (get_head _ _ _ _ _ Hk). simpl fst.
  set (sel := mark_selected now k).
  destruct (copy_is_fresh (heap st) l sel) as [Hc Hnone].
  set (c := fresh (dom (<[l := sel]> (heap st)))) in *.
  set (st1 := with_heap (<[c := sel]> (<[l := sel]> (heap st))) st).
  apply in_enabledKeys in Hin2 as [Hp2 Hen2].
  apply in_pool in Hp2 as [Hl2 Hh2].
  assert (Hc2 : l2 <> c) by (intros ->; congruence).
  assert (Hin1 : In (l2, k2) (enabledKeys st1)).
  { apply in_enabledKeys. split; [|exact Hen2]. apply in_pool.
    split; [exact Hl2|]. simpl.
    rewrite lookup_insert_ne by congruence.
    now rewrite lookup_insert_ne by congruence. }
  destruct (keysByPriority_nonempty st1 now') as (l' & k' & rest' & Hk').
  { intros E. rewrite E in Hin1. destruct Hin1. }
  destruct (head_precedes_all _ _ _ _ _ Hk') as [Hin' Hall].
  exists l', k', rest'. eexists _, _. split; [exact Hk'|].
  split; [|apply (get_head _ _ _ _ _ Hk')].
  intros ->. apply in_enabledKeys in Hin' as [Hp' _].
  apply in_pool in Hp' as [_ Hh']. simpl in Hh'.
  rewrite lookup_insert_ne in Hh' by congruence.
  rewrite lookup_insert_eq in Hh'. injection Hh' as <-.
  specialize (Hall _ _ Hin1). unfold precedes, recently_limited in Hall.
  simpl in Hall.
  assert (E : (now' - now <? RATE_LIMIT_LOCKOUT) = true) by (apply Z.ltb_lt; lia).
  rewrite E in Hall.
  destruct (now' - rateLimitedAt k2 <? RATE_LIMIT_LOCKOUT); [lia|exact Hall].
Qed.

Lemma get_moves_on_witness :
  exists l' k' rest' st2 c2,
    keysByPriority (fst (get pool_ab 10000)) 10001 = (l', k') :: rest'
    /\ l' <> 2%positive
    /\ get (fst (get pool_ab 10000)) 10001 = (st2, Normal c2).
Proof.
  apply (get_moves_on pool_ab 10000 10001 2%positive key_b
           [(1%positive, key_a)] 1%positive key_a).
  - vm_compute. reflexivity.
  - vm_compute. auto.
  - discriminate.
  - vm_compute. reflexivity.
  - vm_compute. split; [discriminate|reflexivity].
Defined.

(** ** The lockout period of a pool with one enabled key *)

Lemma filter_overwrite (l : loc) (k k' : AnthropicKey)
  (ls : list (loc * AnthropicKey)) :
  (forall e, In e ls -> fst e = l -> snd e = k) ->
  isDisabled k' = isDisabled k ->
  List.filter (fun e => negb (isDisabled (snd e))) (map (overwrite l k') ls)
  = map (overwrite l k')
        (List.filter (fun e => negb (isDisabled (snd e))) ls).
Proof.
  intros Hl Hd. induction ls as [|[l0 k0] ls IH]; simpl; [reflexivity|].
  assert (E : isDisabled (snd (overwrite l k' (l0, k0))) = isDisabled k0).
  { unfold overwrite. simpl. destruct (Pos.eqb l0 l) eqn:El; [|reflexivity].
    simpl. apply Pos.eqb_eq in El.
    rewrite Hd. f_equal. symmetry. apply (Hl (l0, k0)); [now left|exact El]. }
  rewrite E, IH by (intros e He; apply Hl; now right).
  destruct (isDisabled k0); reflexivity.
Qed.

Lemma enabledKeys_after_write (st : State) l k k' :
  heap st !! l = Some k -> isDisabled k' = isDisabled k ->
  enabledKeys (with_heap (<[l := k']> (heap st)) st)
  = map (overwrite l k') (enabledKeys st).
Proof.
  intros Hk Hd. unfold enabledKeys, pool. simpl.
  rewrite deref_all_insert by eauto.
  apply (filter_overwrite l k k'); [|exact Hd].
  intros [l0 k0] Hin E. simpl in *. subst l0.
  apply in_deref_all in Hin as [_ Hin]. congruence.
Qed.

Lemma pool_after_copy (st : State) c v :
  wf st -> heap st !! c = None ->
  pool (with_heap (<[c := v]> (heap st)) st) = pool st.
Proof.
  intros Hwf Hc. unfold pool. simpl. apply deref_all_insert_fresh.
  intros Hin. destruct (wf_lookup _ _ Hwf Hin) as [x Hx]. congruence.
Qed.

Lemma lockout_of_single (st : State) (now' : Z) l k :
  enabledKeys st = [(l, k)] ->
  getLockoutPeriod st now' = Z.max 0 (rateLimitedUntil k - now').
Proof.
  intros E. unfold getLockoutPeriod. rewrite E. simpl.
  destruct (now' <? rateLimitedUntil k) eqn:F; simpl.
  - apply Z.ltb_lt in F. unfold Math_min. simpl. lia.
  - apply Z.ltb_ge in F. lia.
Qed.

(** X5. In a pool with a single enabled key, once [get] has handed that key
    out at time [now], [getLockoutPeriod] at time [now'] is what is left of
    [KEY_REUSE_DELAY], and 0 once the delay is over; after
    [markRateLimited] on that key it is what is left of
    [RATE_LIMIT_LOCKOUT]. *)
Theorem single_key_lockout (st : State) (now now' : Z) (l : loc)
  (k : AnthropicKey) :
  wf st -> enabledKeys st = [(l, k)] -> find_key st (hash k) = Some (l, k) ->
  getLockoutPeriod (fst (get st now)) now'
  = Z.max 0 (now + KEY_REUSE_DELAY - now')
  /\ getLockoutPeriod (fst (markRateLimited st (hash k) now)) now'
     = Z.max 0 (now + RATE_LIMIT_LOCKOUT - now').
Proof.
  intros Hwf E Hf.
  destruct (find_key_Some _ _ _ _ Hf) as (Hl & Hk & _). split.
  - assert (Hs : keysByPriority st now = [(l, k)]).
    { unfold keysByPriority. rewrite E. reflexivity. }
    rewrite (get_head _ _ _ _ _ Hs). simpl fst.
    set (sel := mark_selected now k).
    destruct (copy_is_fresh (heap st) l sel) as [Hc Hnone].
    set (c := fresh (dom (<[l := sel]> (heap st)))) in *.
    rewrite (lockout_of_single _ now' l sel).
    + simpl. reflexivity.
    + unfold enabledKeys.
      change (with_heap (<[c := sel]> (<[l := sel]> (heap st))) st)
        with (with_heap (<[c := sel]> (heap (with_heap (<[l := sel]> (heap st)) st)))
                (with_heap (<[l := sel]> (heap st)) st)).
      rewrite pool_after_copy.
      * fold (enabledKeys (with_heap (<[l := sel]> (heap st)) st)).
        rewrite (enabledKeys_after_write st l k sel Hk) by reflexivity.
        rewrite E. simpl. unfold overwrite. simpl. now rewrite Pos.eqb_refl.
      * now apply wf_insert.
      * simpl. now rewrite lookup_insert_ne by congruence.
  - unfold markRateLimited. rewrite Hf. simpl fst.
    set (k' := set_rateLimitedUntil (now + RATE_LIMIT_LOCKOUT)
                 (set_rateLimitedAt now k)).
    rewrite (lockout_of_single _ now' l k').
    + simpl. reflexivity.
    + rewrite (enabledKeys_after_write st l k k' Hk) by reflexivity.
      rewrite E. simpl. unfold overwrite. simpl. now rewrite Pos.eqb_refl.
Qed.

Lemma wf_pool_single : wf pool_single.
Proof. unfold wf. repeat constructor; vm_compute; eauto. Qed.

Lemma single_key_lockout_witness :
  getLockoutPeriod (fst (get pool_single 10000)) 10100
  = Z.max 0 (10000 + KEY_REUSE_DELAY - 10100)
  /\ getLockoutPeriod (fst (markRateLimited pool_single (hash key_a) 10000)) 10100
     = Z.max 0 (10000 + RATE_LIMIT_LOCKOUT - 10100).
Proof.
  apply (single_key_lockout pool_single 10000 10100 1%positive key_a).
  - exact wf_pool_single.
  - vm_compute. reflexivity.
  - vm_compute. reflexivity.
Defined.

(** ** Invariants of the pool *)

Section RecordInvariant.
(** A property of records that every write of the provider keeps, and the
    fields an [update] may carry without breaking it. *)
Variable P : AnthropicKey -> Prop.
Variable allowed : PartialKey -> Prop.
Hypothesis keeps_selected : forall now k, P k -> P (mark_selected now k).
Hypothesis keeps_disabled : forall k, P k -> P (set_isDisabled true k).
Hypothesis keeps_usage :
  forall a b k, P k -> P (set_claudeTokens a (set_promptCount b k)).
Hypothesis keeps_marked :
  forall now k, P k ->
    P (set_rateLimitedUntil (now + RATE_LIMIT_LOCKOUT) (set_rateLimitedAt now k)).
Hypothesis keeps_assigned :
  forall now p k, allowed p -> P k -> P (assign k (stamped now p)).
Hypothesis allowed_recheck : allowed recheck_fields.

Lemma update_keeps_every_key (st : State) h p now :
  allowed p -> every_key P st -> every_key P (fst (update st h p now)).
Proof.
  intros Hp H. unfold update.
  destruct (find_key st h) as [[l k]|] eqn:Hf; [|exact H]. simpl.
  apply every_key_insert; [exact H|].
  apply keeps_assigned; [exact Hp|].
  destruct (find_key_Some _ _ _ _ Hf) as (Hl & Hk & _).
  apply (H l). apply in_pool. auto.
Qed.

Lemma recheck_forEach_keeps_every_key (ls : list loc) (st : State) now :
  every_key P st -> every_key P (fst (recheck_forEach ls st now)).
Proof.
  revert st. induction ls as [|l ls IH]; intros st H; simpl; [exact H|].
  destruct (heap st !! l) as [k|]; [|exact H].
  pose proof (update_keeps_every_key st (hash k) recheck_fields now
                allowed_recheck H) as H1.
  destruct (update st (hash k) recheck_fields now) as [st1 [u|e]]; simpl in *.
  - now apply IH.
  - exact H1.
Qed.

Lemma perform_keeps_every_key (st : State) (c : Call) :
  match c with CallUpdate _ p _ => allowed p | _ => True end ->
  every_key P st -> every_key P (perform st c).
Proof.
  intros Hc H. destruct c as [now|k|h p now|h m t|now|h now|now]; simpl.
  - destruct (enabledKeys st) as [|e r] eqn:E.
    + now rewrite (get_empty _ _ E).
    + destruct (keysByPriority_nonempty st now) as (l & k & rest & Hk).
      { rewrite E. discriminate. }
      rewrite (get_head _ _ _ _ _ Hk). cbn [fst].
      destruct (keysByPriority_head_in_pool _ _ _ _ _ Hk) as (Hl & Hh & _).
      apply every_key_insert_twice; [exact H|].
      apply keeps_selected. apply (H l). apply in_pool. auto.
  - unfold disable. destruct (find_key st (hash k)) as [[l k0]|] eqn:Hf; [|exact H].
    destruct (isDisabled k0); [exact H|]. simpl.
    apply every_key_insert; [exact H|]. apply keeps_disabled.
    destruct (find_key_Some _ _ _ _ Hf) as (Hl & Hk & _).
    apply (H l). apply in_pool. auto.
  - now apply update_keeps_every_key.
  - unfold incrementUsage.
    destruct (find_key st h) as [[l k]|] eqn:Hf; [|exact H]. simpl.
    apply every_key_insert; [exact H|].
    apply (keeps_usage _ _ k).
    destruct (find_key_Some _ _ _ _ Hf) as (Hl & Hk & _).
    apply (H l). apply in_pool. auto.
  - exact H.
  - unfold markRateLimited.
    destruct (find_key st h) as [[l k]|] eqn:Hf; [|exact H]. simpl.
    apply every_key_insert; [exact H|]. apply keeps_marked.
    destruct (find_key_Some _ _ _ _ Hf) as (Hl & Hk & _).
    apply (H l). apply in_pool. auto.
  - unfold recheck.
    pose proof (recheck_forEach_keeps_every_key (keys st) st now H) as H1.
    destruct (recheck_forEach (keys st) st now) as [st1 [u|e]]; simpl in *;
      exact H1.
Qed.
End RecordInvariant.

(** X6. Whatever is called on the provider, at whatever times, every key of
    the pool keeps [rateLimitedAt <= rateLimitedUntil], provided no [update]
    is handed the two fields of the window themselves. *)
Theorem lockout_window_well_formed (st : State) (cs : list Call) :
  Forall leaves_windows_alone cs ->
  every_key window_ok st -> every_key window_ok (perform_all st cs).
Proof.
  unfold perform_all. revert st.
  induction cs as [|c cs IH]; intros st Hcs H; simpl; [exact H|].
  apply Forall_cons in Hcs as [Hc Hcs]. apply IH; [exact Hcs|].
  apply (perform_keeps_every_key window_ok
           (fun p => p_rateLimitedAt p = None /\ p_rateLimitedUntil p = None));
    try exact H.
  - intros now k Hk. unfold window_ok, mark_selected, KEY_REUSE_DELAY in *.
    simpl. lia.
  - intros k Hk. exact Hk.
  - intros a b k Hk. exact Hk.
  - intros now k Hk. unfold window_ok, RATE_LIMIT_LOCKOUT in *. simpl. lia.
  - intros now p k [Ha Hu] Hk. unfold window_ok, assign, stamped in *. simpl.
    now rewrite Ha, Hu.
  - split; reflexivity.
  - destruct c; try exact I. exact Hc.
Qed.

Lemma lockout_window_well_formed_witness :
  every_key window_ok
    (perform_all pool_ab
       [CallGet 10000; CallMarkRateLimited "a" 10001; CallRecheck 10002;
        CallUpdate "b" no_fields 10003; CallDisable key_a]).
Proof.
  apply (lockout_window_well_formed pool_ab).
  - repeat constructor.
  - intros l k H. vm_compute in H.
    destruct H as [H|[H|[H|[]]]]; injection H as _ <-; vm_compute; discriminate.
Defined.

(** ** What identifies the keys is kept *)

Lemma write_keeps_identity (st : State) l k k' :
  wf st -> heap st !! l = Some k -> hash k' = hash k -> key k' = key k ->
  wf (with_heap (<[l := k']> (heap st)) st)
  /\ identity (with_heap (<[l := k']> (heap st)) st) = identity st.
Proof.
  intros Hwf Hk Hh Hs. split; [now apply wf_insert|].
  unfold identity, hashes, secrets, pool. simpl.
  rewrite (projection_insert_same hash _ _ _ k) by auto.
  rewrite (projection_insert_same key _ _ _ k) by auto.
  reflexivity.
Qed.

Lemma copy_keeps_identity (st : State) c v :
  wf st -> heap st !! c = None ->
  wf (with_heap (<[c := v]> (heap st)) st)
  /\ identity (with_heap (<[c := v]> (heap st)) st) = identity st.
Proof.
  intros Hwf Hc. split; [now apply wf_insert|].
  unfold identity, hashes, secrets. now rewrite pool_after_copy.
Qed.

Lemma update_keeps_identity (st : State) h p now :
  wf st -> p_hash p = None -> p_key p = None ->
  wf (fst (update st h p now))
  /\ identity (fst (update st h p now)) = identity st.
Proof.
  intros Hwf Hh Hs. unfold update.
  destruct (find_key st h) as [[l k]|] eqn:Hf; [|auto]. simpl.
  destruct (find_key_Some _ _ _ _ Hf) as (_ & Hk & _).
  apply (write_keeps_identity st l k); auto.
  - unfold assign, stamped. simpl. now rewrite Hh.
  - unfold assign, stamped. simpl. now rewrite Hs.
Qed.

Lemma recheck_forEach_keeps_identity (ls : list loc) (st : State) now :
  wf st ->
  wf (fst (recheck_forEach ls st now))
  /\ identity (fst (recheck_forEach ls st now)) = identity st.
Proof.
  revert st. induction ls as [|l ls IH]; intros st Hwf; simpl; [auto|].
  destruct (heap st !! l) as [k|]; [|auto].
  destruct (update_keeps_identity st (hash k) recheck_fields now Hwf
              eq_refl eq_refl) as [Hwf1 Hid1].
  destruct (update st (hash k) recheck_fields now) as [st1 [u|e]]; simpl in *.
  - destruct (IH st1 Hwf1) as [Hwf2 Hid2]. split; [exact Hwf2|congruence].
  - auto.
Qed.

Lemma perform_keeps_identity (st : State) (c : Call) :
  wf st -> leaves_identity_alone c ->
  wf (perform st c) /\ identity (perform st c) = identity st.
Proof.
  intros Hwf Hc. destruct c as [now|k|h p now|h m t|now|h now|now]; simpl.
  - destruct (enabledKeys st) as [|e r] eqn:E.
    + rewrite (get_empty _ _ E). auto.
    + destruct (keysByPriority_nonempty st now) as (l & k & rest & Hk).
      { rewrite E. discriminate. }
      rewrite (get_head _ _ _ _ _ Hk). cbn [fst].
      destruct (keysByPriority_head_in_pool _ _ _ _ _ Hk) as (_ & Hh & _).
      set (sel := mark_selected now k).
      destruct (copy_is_fresh (heap st) l sel) as [Hne Hnone].
      set (c := fresh (dom (<[l := sel]> (heap st)))) in *.
      destruct (write_keeps_identity st l k sel Hwf Hh eq_refl eq_refl)
        as [Hwf1 Hid1].
      destruct (copy_keeps_identity
                  (with_heap (<[l := sel]> (heap st)) st) c sel Hwf1)
        as [Hwf2 Hid2].
      { simpl. now rewrite lookup_insert_ne by congruence. }
      split; [exact Hwf2|]. rewrite <- Hid1. exact Hid2.
  - unfold disable. destruct (find_key st (hash k)) as [[l k0]|] eqn:Hf; [|auto].
    destruct (isDisabled k0); [auto|]. simpl.
    destruct (find_key_Some _ _ _ _ Hf) as (_ & Hk & _).
    now apply (write_keeps_identity st l k0).
  - destruct Hc as [Hh Hs]. now apply update_keeps_identity.
  - unfold incrementUsage.
    destruct (find_key st h) as [[l k]|] eqn:Hf; [|auto]. simpl.
    destruct (find_key_Some _ _ _ _ Hf) as (_ & Hk & _).
    now apply (write_keeps_identity st l k).
  - auto.
  - unfold markRateLimited.
    destruct (find_key st h) as [[l k]|] eqn:Hf; [|auto]. simpl.
    destruct (find_key_Some _ _ _ _ Hf) as (_ & Hk & _).
    now apply (write_keeps_identity st l k).
  - unfold recheck.
    destruct (recheck_forEach_keeps_identity (keys st) st now Hwf) as [H1 H2].
    destruct (recheck_forEach (keys st) st now) as [st1 [u|e]]; simpl in *; auto.
Qed.

(** X7. No sequence of calls on the provider adds, removes or reorders keys,
    nor changes the hash or the secret of a key, as long as no [update] is
    handed a [hash] or a [key] field; and no reference of the array is left
    dangling. *)
Theorem keys_keep_their_identity (st : State) (cs : list Call) :
  wf st -> Forall leaves_identity_alone cs ->
  wf (perform_all st cs)
  /\ keys (perform_all st cs) = keys st
  /\ hashes (perform_all st cs) = hashes st
  /\ secrets (perform_all st cs) = secrets st.
Proof.
  intros Hwf Hcs.
  assert (H : wf (perform_all st cs)
              /\ identity (perform_all st cs) = identity st).
  { unfold perform_all. revert st Hwf.
    induction cs as [|c cs IH]; intros st Hwf; simpl; [auto|].
    apply Forall_cons in Hcs as [Hc Hcs].
    destruct (perform_keeps_identity st c Hwf Hc) as [Hwf1 Hid1].
    destruct (IH Hcs _ Hwf1) as [Hwf2 Hid2]. split; [exact Hwf2|congruence]. }
  destruct H as [H1 H2]. unfold identity in H2. injection H2 as -> -> ->.
  auto.
Qed.

Lemma keys_keep_their_identity_witness :
  wf (perform_all pool_ab
        [CallGet 10000; CallMarkRateLimited "a" 10001; CallRecheck 10002;
         CallIncrementUsage "b" "claude-2" 12; CallDisable key_a])
  /\ keys (perform_all pool_ab
             [CallGet 10000; CallMarkRateLimited "a" 10001; CallRecheck 10002;
              CallIncrementUsage "b" "claude-2" 12; CallDisable key_a])
     = keys pool_ab
  /\ hashes (perform_all pool_ab
               [CallGet 10000; CallMarkRateLimited "a" 10001; CallRecheck 10002;
                CallIncrementUsage "b" "claude-2" 12; CallDisable key_a])
     = hashes pool_ab
  /\ secrets (perform_all pool_ab
                [CallGet 10000; CallMarkRateLimited "a" 10001; CallRecheck 10002;
                 CallIncrementUsage "b" "claude-2" 12; CallDisable key_a])
     = secrets pool_ab.
Proof.
  apply (keys_keep_their_identity pool_ab).
  - exact wf_pool_ab.
  - repeat constructor.
Defined.

(** ** recheck and available *)

Lemma filter_keeps_everything {A : Type} (f : A -> bool) (l : list A) :
  (forall x, In x l -> f x = true) -> List.filter f l = l.
Proof.
  induction l as [|a l IH]; intros H; simpl; [reflexivity|].
  rewrite (H a (or_introl eq_refl)). f_equal. apply IH.
  intros x Hx. apply H. now right.
Qed.

(** X8. On a pool whose hashes are unique, after [recheck] every key of the
    pool is available again: [available] is the size of the pool, and [get]
    returns a key if the pool is not empty. *)
Theorem recheck_makes_all_available (st : State) (now now' : Z) :
  wf st -> NoDup (hashes st) ->
  available (fst (recheck st now)) = Z.of_nat (length (keys st))
  /\ (keys st <> [] ->
      exists st' c, get (fst (recheck st now)) now' = (st', Normal c)).
Proof.
  intros Hwf Hnd.
  destruct (recheck_forEach_spec (keys st) now st Hwf Hnd)
    as (st1 & Hrun & Hkeys & Hchk & Hin & Hout); [auto|].
  unfold recheck. rewrite Hrun. cbn [fst].
  assert (Hwf1 : wf st1).
  { unfold wf. rewrite Hkeys. unfold wf in Hwf.
    rewrite Forall_forall in *. intros l Hl.
    destruct (Hwf l Hl) as [k Hk].
    rewrite (Hin l k) by (try apply list_elem_of_In; auto). eauto. }
  assert (Hen : enabledKeys (call_checker ScheduleNextCheck st1) = pool st1).
  { unfold enabledKeys. change (pool (call_checker ScheduleNextCheck st1))
      with (pool st1).
    apply filter_keeps_everything. intros [l k1] Hp. simpl.
    apply in_pool in Hp as [Hl Hk1]. rewrite Hkeys in Hl.
    destruct (wf_lookup _ _ Hwf Hl) as [k Hk].
    rewrite (Hin l k Hl Hk) in Hk1. injection Hk1 as <-. reflexivity. }
  split.
  - unfold available. rewrite Hen, (wf_length_pool _ Hwf1), Hkeys. reflexivity.
  - intros Hne.
    destruct (keysByPriority_nonempty (call_checker ScheduleNextCheck st1) now')
      as (l & k & rest & Hk).
    { rewrite Hen. intros E.
      pose proof (wf_length_pool _ Hwf1) as Hlen. rewrite E, Hkeys in Hlen.
      destruct (keys st); [contradiction|discriminate]. }
    rewrite (get_head _ _ _ _ _ Hk). eauto.
Qed.

Lemma recheck_makes_all_available_witness :
  available (fst (recheck pool_ab 10000)) = Z.of_nat (length (keys pool_ab))
  /\ (keys pool_ab <> [] ->
      exists st' c, get (fst (recheck pool_ab 10000)) 10001 = (st', Normal c)).
Proof.
  apply (recheck_makes_all_available pool_ab 10000 10001).
  - exact wf_pool_ab.
  - vm_compute. repeat constructor; rewrite ?list_elem_of_In; simpl;
      intuition discriminate.
Defined.

(** ** list *)

(** X9. [list] has one entry per key of the pool, in array order, disabled
    keys included; each entry carries the hash of its key and no secret; and
    the entries that are not disabled are as many as [available] says. *)
Theorem list_keys_shows_pool_without_secrets (st : State) :
  wf st ->
  length (list_keys st) = length (keys st)
  /\ map listed_hash (list_keys st) = hashes st
  /\ Forall (fun x => listed_key x = None) (list_keys st)
  /\ available st
     = Z.of_nat (length (List.filter (fun x => negb (listed_isDisabled x))
                           (list_keys st))).
Proof.
  intros Hwf. unfold list_keys, hashes, available, enabledKeys.
  split; [now rewrite length_map, wf_length_pool|].
  split; [now rewrite map_map|]. split.
  - apply Forall_forall. intros x Hx. apply list_elem_of_In in Hx.
    apply in_map_iff in Hx as (e & <- & _). reflexivity.
  - f_equal. induction (pool st) as [|e r IH]; simpl; [reflexivity|].
    destruct (isDisabled (snd e)); simpl; now rewrite IH.
Qed.

Lemma list_keys_shows_pool_without_secrets_witness :
  length (list_keys pool_ab) = length (keys pool_ab)
  /\ map listed_hash (list_keys pool_ab) = hashes pool_ab
  /\ Forall (fun x => listed_key x = None) (list_keys pool_ab)
  /\ available pool_ab
     = Z.of_nat (length (List.filter (fun x => negb (listed_isDisabled x))
                           (list_keys pool_ab))).
Proof. apply (list_keys_shows_pool_without_secrets pool_ab), wf_pool_ab. Defined.

(** ** init with keys *)

Lemma deref_all_app (h : gmap loc AnthropicKey) (l1 l2 : list loc) :
  deref_all h (l1 ++ l2) = deref_all h l1 ++ deref_all h l2.
Proof.
  induction l1 as [|l l1 IH]; simpl; [reflexivity|].
  destruct (h !! l); simpl; now rewrite IH.
Qed.

(** X10. When the store loads at least one key, [init] appends the loaded
    keys to the array in load order, constructs and starts a checker exactly
    when [config.checkKeys] is set, and [available] grows by the number of
    loaded keys that are enabled. *)
Theorem init_loads_keys (st : State) (loaded : list loc) (checkKeys : bool) :
  loaded <> [] ->
  keys (init st loaded checkKeys) = keys st ++ loaded
  /\ heap (init st loaded checkKeys) = heap st
  /\ checker (init st loaded checkKeys)
     = (if checkKeys then Some [Start] else checker st)
  /\ available (init st loaded checkKeys)
     = available st + enabled_among (heap st) loaded.
Proof.
  intros Hne. unfold init. destruct loaded as [|l ls]; [contradiction|].
  cbn [length Nat.eqb].
  assert (Ha : forall c, available (mkState (heap st) (keys st ++ l :: ls) c)
                         = available st + enabled_among (heap st) (l :: ls)).
  { intros c. unfold available, enabled_among, enabledKeys, pool. cbn [heap keys].
    rewrite deref_all_app, List.filter_app, length_app. lia. }
  destruct checkKeys; cbn [keys heap checker]; rewrite Ha; auto.
Qed.

Lemma init_loads_keys_witness :
  keys (init (new_provider store_ab) [1%positive; 3%positive] true)
  = keys (new_provider store_ab) ++ [1%positive; 3%positive]
  /\ heap (init (new_provider store_ab) [1%positive; 3%positive] true)
     = heap (new_provider store_ab)
  /\ checker (init (new_provider store_ab) [1%positive; 3%positive] true)
     = (if true then Some [Start] else checker (new_provider store_ab))
  /\ available (init (new_provider store_ab) [1%positive; 3%positive] true)
     = available (new_provider store_ab)
       + enabled_among (heap (new_provider store_ab)) [1%positive; 3%positive].
Proof.
  apply (init_loads_keys (new_provider store_ab) [1%positive; 3%positive] true).
  discriminate.
Defined.

End AnthropicKeyProviderMore.

Module OpenAIKeyCheckerMore.
Import OpenAIKeyChecker OpenAIKeyCheckerSpec.

(** ** What the checker may change of a key *)

Lemma checked_from_refl (k : OpenAIKey) : checked_from k k.
Proof. unfold checked_from. auto. Qed.

Lemma checked_from_trans (a b c : OpenAIKey) :
  checked_from a b -> checked_from b c -> checked_from a c.
Proof.
  unfold checked_from. intros (H1 & H2 & H3) (H4 & H5 & H6).
  repeat split; try congruence. auto.
Qed.

Lemma Forall2_checked_refl (ks : list OpenAIKey) : Forall2 checked_from ks ks.
Proof. induction ks; constructor; auto using checked_from_refl. Qed.

Lemma Forall2_checked_trans (a b c : list OpenAIKey) :
  Forall2 checked_from a b -> Forall2 checked_from b c ->
  Forall2 checked_from a c.
Proof.
  intros H. revert c. induction H as [|x y a b Hxy Hab IH]; intros c Hc.
  - inversion Hc. constructor.
  - inversion Hc as [|y' z b' c' Hyz Hbc]; subst. constructor.
    + eapply checked_from_trans; eauto.
    + now apply IH.
Qed.

Lemma updateKey_checked (ks : list OpenAIKey) (now : Z) (u : UpdateCall) :
  never_enables u -> Forall2 checked_from ks (updateKey ks now u).
Proof.
  intros Hu. induction ks as [|k ks IH]; simpl; [constructor|].
  destruct (String.eqb (hash k) (call_hash u)).
  - constructor; [|apply Forall2_checked_refl].
    unfold checked_from, assign. simpl. repeat split.
    intros Hd. unfold never_enables in Hu.
    destruct (p_isDisabled (call_fields u)) as [[|]|]; simpl; congruence.
  - constructor; [apply checked_from_refl|exact IH].
Qed.

Lemma apply_calls_checked (us : list UpdateCall) (ks : list OpenAIKey) now :
  Forall never_enables us -> Forall2 checked_from ks (apply_calls ks now us).
Proof.
  unfold apply_calls. revert ks.
  induction us as [|u us IH]; intros ks Hus; simpl.
  - apply Forall2_checked_refl.
  - apply Forall_cons in Hus as [Hu Hus].
    eapply Forall2_checked_trans; [apply (updateKey_checked ks now u Hu)|].
    now apply IH.
Qed.

Lemma checkKey_calls_never_enable (h : string) (i : bool) (p : Probe) (now : Z) :
  Forall never_enables (checkKey_calls h i p now).
Proof.
  unfold checkKey_calls. destruct p as [s m|e].
  - destruct i; repeat constructor; discriminate.
  - unfold on_probe_error. constructor; [discriminate|].
    destruct (handleAxiosError_shape h e now) as [E|[E|[E|E]]]; rewrite E;
      repeat constructor; discriminate.
Qed.

Lemma checkKey_resume_checked (c : Checker) r i p now :
  Forall2 checked_from (keys c) (keys (checkKey_resume c r i p now)).
Proof.
  destruct (keys c !! r) as [k|] eqn:Hk.
  - rewrite (checkKey_resume_keys c r i p now k Hk).
    apply apply_calls_checked, checkKey_calls_never_enable.
  - unfold checkKey_resume. rewrite Hk. apply Forall2_checked_refl.
Qed.

Lemma checkKey_begin_keys (c : Checker) r now :
  keys (fst (checkKey_begin c r now)) = keys c.
Proof.
  unfold checkKey_begin. destruct (keys c !! r) as [k|]; [|reflexivity].
  destruct (isDisabled k); [|reflexivity]. simpl.
  apply scheduleNextCheck_keys.
Qed.

Lemma begin_all_keys (rs : list ref) (c : Checker) now :
  keys (fst (begin_all c rs now)) = keys c.
Proof.
  revert c. induction rs as [|r rs IH]; intros c; simpl; [reflexivity|].
  pose proof (checkKey_begin_keys c r now) as H.
  destruct (checkKey_begin c r now) as [c1 [i|]]; simpl in H.
  - specialize (IH c1). destruct (begin_all c1 rs now) as [c2 st]. simpl in *.
    congruence.
  - rewrite IH. exact H.
Qed.

Lemma settle_all_checked (started : list (ref * bool))
  (ss : list Settlement) (c : Checker) :
  Forall2 checked_from (keys c) (keys (fold_left (settle started) ss c)).
Proof.
  revert c. induction ss as [|s ss IH]; intros c; simpl.
  - apply Forall2_checked_refl.
  - eapply Forall2_checked_trans; [|apply IH].
    unfold settle. destruct (started_as started (s_key s)).
    + apply checkKey_resume_checked.
    + apply Forall2_checked_refl.
Qed.

(** X11. Whatever the probes come back with, the checker leaves the key
    array as long as it was and every key with its secret and its hash, and
    it never enables a key that was disabled: after a single check, and
    after a whole startup batch with its probes settling in any order. *)
Theorem checker_never_enables_or_renames (c : Checker) :
  (forall r i p now,
     Forall2 checked_from (keys c) (keys (checkKey_resume c r i p now)))
  /\ (forall batch now settlements finished,
        Forall2 checked_from (keys c)
          (keys (run_batch c batch now settlements finished))).
Proof.
  split; [intros; apply checkKey_resume_checked|].
  intros batch now ss finished. unfold run_batch, batch_settled.
  rewrite (proj1 (scheduleNextCheck_keys _ _)).
  pose proof (begin_all_keys batch c now) as Hb.
  destruct (begin_all c batch now) as [c1 started]. simpl in Hb.
  rewrite <- Hb. apply settle_all_checked.
Qed.

(** ** A check that succeeds *)

(** X12. When the probes of a key succeed, a first check records whether the
    key reaches GPT-4, whether it is a trial key (no payment method) and the
    three limits, stamps [lastChecked] and sets no timer; a later check
    records the limits only, leaves [isGpt4] and [isTrial] as they were,
    stamps [lastChecked] and computes the schedule anew. Both set
    [lastCheck] and touch no other key. *)
Theorem successful_check (c : Checker) (r : ref) (k : OpenAIKey)
  (s : GetSubscriptionResponse) (m : ProvisionedModels) (now : Z) :
  keys c !! r = Some k ->
  (forall j k', (j < r)%nat -> keys c !! j = Some k' -> hash k' <> hash k) ->
  checkKey_resume c r true (Fulfilled s m) now
  = with_lastCheck now
      (with_keys (<[r := after_initial_check s m now k]> (keys c)) c)
  /\ timers (checkKey_resume c r true (Fulfilled s m) now) = timers c
  /\ checkKey_resume c r false (Fulfilled s m) now
     = scheduleNextCheck
         (with_lastCheck now
            (with_keys (<[r := after_later_check s now k]> (keys c)) c)) now
  /\ lastCheck (checkKey_resume c r false (Fulfilled s m) now) = now.
Proof.
  intros Hk Hfirst.
  assert (E1 : apply_calls (keys c) now
                 [mkCall (hash k) (initial_updates s m)]
               = <[r := after_initial_check s m now k]> (keys c)).
  { unfold apply_calls. simpl.
    now rewrite (updateKey_first _ now _ r k Hk Hfirst). }
  assert (E2 : apply_calls (keys c) now [mkCall (hash k) (recheck_updates s)]
               = <[r := after_later_check s now k]> (keys c)).
  { unfold apply_calls. simpl.
    now rewrite (updateKey_first _ now _ r k Hk Hfirst). }
  unfold checkKey_resume. rewrite Hk. unfold checkKey_calls. cbn [negb].
  rewrite E1, E2. split; [reflexivity|]. split; [reflexivity|].
  split; [reflexivity|].
  now rewrite (proj2 (scheduleNextCheck_keys _ _)).
Qed.

Lemma successful_check_witness :
  checkKey_resume checker_steady 1%nat true
    (Fulfilled (mkSubscription true 100 120 120)
               (getProvisionedModels ["gpt-3.5-turbo"; "gpt-4-0613"])) 9000
  = with_lastCheck 9000
      (with_keys (<[1%nat := after_initial_check (mkSubscription true 100 120 120)
                               (getProvisionedModels ["gpt-3.5-turbo"; "gpt-4-0613"])
                               9000 key_2]> (keys checker_steady))
         checker_steady)
  /\ timers (checkKey_resume checker_steady 1%nat true
               (Fulfilled (mkSubscription true 100 120 120)
                  (getProvisionedModels ["gpt-3.5-turbo"; "gpt-4-0613"])) 9000)
     = timers checker_steady
  /\ checkKey_resume checker_steady 1%nat false
       (Fulfilled (mkSubscription true 100 120 120)
          (getProvisionedModels ["gpt-3.5-turbo"; "gpt-4-0613"])) 9000
     = scheduleNextCheck
         (with_lastCheck 9000
            (with_keys (<[1%nat := after_later_check
                                     (mkSubscription true 100 120 120) 9000 key_2]>
                          (keys checker_steady)) checker_steady)) 9000
  /\ lastCheck (checkKey_resume checker_steady 1%nat false
                  (Fulfilled (mkSubscription true 100 120 120)
                     (getProvisionedModels ["gpt-3.5-turbo"; "gpt-4-0613"])) 9000)
     = 9000.
Proof.
  apply (successful_check checker_steady 1%nat key_2).
  - reflexivity.
  - exact key_2_first.
Defined.

(** ** A settled probe leaves the backlog *)

(** X13. Once the probe of a key has settled, in success or in failure of
    any kind, the key has a [lastChecked] that is not 0 (the time of the
    probe, or that time moved back for the short retry), so it is in no
    later startup batch. The clock is past [KEY_CHECK_PERIOD]. *)
Theorem settled_probe_leaves_backlog (c : Checker) (r : ref) (k : OpenAIKey)
  (i : bool) (p : Probe) (now : Z) :
  keys c !! r = Some k ->
  (forall j k', (j < r)%nat -> keys c !! j = Some k' -> hash k' <> hash k) ->
  KEY_CHECK_PERIOD < now ->
  exists k',
    keys (checkKey_resume c r i p now) !! r = Some k'
    /\ (lastChecked k' = now
        \/ lastChecked k' = now - (KEY_CHECK_PERIOD - 15000))
    /\ lastChecked k' <> 0
    /\ ~ In r (startup_batch (checkKey_resume c r i p now)).
Proof.
  intros Hk Hfirst Hnow.
  assert (Hr : (r < length (keys c))%nat) by (eapply lookup_lt_Some; eauto).
  assert (H : exists k',
             keys (checkKey_resume c r i p now) !! r = Some k'
             /\ (lastChecked k' = now
                 \/ lastChecked k' = now - (KEY_CHECK_PERIOD - 15000))).
  { rewrite (checkKey_resume_keys c r i p now k Hk).
    unfold checkKey_calls. destruct p as [s m|e].
    - destruct i; unfold apply_calls; simpl;
        rewrite (updateKey_first _ now _ r k Hk Hfirst);
        rewrite list_lookup_insert_eq by exact Hr; eexists; split;
        try reflexivity; left; reflexivity.
    - unfold on_probe_error.
      destruct (handleAxiosError_shape (hash k) e now) as [E|[E|[E|E]]];
        rewrite E.
      + rewrite (touch_only _ _ r k Hk Hfirst).
        rewrite list_lookup_insert_eq by exact Hr. eexists. split; [reflexivity|].
        left. reflexivity.
      + rewrite (touch_then_update _ _ _ r k Hk Hfirst).
        rewrite list_lookup_insert_eq by exact Hr. eexists. split; [reflexivity|].
        left. reflexivity.
      + rewrite (touch_then_update _ _ _ r k Hk Hfirst).
        rewrite list_lookup_insert_eq by exact Hr. eexists. split; [reflexivity|].
        right. reflexivity.
      + rewrite (touch_then_update _ _ _ r k Hk Hfirst).
        rewrite list_lookup_insert_eq by exact Hr. eexists. split; [reflexivity|].
        left. reflexivity. }
  destruct H as (k' & Hk' & Hlc). exists k'.
  assert (Hnz : lastChecked k' <> 0).
  { unfold KEY_CHECK_PERIOD in *. destruct Hlc as [-> | ->]; lia. }
  split; [exact Hk'|]. split; [exact Hlc|]. split; [exact Hnz|].
  intros Hin. apply in_startup_batch in Hin as (k1 & Hk1 & _ & Hz).
  congruence.
Qed.

Lemma settled_probe_leaves_backlog_witness :
  exists k',
    keys (checkKey_resume checker_startup 0%nat true
            (Rejected (error_of 429 "requests")) 1700000000000) !! 0%nat
    = Some k'
    /\ (lastChecked k' = 1700000000000
        \/ lastChecked k' = 1700000000000 - (KEY_CHECK_PERIOD - 15000))
    /\ lastChecked k' <> 0
    /\ ~ In 0%nat (startup_batch
                     (checkKey_resume checker_startup 0%nat true
                        (Rejected (error_of 429 "requests")) 1700000000000)).
Proof.
  apply (settled_probe_leaves_backlog checker_startup 0%nat key_1).
  - reflexivity.
  - intros j k' Hj. lia.
  - reflexivity.
Defined.

(** ** The short retry after a request rate limit *)

Lemma scheduleNextCheck_steady (c : Checker) (now : Z) k0 rest :
  enabledKeys c = k0 :: rest ->
  (forall r k, In (r, k) (enabledKeys c) -> lastChecked k <> 0) ->
  scheduleNextCheck c now
  = setTimeout
      (mkTimer (CheckOne (fst (oldest_of k0 rest)))
         (Z.max (lastChecked (snd (oldest_of k0 rest)) + KEY_CHECK_PERIOD)
                (lastCheck c + MIN_CHECK_INTERVAL) - now) now) c.
Proof.
  intros E Hall. unfold scheduleNextCheck. fold (enabledKeys c).
  rewrite E in *. rewrite filter_empty; [reflexivity|].
  intros [r k] Hin. unfold unchecked. simpl. apply Z.eqb_neq. eauto.
Qed.

(** X14. When a later check of an enabled key fails on the per-minute request
    limit (status 429, type [requests]) and every other enabled key was
    checked less than [KEY_CHECK_PERIOD] minus 15 seconds before the error
    was handled, the timer the check leaves behind is for that same key. It
    is due at the later of 15 seconds after the clock read of
    [handleAxiosError] and [MIN_CHECK_INTERVAL] after the read for
    [lastCheck]. When no more than 12 seconds pass between those two reads
    it is due 15 seconds after the first, so the delay handed to
    [setTimeout] is 15000 ms less the time from that read to the read of
    [scheduleNextCheck]. *)
Theorem request_limit_retries_in_15s (c : Checker) (r : ref) (k : OpenAIKey)
  (e : AxiosError) (clk : Reads) :
  keys c !! r = Some k -> isDisabled k = false ->
  (forall j k', (j < r)%nat -> keys c !! j = Some k' -> hash k' <> hash k) ->
  structured e 429 "requests" ->
  KEY_CHECK_PERIOD < at_error clk ->
  (forall j kj, j <> r -> keys c !! j = Some kj -> isDisabled kj = false ->
     at_error clk - (KEY_CHECK_PERIOD - 15000) < lastChecked kj) ->
  exists tm,
    timeout (checkKey_resume_at c r false (Rejected e) clk) = Some tm
    /\ callback tm = CheckOne r
    /\ set_at tm = at_schedule clk
    /\ due tm = Z.max (at_error clk + 15000)
                      (at_lastCheck clk + MIN_CHECK_INTERVAL)
    /\ (at_lastCheck clk - at_error clk <= 12000 ->
        due tm = at_error clk + 15000
        /\ delay tm = 15000 - (at_schedule clk - at_error clk)).
Proof.
  intros Hk Hen Hfirst Hs Hnow Hothers.
  assert (Hr : (r < length (keys c))%nat) by (eapply lookup_lt_Some; eauto).
  set (back := at_error clk - (KEY_CHECK_PERIOD - 15000)).
  set (k1 := set_lastChecked back k).
  assert (Eks : apply_calls
                  (updateKey (keys c) (at_update clk) (mkCall (hash k) no_fields))
                  (at_reupdate clk)
                  (handleAxiosError (hash k) e (at_error clk))
                = <[r := k1]> (keys c)).
  { rewrite (handleAxiosError_structured _ _ _ _ _ Hs).
    cbn -[apply_calls Z.sub KEY_CHECK_PERIOD updateKey].
    rewrite (updateKey_first _ _ no_fields r k Hk Hfirst).
    set (k0 := assign (assign k (lastChecked_fields (at_update clk))) no_fields).
    unfold apply_calls. cbn [fold_left].
    change (hash k) with (hash k0).
    rewrite (updateKey_first _ _ _ r k0).
    - now rewrite list_insert_insert_eq.
    - now apply list_lookup_insert_eq.
    - intros j k' Hj Hk'. rewrite list_lookup_insert_ne in Hk' by lia.
      now apply (Hfirst j). }
  unfold checkKey_resume_at. rewrite Hk, Eks. cbn [negb].
  set (c1 := with_lastCheck (at_lastCheck clk)
               (with_keys (<[r := k1]> (keys c)) c)).
  assert (Hin1 : In (r, k1) (enabledKeys c1)).
  { apply in_enabled_refs. split; [|exact Hen].
    simpl. now apply list_lookup_insert_eq. }
  assert (Hall : forall r' k', In (r', k') (enabledKeys c1) ->
                   (r' = r /\ k' = k1) \/ back < lastChecked k').
  { intros r' k' H'. apply in_enabled_refs in H' as [Hl' Hd']. simpl in Hl'.
    destruct (decide (r' = r)) as [->|Hne].
    - rewrite list_lookup_insert_eq in Hl' by exact Hr. left. split; congruence.
    - rewrite list_lookup_insert_ne in Hl' by congruence. right.
      now apply (Hothers r' k'). }
  destruct (enabledKeys c1) as [|k0 rest] eqn:E; [destruct Hin1|].
  rewrite (scheduleNextCheck_steady c1 (at_schedule clk) k0 rest E).
  2:{ intros r' k' H'. rewrite E in H'. destruct (Hall _ _ H') as [[_ ->]|Hlt].
      - unfold k1, back, KEY_CHECK_PERIOD in *. simpl. lia.
      - unfold back, KEY_CHECK_PERIOD in *. lia. }
  destruct (oldest_of_spec rest k0) as [Hino Hle].
  destruct (oldest_of k0 rest) as [ro ko] eqn:Ho.
  assert (Hro : ro = r /\ ko = k1).
  { destruct (Hall ro ko Hino) as [?|Hlt]; [assumption|].
    specialize (Hle (r, k1) Hin1). simpl in Hle.
    unfold k1 in Hle. simpl in Hle. lia. }
  destruct Hro as [-> ->]. eexists. split; [reflexivity|].
  split; [reflexivity|]. split; [reflexivity|].
  unfold due. simpl. unfold back, KEY_CHECK_PERIOD, MIN_CHECK_INTERVAL.
  split; [lia|]. intros Hgap. lia.
Qed.

Lemma request_limit_retries_in_15s_witness :
  exists tm,
    timeout (checkKey_resume_at checker_running 0%nat false
               (Rejected (error_of 429 "requests"))
               (mkReads 1700000300000 1700000300000 1700000300000
                        1700000300000 1700000300001)) = Some tm
    /\ callback tm = CheckOne 0%nat
    /\ due tm = 1700000315000
    /\ delay tm = 14999.
Proof.
  destruct (request_limit_retries_in_15s checker_running 0%nat key_5
              (error_of 429 "requests")
              (mkReads 1700000300000 1700000300000 1700000300000
                       1700000300000 1700000300001))
    as (tm & Htm & Hcb & _ & _ & Hshort).
  - reflexivity.
  - reflexivity.
  - intros j k' Hj. lia.
  - apply structured_error_of. discriminate.
  - reflexivity.
  - intros j kj Hj Hl Hd.
    destruct j as [|[|[|j]]]; [contradiction| | |discriminate Hl];
      injection Hl as <-; [discriminate Hd|reflexivity].
  - exists tm. destruct Hshort as [Hdue Hdelay]; [simpl; lia|].
    split; [exact Htm|]. split; [exact Hcb|]. split; [exact Hdue|exact Hdelay].
Defined.

(** ** The startup batch *)

Lemma sorted_refs_indexed (ks : list OpenAIKey) (s : nat) :
  StronglySorted lt (map fst (combine (seq s (length ks)) ks)).
Proof.
  revert s. induction ks as [|k ks IH]; intros s; simpl; constructor.
  - apply IH.
  - apply Forall_forall. intros r Hr. apply list_elem_of_In in Hr.
    apply in_map_iff in Hr as ([r' k'] & <- & Hin).
    apply in_combine_seq in Hin as [Hle _]. simpl. lia.
Qed.

Lemma sorted_refs_filter (f : ref * OpenAIKey -> bool)
  (l : list (ref * OpenAIKey)) :
  StronglySorted lt (map fst l) ->
  StronglySorted lt (map fst (List.filter f l)).
Proof.
  induction l as [|e l IH]; simpl; intros H; [constructor|].
  apply StronglySorted_inv in H as [Hs Hall].
  destruct (f e); simpl; [|now apply IH].
  constructor; [now apply IH|].
  rewrite Forall_forall in *. intros r Hr. apply Hall.
  apply list_elem_of_In in Hr. apply list_elem_of_In.
  apply in_map_iff in Hr as (e' & <- & Hin).
  apply filter_In in Hin as [Hin _]. now apply in_map.
Qed.

Lemma sorted_app_lt (l1 l2 : list nat) x y :
  StronglySorted lt (l1 ++ l2) -> In x l1 -> In y l2 -> (x < y)%nat.
Proof.
  induction l1 as [|a l1 IH]; simpl; intros H Hx Hy; [destruct Hx|].
  apply StronglySorted_inv in H as [Hs Hall].
  destruct Hx as [->|Hx]; [|now apply IH].
  rewrite Forall_forall in Hall. apply Hall.
  apply list_elem_of_In. apply in_or_app. now right.
Qed.

Lemma sorted_lt_NoDup (l : list nat) : StronglySorted lt l -> NoDup l.
Proof.
  induction l as [|a l IH]; intros H; [constructor|].
  apply StronglySorted_inv in H as [Hs Hall]. constructor; [|now apply IH].
  intros Hin. rewrite Forall_forall in Hall. specialize (Hall a Hin). lia.
Qed.

Lemma sorted_unchecked_refs (c : Checker) :
  StronglySorted lt
    (map fst (List.filter (fun e => unchecked (snd e)) (enabledKeys c))).
Proof.
  apply sorted_refs_filter. unfold enabledKeys. apply sorted_refs_filter.
  apply sorted_refs_indexed.
Qed.

(** X15. The startup batch names no key twice and takes the unchecked
    enabled keys in array order: an unchecked enabled key that comes before
    a key of the batch is in the batch too; and when there are no more than
    12 such keys the batch holds all of them. *)
Theorem startup_batch_is_first_come (c : Checker) :
  NoDup (startup_batch c)
  /\ (forall r r' k', In r (startup_batch c) -> (r' < r)%nat ->
        keys c !! r' = Some k' -> isDisabled k' = false ->
        lastChecked k' = 0 -> In r' (startup_batch c))
  /\ ((length (List.filter (fun e => unchecked (snd e)) (enabledKeys c))
       <= BATCH_SIZE)%nat ->
      forall r k, keys c !! r = Some k -> isDisabled k = false ->
        lastChecked k = 0 -> In r (startup_batch c)).
Proof.
  pose proof (sorted_unchecked_refs c) as Hs.
  set (l := List.filter (fun e => unchecked (snd e)) (enabledKeys c)) in *.
  assert (Hin : forall r k, keys c !! r = Some k -> isDisabled k = false ->
                  lastChecked k = 0 -> In (r, k) l).
  { intros r k Hk Hd Hz. apply filter_In. split.
    - now apply in_enabled_refs.
    - unfold unchecked. simpl. now apply Z.eqb_eq. }
  assert (Hsplit : map fst l
                   = startup_batch c ++ map fst (skipn BATCH_SIZE l)).
  { unfold startup_batch. fold l. rewrite <- map_app.
    now rewrite firstn_skipn. }
  rewrite Hsplit in Hs. split; [|split].
  - apply sorted_lt_NoDup.
    clear -Hs. induction (startup_batch c) as [|a b IH]; [constructor|].
    simpl in Hs. apply StronglySorted_inv in Hs as [Hs Hall].
    constructor; [now apply IH|].
    rewrite Forall_forall in *. intros x Hx. apply Hall.
    apply list_elem_of_In. apply in_or_app. left. now apply list_elem_of_In.
  - intros r r' k' Hr Hlt Hk' Hd' Hz'.
    assert (H' : In r' (map fst l)).
    { apply in_map_iff. exists (r', k'). split; [reflexivity|auto]. }
    rewrite Hsplit in H'. apply in_app_or in H' as [H'|H']; [exact H'|].
    pose proof (sorted_app_lt _ _ r r' Hs Hr H'). lia.
  - intros Hlen r k Hk Hd Hz. unfold startup_batch. fold l.
    rewrite firstn_all2 by exact Hlen.
    apply in_map_iff. exists (r, k). split; [reflexivity|auto].
Qed.

Lemma startup_batch_is_first_come_witness :
  In 0%nat (startup_batch checker_startup).
Proof.
  apply (proj2 (proj2 (startup_batch_is_first_come checker_startup))
           ltac:(vm_compute; lia) 0%nat key_1); reflexivity.
Defined.

(** ** The probes a batch starts *)

Lemma begin_all_started (rs : list ref) (c : Checker) (now : Z) :
  map fst (snd (begin_all c rs now)) = List.filter (enabled_at (keys c)) rs
  /\ forall r i, In (r, i) (snd (begin_all c rs now)) ->
       exists k, keys c !! r = Some k /\ isDisabled k = false
                 /\ i = unchecked k.
Proof.
  revert c. induction rs as [|r rs IH]; intros c; simpl.
  - split; [reflexivity|]. intros r i [].
  - pose proof (checkKey_begin_keys c r now) as Hkeys.
    unfold checkKey_begin in *. unfold enabled_at at 1.
    destruct (keys c !! r) as [k|] eqn:Hk; simpl in *.
    + destruct (isDisabled k) eqn:Hd; simpl in *.
      * destruct (IH (scheduleNextCheck c now)) as [H1 H2].
        rewrite Hkeys in H1, H2. auto.
      * destruct (IH c) as [H1 H2].
        destruct (begin_all c rs now) as [c2 started]. simpl in *.
        split; [now rewrite H1|].
        intros r0 i0 [[= <- <-]|Hin]; [eauto|now apply H2].
    + apply IH.
Qed.

(** X16. When the timer of a batch fires, a probe is started for exactly
    those keys of the batch that are enabled at that moment, in batch order;
    a key disabled in the meantime gets none. Starting the probes writes to
    no key. *)
Theorem batch_probes_enabled_keys_only (c : Checker) (batch : list ref)
  (now : Z) :
  map fst (snd (begin_all c batch now)) = List.filter (enabled_at (keys c)) batch
  /\ (forall r i, In (r, i) (snd (begin_all c batch now)) ->
        exists k, keys c !! r = Some k /\ isDisabled k = false
                  /\ i = unchecked k)
  /\ keys (fst (begin_all c batch now)) = keys c.
Proof.
  destruct (begin_all_started batch c now) as [H1 H2].
  split; [exact H1|]. split; [exact H2|]. apply begin_all_keys.
Qed.

End OpenAIKeyCheckerMore.

(** ** JavaScript maps as association lists *)

Section JsMapFacts.
Context {V : Type}.
Implicit Types (m : list (string * V)) (k : string) (v : V).

Lemma map_get_set_eq m k v : map_get (map_set m k v) k = Some v.
Proof.
  induction m as [|[k' v'] m IH]; simpl.
  - now rewrite String.eqb_refl.
  - destruct (String.eqb k' k) eqn:E; simpl; rewrite E; [reflexivity|exact IH].
Qed.

Lemma map_get_set_ne m k k' v :
  k' <> k -> map_get (map_set m k v) k' = map_get m k'.
Proof.
  intros Hne. induction m as [|[k0 v0] m IH]; simpl.
  - apply String.eqb_neq in Hne. rewrite String.eqb_sym. now rewrite Hne.
  - destruct (String.eqb k0 k) eqn:E; simpl.
    + apply String.eqb_eq in E. subst k0.
      assert (E' : String.eqb k k' = false)
        by (apply String.eqb_neq; congruence).
      now rewrite E'.
    + destruct (String.eqb k0 k'); [reflexivity|exact IH].
Qed.

Lemma map_get_delete_ne m k k' :
  k' <> k -> map_get (map_delete m k) k' = map_get m k'.
Proof.
  intros Hne. induction m as [|[k0 v0] m IH]; simpl; [reflexivity|].
  destruct (String.eqb k0 k) eqn:E; simpl.
  - apply String.eqb_eq in E. subst k0.
    assert (E' : String.eqb k k' = false)
      by (apply String.eqb_neq; congruence).
    now rewrite E'.
  - destruct (String.eqb k0 k'); [reflexivity|exact IH].
Qed.

Lemma map_get_None m k : map_get m k = None <-> ~ In k (map fst m).
Proof.
  induction m as [|[k0 v0] m IH]; simpl; [tauto|].
  destruct (String.eqb k0 k) eqn:E.
  - apply String.eqb_eq in E. split; [discriminate|]. intros H. tauto.
  - apply String.eqb_neq in E. rewrite IH. tauto.
Qed.

Lemma map_get_In m k v : map_get m k = Some v -> In (k, v) m.
Proof.
  induction m as [|[k0 v0] m IH]; simpl; [discriminate|].
  destruct (String.eqb k0 k) eqn:E.
  - apply String.eqb_eq in E. intros [= <-]. left. congruence.
  - intros H. right. now apply IH.
Qed.

Lemma In_map_get m k v : NoDup (map fst m) -> In (k, v) m -> map_get m k = Some v.
Proof.
  induction m as [|[k0 v0] m IH]; simpl; [tauto|].
  rewrite NoDup_cons. intros [Hk0 Hnd] [[= -> ->]|Hin].
  - now rewrite String.eqb_refl.
  - destruct (String.eqb k0 k) eqn:E; [|now apply IH].
    apply String.eqb_eq in E. subst k0. exfalso. apply Hk0.
    apply list_elem_of_In. apply in_map_iff. exists (k, v). auto.
Qed.

Lemma map_get_delete_eq m k :
  NoDup (map fst m) -> map_get (map_delete m k) k = None.
Proof.
  induction m as [|[k0 v0] m IH]; simpl; [reflexivity|].
  rewrite NoDup_cons. intros [Hk0 Hnd].
  destruct (String.eqb k0 k) eqn:E; simpl.
  - apply String.eqb_eq in E. subst k0. apply map_get_None.
    intros H. apply Hk0. now apply list_elem_of_In.
  - rewrite E. now apply IH.
Qed.

(** [set] on a key that is there keeps the keys; on a new key it adds the
    key at the end. *)
Lemma keys_map_set m k v :
  map fst (map_set m k v)
  = match map_get m k with
    | Some _ => map fst m
    | None => map fst m ++ [k]
    end.
Proof.
  induction m as [|[k0 v0] m IH]; simpl; [reflexivity|].
  destruct (String.eqb k0 k) eqn:E; simpl; [reflexivity|].
  rewrite IH. now destruct (map_get m k).
Qed.

Lemma in_keys_map_delete m k k' :
  In k' (map fst (map_delete m k)) -> In k' (map fst m).
Proof.
  induction m as [|[k0 v0] m IH]; simpl; [tauto|].
  destruct (String.eqb k0 k); simpl; [tauto|]. intros [?|?]; auto.
Qed.

Lemma NoDup_map_set m k v :
  NoDup (map fst m) -> NoDup (map fst (map_set m k v)).
Proof.
  intros H. rewrite keys_map_set. destruct (map_get m k) eqn:E; [exact H|].
  apply map_get_None in E. apply NoDup_app. split; [exact H|].
  split; [|repeat constructor; apply not_elem_of_nil].
  intros x Hx Hx'. apply list_elem_of_In in Hx, Hx'.
  destruct Hx' as [<-|[]]. contradiction.
Qed.

Lemma NoDup_map_delete m k :
  NoDup (map fst m) -> NoDup (map fst (map_delete m k)).
Proof.
  induction m as [|[k0 v0] m IH]; simpl; [auto|].
  rewrite NoDup_cons. intros [Hk0 Hnd].
  destruct (String.eqb k0 k); simpl; [exact Hnd|].
  apply NoDup_cons. split; [|now apply IH].
  intros H. apply Hk0. apply list_elem_of_In.
  eapply in_keys_map_delete. apply list_elem_of_In. exact H.
Qed.

Lemma Forall_map_set (P : string * V -> Prop) m k v :
  Forall P m -> P (k, v) -> Forall P (map_set m k v).
Proof.
  intros H Hv. induction m as [|[k0 v0] m IH]; simpl.
  - repeat constructor. exact Hv.
  - apply Forall_cons in H as [H0 H].
    destruct (String.eqb k0 k) eqn:E; constructor; auto.
    apply String.eqb_eq in E. now subst k0.
Qed.

Lemma Forall_map_delete (P : string * V -> Prop) m k :
  Forall P m -> Forall P (map_delete m k).
Proof.
  intros H. induction m as [|[k0 v0] m IH]; simpl; [constructor|].
  apply Forall_cons in H as [H0 H].
  destruct (String.eqb k0 k); [exact H|]. constructor; auto.
Qed.

Lemma length_map_set_present m k v v0 :
  map_get m k = Some v0 -> length (map_set m k v) = length m.
Proof.
  intros H. rewrite <- (length_map fst (map_set m k v)), keys_map_set, H.
  apply length_map.
Qed.
End JsMapFacts.

Module UserStoreSpec.
Import UserStore.

(** ** Entries are filed under their token *)

Lemma filed_set (us : list (string * User)) f i f' i' t u :
  filed_by_token (mkStore us f i) -> token u = t ->
  filed_by_token (mkStore (map_set us t u) f' i').
Proof.
  unfold filed_by_token. simpl. intros [Hnd Hall] Ht. split.
  - now apply NoDup_map_set.
  - apply Forall_map_set; [exact Hall|exact Ht].
Qed.

Lemma filed_delete (us : list (string * User)) f i f' i' t :
  filed_by_token (mkStore us f i) ->
  filed_by_token (mkStore (map_delete us t) f' i').
Proof.
  unfold filed_by_token. simpl. intros [Hnd Hall]. split.
  - now apply NoDup_map_delete.
  - now apply Forall_map_delete.
Qed.

Lemma filed_same_users (us : list (string * User)) f i f' i' :
  filed_by_token (mkStore us f i) -> filed_by_token (mkStore us f' i').
Proof. exact (fun H => H). Qed.

Lemma filed_token (st : Store) t u :
  filed_by_token st -> map_get (users st) t = Some u -> token u = t.
Proof.
  intros [_ Hall] H. apply map_get_In in H.
  rewrite Forall_forall in Hall. apply (Hall (t, u)). now apply list_elem_of_In.
Qed.

Lemma token_counted (model user_ip : string) (u : User) :
  token (counted model user_ip u) = token u.
Proof.
  unfold counted. destruct (String.eqb (slice3 model) "gpt"); [reflexivity|].
  destruct (String.eqb (slice3 model) "cla"); reflexivity.
Qed.

Lemma incrementPromptCount_filed (st : Store) t model user_ip now :
  filed_by_token st -> filed_by_token (incrementPromptCount st t model user_ip now).
Proof.
  intros H. unfold incrementPromptCount.
  destruct (map_get (users st) t) as [u|] eqn:Hu; [|exact H].
  pose proof (filed_token st t u H Hu) as Ht.
  pose proof (token_counted model user_ip u) as Hc.
  destruct st as [us f i]. unfold mark, with_users. cbn [users usersToFlush immediates].
  set (u3 := counted model user_ip u) in *.
  assert (H3 : forall f' i', filed_by_token (mkStore (map_set us t u3) f' i')).
  { intros. eapply filed_set; [exact H|congruence]. }
  destruct (type u3); try apply H3.
  destruct (not_marked_disabled u3); [|apply H3].
  match goal with
  | |- context [if ?b then set_endTimeLimit ?x u3 else u3] =>
      set (u4 := if b then set_endTimeLimit x u3 else u3)
  end.
  assert (H4 : forall f' i', filed_by_token (mkStore (map_set us t u4) f' i')).
  { intros. eapply filed_set; [exact H|].
    unfold u4.
    match goal with |- context [if ?b then _ else _] => destruct b end;
      simpl; congruence. }
  repeat match goal with
         | |- context [if ?b then _ else _] => destruct b
         end;
    repeat (apply (filed_delete _ f i)); apply (H4 f i).
Qed.

Lemma serve_filed (cfg : Config) (st : Store) (r : Request) :
  filed_by_token st -> filed_by_token (serve cfg st r).
Proof.
  intros H. destruct r; simpl.
  - destruct st as [us f i]. apply (filed_set _ f i); [exact H|reflexivity].
  - destruct st as [us f i]. apply (filed_set _ f i); [exact H|reflexivity].
  - destruct st as [us f i]. unfold upsertUser. cbn [users usersToFlush immediates fst].
    destruct (firebase cfg); cbn [fst];
      (apply (filed_set _ f i); [exact H|reflexivity]).
  - now apply incrementPromptCount_filed.
  - unfold incrementTokenCount.
    destruct (map_get (users st) token0) as [u|] eqn:Hu; [|exact H].
    pose proof (filed_token st _ u H Hu) as Ht.
    destruct st as [us f i]. apply (filed_set _ f i); [exact H|].
    destruct (String.eqb service "openai"); [exact Ht|].
    destruct (String.eqb service "anthropic"); exact Ht.
  - unfold authenticate.
    destruct (map_get (users st) token0) as [u|] eqn:Hu; [|exact H].
    pose proof (filed_token st _ u H Hu) as Ht.
    destruct (is_disabled u); [exact H|].
    set (u1 := if includes (ip u) ip_ then u else set_ip (ip u ++ [ip_]) u).
    assert (Ht1 : token u1 = token0) by (unfold u1; destruct (includes _ _); exact Ht).
    destruct st as [us f i].
    destruct (over_ip_limit cfg u1); cbn [fst].
    + unfold disableUser, with_users. cbn [users usersToFlush immediates].
      rewrite map_get_set_eq.
      apply (filed_set _ f i); [|exact Ht1].
      apply (filed_set _ f i); [exact H|exact Ht1].
    + apply (filed_set _ f i); [exact H|exact Ht1].
  - unfold disableUser.
    destruct (map_get (users st) token0) as [u|] eqn:Hu; [|exact H].
    pose proof (filed_token st _ u H Hu) as Ht.
    destruct st as [us f i]. apply (filed_set _ f i); [exact H|exact Ht].
  - unfold flushUsers. destruct st as [us f i]. cbn [users usersToFlush immediates].
    destruct (length _ =? 0)%nat; exact H.
Qed.

(** X17. Whatever requests the store serves, no token is in the map twice
    and every user stays filed under its own token, so the user that
    [incrementPromptCount] deletes by [user.token] is the one it looked
    up. *)
Theorem users_stay_filed_by_token (cfg : Config) (st : Store)
  (rs : list Request) :
  filed_by_token st -> filed_by_token (serve_all cfg st rs).
Proof.
  unfold serve_all. revert st.
  induction rs as [|r rs IH]; intros st H; simpl; [exact H|].
  apply IH. now apply serve_filed.
Qed.

Lemma filed_store_2 : filed_by_token store_2.
Proof.
  split.
  - repeat constructor; rewrite ?list_elem_of_In; simpl; intuition discriminate.
  - repeat constructor.
Qed.

Lemma users_stay_filed_by_token_witness :
  filed_by_token
    (serve_all cfg_2 store_2
       [ReqCreateTempUser "AbC" 2 (-1) 5 3000;
        ReqIncrementPromptCount "temp-AbC" "gpt-4" "10.0.0.9" 3100;
        ReqAuthenticate "alice" "10.0.0.3" 3200;
        ReqIncrementPromptCount "temp-AbC" "claude-2" "10.0.0.9" 3300;
        ReqFlushUsers]).
Proof. apply (users_stay_filed_by_token cfg_2 store_2), filed_store_2. Defined.

(** ** upsertUser *)

Lemma elem_of_mark (t t' : string) (st : Store) :
  t' ∈ usersToFlush (mark t st) <-> t' = t \/ t' ∈ usersToFlush st.
Proof. unfold mark. simpl. set_solver. Qed.

(** X18. [upsertUser] returns the user it has stored under the token. Every
    field that was given is stored as given. A field that was not given is
    that of the user the map held for the token; when the map held none it
    is that of a new user: a normal user with no addresses, all counts 0,
    [promptLimit] -1, [createdAt] the time of the call and nothing else
    set. No other user changes, an existing user keeps its place in the map
    and a new one goes last, the token is marked for flushing, and a flush
    is scheduled exactly when the store is Firebase. *)
Theorem upsertUser_round_trip (cfg : Config) (st : Store) (user : UserUpdate)
  (now : Z) :
  exists u',
    snd (upsertUser cfg st user now) = Some u'
    /\ getUser (fst (upsertUser cfg st user now)) (u_token user) = Some u'
    /\ token u' = u_token user
    /\ (forall u0, getUser st (u_token user) = Some u0 ->
          Some (ip u') = u_ip user ∪ Some (ip u0)
          /\ Some (ipPromptCount u') = u_ipPromptCount user ∪ Some (ipPromptCount u0)
          /\ Some (type u') = u_type user ∪ Some (type u0)
          /\ Some (promptCount u') = u_promptCount user ∪ Some (promptCount u0)
          /\ Some (promptClaudeCount u') = u_promptClaudeCount user ∪ Some (promptClaudeCount u0)
          /\ Some (promptGptCount u') = u_promptGptCount user ∪ Some (promptGptCount u0)
          /\ promptLimit u' = u_promptLimit user ∪ promptLimit u0
          /\ endTimeLimit u' = u_endTimeLimit user ∪ endTimeLimit u0
          /\ timeLimit u' = u_timeLimit user ∪ timeLimit u0
          /\ Some (tokenClaudeCount u') = u_tokenClaudeCount user ∪ Some (tokenClaudeCount u0)
          /\ Some (tokenGptCount u') = u_tokenGptCount user ∪ Some (tokenGptCount u0)
          /\ rateLimit u' = u_rateLimit user ∪ rateLimit u0
          /\ Some (createdAt u') = u_createdAt user ∪ Some (createdAt u0)
          /\ lastUsedAt u' = u_lastUsedAt user ∪ lastUsedAt u0
          /\ disabledAt u' = u_disabledAt user ∪ disabledAt u0
          /\ disabledReason u' = u_disabledReason user ∪ disabledReason u0)
    /\ (getUser st (u_token user) = None ->
          Some (ip u') = u_ip user ∪ Some []
          /\ Some (ipPromptCount u') = u_ipPromptCount user ∪ Some []
          /\ Some (type u') = u_type user ∪ Some normal
          /\ Some (promptCount u') = u_promptCount user ∪ Some 0
          /\ Some (promptClaudeCount u') = u_promptClaudeCount user ∪ Some 0
          /\ Some (promptGptCount u') = u_promptGptCount user ∪ Some 0
          /\ promptLimit u' = u_promptLimit user ∪ Some (-1)
          /\ endTimeLimit u' = u_endTimeLimit user ∪ None
          /\ timeLimit u' = u_timeLimit user ∪ None
          /\ Some (tokenClaudeCount u') = u_tokenClaudeCount user ∪ Some 0
          /\ Some (tokenGptCount u') = u_tokenGptCount user ∪ Some 0
          /\ rateLimit u' = u_rateLimit user ∪ None
          /\ Some (createdAt u') = u_createdAt user ∪ Some now
          /\ lastUsedAt u' = u_lastUsedAt user ∪ None
          /\ disabledAt u' = u_disabledAt user ∪ None
          /\ disabledReason u' = u_disabledReason user ∪ None)
    /\ (forall t, t <> u_token user ->
          getUser (fst (upsertUser cfg st user now)) t = getUser st t)
    /\ map fst (users (fst (upsertUser cfg st user now)))
       = match getUser st (u_token user) with
         | Some _ => map fst (users st)
         | None => map fst (users st) ++ [u_token user]
         end
    /\ u_token user ∈ usersToFlush (fst (upsertUser cfg st user now))
    /\ immediates (fst (upsertUser cfg st user now))
       = if firebase cfg then S (immediates st) else immediates st.
Proof.
  set (existing := default (blank_user (u_token user) now)
                           (getUser st (u_token user))).
  exists (merge_user existing user).
  assert (Hget : getUser (fst (upsertUser cfg st user now)) (u_token user)
                 = Some (merge_user existing user)).
  { unfold upsertUser, getUser. destruct st as [us f i].
    cbn [users usersToFlush immediates mark with_users].
    destruct (firebase cfg); cbn [fst users]; apply map_get_set_eq. }
  split.
  { rewrite <- Hget. unfold upsertUser, getUser.
    destruct (firebase cfg); reflexivity. }
  split; [exact Hget|]. split; [reflexivity|]. split.
  { intros u0 H0. unfold existing. rewrite H0. cbn [default merge_user].
    repeat split; cbn;
      match goal with
      | |- context [?g ∪ ?h] =>
          destruct g; try reflexivity; destruct h; reflexivity
      end. }
  split.
  { intros H0. unfold existing. rewrite H0.
    cbn [default merge_user blank_user].
    repeat split; cbn;
      match goal with
      | |- context [?g ∪ ?h] =>
          destruct g; try reflexivity; destruct h; reflexivity
      end. }
  unfold upsertUser, getUser. destruct st as [us f i].
  cbn [users usersToFlush immediates mark with_users].
  destruct (firebase cfg); cbn [fst snd users usersToFlush immediates];
    (split; [intros t Ht; now apply map_get_set_ne|]);
    (split; [apply keys_map_set|]); (split; [set_solver|reflexivity]).
Qed.

Lemma upsertUser_round_trip_witness :
  (exists u',
     snd (upsertUser cfg_2 store_2 update_alice 5000) = Some u'
     /\ type u' = special /\ promptLimit u' = Some 10
     /\ ip u' = ["10.0.0.1"; "10.0.0.2"] /\ promptCount u' = 3
     /\ createdAt u' = 1000)
  /\ (exists u',
        snd (upsertUser cfg_2 store_2 update_bob 5000) = Some u'
        /\ type u' = normal /\ promptLimit u' = Some (-1)
        /\ rateLimit u' = Some 4 /\ ip u' = [] /\ promptCount u' = 0
        /\ createdAt u' = 5000).
Proof.
  split.
  - destruct (upsertUser_round_trip cfg_2 store_2 update_alice 5000)
      as (u' & Hret & _ & _ & Hknown & _).
    destruct (Hknown alice eq_refl)
      as (Hip & _ & Hty & Hpc & _ & _ & Hpl & _ & _ & _ & _ & _ & Hcr & _).
    exists u'. split; [exact Hret|].
    cbn in Hip, Hty, Hpc, Hpl, Hcr.
    injection Hip as ->. injection Hty as ->. injection Hpc as ->.
    injection Hcr as ->. repeat split. exact Hpl.
  - destruct (upsertUser_round_trip cfg_2 store_2 update_bob 5000)
      as (u' & Hret & _ & _ & _ & Hnew & _).
    destruct (Hnew eq_refl)
      as (Hip & _ & Hty & Hpc & _ & _ & Hpl & _ & _ & _ & _ & Hrl & Hcr & _).
    exists u'. split; [exact Hret|].
    cbn in Hip, Hty, Hpc, Hpl, Hrl, Hcr.
    injection Hip as ->. injection Hty as ->. injection Hpc as ->.
    injection Hcr as ->. repeat split; assumption.
Defined.

(** ** authenticate and disableUser *)

Lemma includes_In (l : list string) (x : string) :
  includes l x = true <-> In x l.
Proof.
  unfold includes. rewrite existsb_exists. split.
  - intros (y & Hy & E). apply String.eqb_eq in E. now subst.
  - intros H. exists x. split; [exact H|apply String.eqb_refl].
Qed.

(** X19. A user that [authenticate] returns was in the map and not disabled;
    the user now lists the address, is within the address limit, carries
    [lastUsedAt = now], is what the map holds for the token, and the token
    is marked for flushing. A special user, and every user when
    [maxIpsPerUser] is 0, is returned whatever the address, unless
    disabled. *)
Theorem authenticate_admits (cfg : Config) (st : Store) (tok addr : string)
  (now : Z) :
  (forall u, snd (authenticate cfg st tok addr now) = Some u ->
     exists u0,
       getUser st tok = Some u0 /\ is_disabled u0 = false
       /\ In addr (ip u) /\ over_ip_limit cfg u = false
       /\ lastUsedAt u = Some now
       /\ disabledAt u = disabledAt u0
       /\ getUser (fst (authenticate cfg st tok addr now)) tok = Some u
       /\ tok ∈ usersToFlush (fst (authenticate cfg st tok addr now)))
  /\ (forall u0, getUser st tok = Some u0 -> is_disabled u0 = false ->
        type u0 = special \/ maxIpsPerUser cfg = 0 ->
        exists u, snd (authenticate cfg st tok addr now) = Some u).
Proof.
  unfold authenticate, getUser. split.
  - intros u Hu. destruct (map_get (users st) tok) as [u0|] eqn:H0; [|discriminate].
    destruct (is_disabled u0) eqn:Hd; [discriminate|].
    exists u0. split; [reflexivity|]. split; [exact Hd|].
    set (u1 := if includes (ip u0) addr then u0 else set_ip (ip u0 ++ [addr]) u0) in *.
    destruct (over_ip_limit cfg u1) eqn:Hl; [discriminate|].
    cbn [fst snd] in *. injection Hu as <-.
    split.
    { unfold u1. destruct (includes (ip u0) addr) eqn:Hi; simpl.
      - now apply includes_In.
      - apply in_or_app. right. now left. }
    split.
    { unfold over_ip_limit in *. simpl. exact Hl. }
    split; [reflexivity|]. split.
    { unfold u1. destruct (includes _ _); reflexivity. }
    destruct st as [us f i]. cbn [users usersToFlush mark with_users].
    split; [apply map_get_set_eq|set_solver].
  - intros u0 H0 Hd Hs. rewrite H0, Hd.
    set (u1 := if includes (ip u0) addr then u0 else set_ip (ip u0 ++ [addr]) u0).
    assert (Hl : over_ip_limit cfg u1 = false).
    { unfold over_ip_limit.
      assert (Ht : type u1 = type u0)
        by (unfold u1; destruct (includes _ _); reflexivity).
      rewrite Ht. destruct Hs as [-> | ->]; [reflexivity|].
      destruct (type u0); reflexivity. }
    rewrite Hl. eauto.
Qed.

Lemma authenticate_admits_witness :
  (exists u0,
     getUser store_2 "alice" = Some u0 /\ is_disabled u0 = false
     /\ In "10.0.0.1" (ip (set_lastUsedAt 5000 alice))
     /\ over_ip_limit cfg_2 (set_lastUsedAt 5000 alice) = false
     /\ lastUsedAt (set_lastUsedAt 5000 alice) = Some 5000
     /\ disabledAt (set_lastUsedAt 5000 alice) = disabledAt u0
     /\ getUser (fst (authenticate cfg_2 store_2 "alice" "10.0.0.1" 5000)) "alice"
        = Some (set_lastUsedAt 5000 alice)
     /\ "alice" ∈ usersToFlush
                    (fst (authenticate cfg_2 store_2 "alice" "10.0.0.1" 5000)))
  /\ exists u, snd (authenticate cfg_2 store_2 "vip" "10.9.9.9" 5000) = Some u.
Proof.
  split.
  - apply (proj1 (authenticate_admits cfg_2 store_2 "alice" "10.0.0.1" 5000)
             (set_lastUsedAt 5000 alice)).
    reflexivity.
  - apply (proj2 (authenticate_admits cfg_2 store_2 "vip" "10.9.9.9" 5000) vip).
    + reflexivity.
    + reflexivity.
    + left. reflexivity.
Defined.

Lemma authenticate_disabled (cfg : Config) (st : Store) tok addr now u :
  getUser st tok = Some u -> is_disabled u = true ->
  authenticate cfg st tok addr now = (st, None).
Proof. unfold authenticate, getUser. intros -> ->. reflexivity. Qed.

(** X20. When a user that is not special is at the address limit
    ([maxIpsPerUser] is positive and the user lists that many addresses) and
    authenticates from a new address, [authenticate] returns nothing and
    the user is disabled there and then, with the new address recorded and
    the reason given; from then on the token is refused from every
    address. *)
Theorem authenticate_enforces_ip_limit (cfg : Config) (st : Store)
  (tok addr : string) (now : Z) (u0 : User) :
  getUser st tok = Some u0 -> is_disabled u0 = false -> type u0 <> special ->
  0 < maxIpsPerUser cfg -> Z.of_nat (length (ip u0)) = maxIpsPerUser cfg ->
  includes (ip u0) addr = false -> now <> 0 ->
  snd (authenticate cfg st tok addr now) = None
  /\ (exists u1,
        getUser (fst (authenticate cfg st tok addr now)) tok = Some u1
        /\ disabledAt u1 = Some now
        /\ disabledReason u1 = Some too_many_ips
        /\ ip u1 = ip u0 ++ [addr])
  /\ (forall addr' now',
        snd (authenticate cfg (fst (authenticate cfg st tok addr now))
               tok addr' now') = None).
Proof.
  intros H0 Hd Hs Hmax Hlen Hinc Hnow.
  set (u1 := set_ip (ip u0 ++ [addr]) u0).
  assert (Hl : over_ip_limit cfg u1 = true).
  { unfold over_ip_limit. simpl.
    destruct (type u0); try contradiction;
      (destruct (maxIpsPerUser cfg =? 0) eqn:E;
       [apply Z.eqb_eq in E; lia|]);
      apply Z.ltb_lt; rewrite length_app; simpl; lia. }
  assert (E : authenticate cfg st tok addr now
              = (disableUser (with_users (map_set (users st) tok u1) st) tok
                   (Some too_many_ips) now, None)).
  { unfold authenticate. unfold getUser in H0. rewrite H0, Hd, Hinc.
    fold u1. now rewrite Hl. }
  rewrite E. cbn [fst snd].
  assert (Hget : getUser (disableUser (with_users (map_set (users st) tok u1) st)
                            tok (Some too_many_ips) now) tok
                 = Some (set_disabled now (Some too_many_ips) u1)).
  { unfold disableUser, getUser. destruct st as [us f i].
    cbn [users with_users]. rewrite map_get_set_eq.
    cbn [users mark with_users]. apply map_get_set_eq. }
  split; [reflexivity|]. split.
  - eexists. split; [exact Hget|]. repeat split.
  - intros addr' now'.
    rewrite (authenticate_disabled cfg _ tok addr' now' _ Hget); [reflexivity|].
    unfold is_disabled. simpl. apply Z.eqb_neq in Hnow. now rewrite Hnow.
Qed.

Lemma authenticate_enforces_ip_limit_witness :
  snd (authenticate cfg_2 store_2 "alice" "10.0.0.3" 5000) = None
  /\ (exists u1,
        getUser (fst (authenticate cfg_2 store_2 "alice" "10.0.0.3" 5000)) "alice"
        = Some u1
        /\ disabledAt u1 = Some 5000
        /\ disabledReason u1 = Some too_many_ips
        /\ ip u1 = ip alice ++ ["10.0.0.3"])
  /\ (forall addr' now',
        snd (authenticate cfg_2
               (fst (authenticate cfg_2 store_2 "alice" "10.0.0.3" 5000))
               "alice" addr' now') = None).
Proof.
  apply (authenticate_enforces_ip_limit cfg_2 store_2 "alice" "10.0.0.3" 5000
           alice); try reflexivity; discriminate.
Defined.

(** X21. Once [disableUser] has run at a time other than 0, [authenticate]
    refuses the token from every address and changes nothing; for a token
    that is not in the map [disableUser] does nothing, and for one that is
    it sets [disabledAt] and [disabledReason] and nothing else. *)
Theorem disabled_user_is_refused (cfg : Config) (st : Store) (tok : string)
  (reason : option string) (now : Z) (addr : string) (now' : Z) :
  now <> 0 ->
  authenticate cfg (disableUser st tok reason now) tok addr now'
  = (disableUser st tok reason now, None)
  /\ (getUser st tok = None -> disableUser st tok reason now = st)
  /\ (forall u, getUser st tok = Some u ->
        getUser (disableUser st tok reason now) tok
        = Some (set_disabled now reason u)
        /\ forall t, t <> tok ->
             getUser (disableUser st tok reason now) t = getUser st t).
Proof.
  intros Hnow. unfold getUser.
  destruct (map_get (users st) tok) as [u|] eqn:Hu.
  - assert (Hget : getUser (disableUser st tok reason now) tok
                   = Some (set_disabled now reason u)).
    { unfold disableUser, getUser. rewrite Hu. destruct st as [us f i].
      cbn [users mark with_users]. apply map_get_set_eq. }
    split; [|split; [discriminate|]].
    + apply (authenticate_disabled cfg _ tok addr now' _ Hget).
      unfold is_disabled. simpl. apply Z.eqb_neq in Hnow. now rewrite Hnow.
    + intros u' [= <-]. split; [exact Hget|].
      intros t Ht. unfold disableUser. rewrite Hu. destruct st as [us f i].
      cbn [users mark with_users]. now apply map_get_set_ne.
  - assert (E : disableUser st tok reason now = st).
    { unfold disableUser. now rewrite Hu. }
    rewrite E. split; [|split; [reflexivity|discriminate]].
    unfold authenticate. now rewrite Hu.
Qed.

Lemma disabled_user_is_refused_witness :
  authenticate cfg_2 (disableUser store_2 "vip" None 5000) "vip" "10.0.0.1" 6000
  = (disableUser store_2 "vip" None 5000, None)
  /\ (getUser store_2 "vip" = None -> disableUser store_2 "vip" None 5000 = store_2)
  /\ (forall u, getUser store_2 "vip" = Some u ->
        getUser (disableUser store_2 "vip" None 5000) "vip"
        = Some (set_disabled 5000 None u)
        /\ forall t, t <> "vip" ->
             getUser (disableUser store_2 "vip" None 5000) t = getUser store_2 t).
Proof.
  apply (disabled_user_is_refused cfg_2 store_2 "vip" None 5000 "10.0.0.1" 6000).
  discriminate.
Defined.

(** ** incrementPromptCount *)

Lemma counted_fields (model addr : string) (u : User) :
  token (counted model addr u) = token u
  /\ type (counted model addr u) = type u
  /\ disabledAt (counted model addr u) = disabledAt u
  /\ promptLimit (counted model addr u) = promptLimit u
  /\ endTimeLimit (counted model addr u) = endTimeLimit u
  /\ timeLimit (counted model addr u) = timeLimit u
  /\ promptCount (counted model addr u) = promptCount u + 1
  /\ ipPromptCount (counted model addr u) = count_ip (ipPromptCount u) addr.
Proof.
  unfold counted. destruct (String.eqb (slice3 model) "gpt").
  - repeat split.
  - destruct (String.eqb (slice3 model) "cla"); repeat split.
Qed.

Lemma incrementPromptCount_plain (st : Store) tok model addr now u :
  getUser st tok = Some u -> type u <> temp ->
  incrementPromptCount st tok model addr now
  = mark tok (with_users (map_set (users st) tok (counted model addr u)) st).
Proof.
  unfold incrementPromptCount, getUser. intros -> Ht.
  destruct (counted_fields model addr u) as (_ & Hty & _).
  rewrite Hty. destruct (type u); try reflexivity. contradiction.
Qed.

(** X22. For a user that is not temporary, [incrementPromptCount] adds one to
    [promptCount], one to the count of the address (which starts at 1), and
    one to the GPT or the Claude count when the model's first three letters
    are [gpt] or [cla]; it changes nothing else of the user, no other user,
    and it never removes the user from the map. *)
Theorem prompt_is_counted (st : Store) (tok model addr : string) (now : Z)
  (u : User) :
  getUser st tok = Some u -> type u <> temp ->
  exists u',
    getUser (incrementPromptCount st tok model addr now) tok = Some u'
    /\ promptCount u' = promptCount u + 1
    /\ promptGptCount u'
       = promptGptCount u + (if String.eqb (slice3 model) "gpt" then 1 else 0)
    /\ promptClaudeCount u'
       = promptClaudeCount u
         + (if String.eqb (slice3 model) "gpt" then 0
            else if String.eqb (slice3 model) "cla" then 1 else 0)
    /\ map_get (ipPromptCount u') addr
       = Some (default 0 (map_get (ipPromptCount u) addr) + 1)
    /\ (forall a, a <> addr ->
          map_get (ipPromptCount u') a = map_get (ipPromptCount u) a)
    /\ u' = set_promptClaudeCount (promptClaudeCount u')
              (set_promptGptCount (promptGptCount u')
                 (set_promptCount (promptCount u')
                    (set_ipPromptCount (ipPromptCount u') u)))
    /\ (forall t, t <> tok ->
          getUser (incrementPromptCount st tok model addr now) t = getUser st t)
    /\ map fst (users (incrementPromptCount st tok model addr now))
       = map fst (users st)
    /\ tok ∈ usersToFlush (incrementPromptCount st tok model addr now).
Proof.
  intros Hu Ht. rewrite (incrementPromptCount_plain st tok model addr now u Hu Ht).
  exists (counted model addr u). unfold getUser in *. destruct st as [us f i].
  cbn [users usersToFlush mark with_users] in *.
  split; [apply map_get_set_eq|].
  assert (Hip : map_get (count_ip (ipPromptCount u) addr) addr
                = Some (default 0 (map_get (ipPromptCount u) addr) + 1)
                /\ forall a, a <> addr ->
                     map_get (count_ip (ipPromptCount u) addr) a
                     = map_get (ipPromptCount u) a).
  { unfold count_ip. destruct (map_get (ipPromptCount u) addr) eqn:E; simpl;
      (split; [apply map_get_set_eq|intros a Ha; now apply map_get_set_ne]). }
  destruct Hip as [Hip1 Hip2].
  unfold counted.
  destruct (String.eqb (slice3 model) "gpt");
    [|destruct (String.eqb (slice3 model) "cla")]; simpl;
    (split; [reflexivity|]); (split; [lia|]); (split; [lia|]);
    (split; [exact Hip1|]); (split; [exact Hip2|]); (split; [reflexivity|]);
    (split; [intros t Hne; now apply map_get_set_ne|]);
    (split; [rewrite keys_map_set, Hu; reflexivity|set_solver]).
Qed.

Lemma prompt_is_counted_witness :
  exists u',
    getUser (incrementPromptCount store_2 "alice" "gpt-4" "10.0.0.1" 5000) "alice"
    = Some u'
    /\ promptCount u' = promptCount alice + 1
    /\ promptGptCount u'
       = promptGptCount alice
         + (if String.eqb (slice3 "gpt-4") "gpt" then 1 else 0)
    /\ promptClaudeCount u'
       = promptClaudeCount alice
         + (if String.eqb (slice3 "gpt-4") "gpt" then 0
            else if String.eqb (slice3 "gpt-4") "cla" then 1 else 0)
    /\ map_get (ipPromptCount u') "10.0.0.1"
       = Some (default 0 (map_get (ipPromptCount alice) "10.0.0.1") + 1)
    /\ (forall a, a <> "10.0.0.1" ->
          map_get (ipPromptCount u') a = map_get (ipPromptCount alice) a)
    /\ u' = set_promptClaudeCount (promptClaudeCount u')
              (set_promptGptCount (promptGptCount u')
                 (set_promptCount (promptCount u')
                    (set_ipPromptCount (ipPromptCount u') alice)))
    /\ (forall t, t <> "alice" ->
          getUser (incrementPromptCount store_2 "alice" "gpt-4" "10.0.0.1" 5000) t
          = getUser store_2 t)
    /\ map fst (users (incrementPromptCount store_2 "alice" "gpt-4" "10.0.0.1" 5000))
       = map fst (users store_2)
    /\ "alice" ∈ usersToFlush
                   (incrementPromptCount store_2 "alice" "gpt-4" "10.0.0.1" 5000).
Proof.
  apply (prompt_is_counted store_2 "alice" "gpt-4" "10.0.0.1" 5000 alice).
  - reflexivity.
  - discriminate.
Defined.

(** ** Temporary users with a prompt limit *)

Lemma prompt_limited_step (st : Store) tok model addr now u p :
  NoDup (map fst (users st)) ->
  getUser st tok = Some u -> token u = tok -> prompt_limited p u ->
  NoDup (map fst (users (incrementPromptCount st tok model addr now)))
  /\ (promptCount u + 1 < p ->
      exists u', getUser (incrementPromptCount st tok model addr now) tok = Some u'
                 /\ token u' = tok /\ prompt_limited p u'
                 /\ promptCount u' = promptCount u + 1)
  /\ (p <= promptCount u + 1 ->
      getUser (incrementPromptCount st tok model addr now) tok = None).
Proof.
  intros Hnd Hu Htok (Hty & Hdis & Hpl & Hp).
  destruct (counted_fields model addr u)
    as (Ct & Cty & Cdis & Cpl & Cet & Ctl & Cpc & _).
  unfold incrementPromptCount, getUser in *. rewrite Hu. cbv zeta.
  set (u3 := counted model addr u) in *.
  rewrite Cty, Hty. unfold not_marked_disabled. rewrite Cdis, Hdis.
  assert (E1 : (p =? -1) = false) by (now apply Z.eqb_neq).
  assert (Hu4 : (if (default 0 (endTimeLimit u3) =? -1)
                    && (default 0 (promptLimit u3) =? -1)
                 then set_endTimeLimit (now + default 0 (timeLimit u3) * 1000) u3
                 else u3) = u3).
  { rewrite Cpl, Hpl. change (default 0 (Some p)) with p.
    now rewrite E1, andb_false_r. }
  rewrite Hu4, Cpl, Hpl. change (default 0 (Some p)) with p.
  rewrite E1. cbn [negb andb]. rewrite Ct, Htok, Cpc.
  destruct st as [us f i]. cbn [users usersToFlush mark with_users] in *.
  destruct (p <=? promptCount u + 1) eqn:E2.
  - apply Z.leb_le in E2. split; [|split].
    + now apply NoDup_map_delete, NoDup_map_set.
    + intros H. lia.
    + intros _. apply map_get_delete_eq. now apply NoDup_map_set.
  - apply Z.leb_gt in E2. split; [|split].
    + now apply NoDup_map_set.
    + intros _. exists u3. split; [apply map_get_set_eq|].
      split; [congruence|]. split; [|exact Cpc].
      unfold prompt_limited. repeat split; congruence.
    + intros H. lia.
Qed.

Lemma prompt_limited_run (ps : list (string * string * Z)) (st : Store) tok u p :
  NoDup (map fst (users st)) ->
  getUser st tok = Some u -> token u = tok -> prompt_limited p u ->
  promptCount u + Z.of_nat (length ps) < p ->
  NoDup (map fst (users (prompts st tok ps)))
  /\ exists u', getUser (prompts st tok ps) tok = Some u'
                /\ token u' = tok /\ prompt_limited p u'
                /\ promptCount u' = promptCount u + Z.of_nat (length ps).
Proof.
  revert st u. induction ps as [|[[model addr] now] ps IH];
    intros st u Hnd Hu Htok Hpl Hlen.
  - simpl. split; [exact Hnd|]. exists u.
    split; [exact Hu|]. split; [exact Htok|]. split; [exact Hpl|]. lia.
  - cbn [prompts].
    destruct (prompt_limited_step st tok model addr now u p Hnd Hu Htok Hpl)
      as (Hnd1 & Hkeep & _).
    destruct Hkeep as (u1 & Hu1 & Htok1 & Hpl1 & Hpc1).
    { cbn [length] in Hlen. lia. }
    destruct (IH _ u1 Hnd1 Hu1 Htok1 Hpl1) as (Hnd2 & u2 & H2 & Ht2 & Hp2 & Hc2).
    { cbn [length] in Hlen. lia. }
    split; [exact Hnd2|]. exists u2.
    split; [exact H2|]. split; [exact Ht2|]. split; [exact Hp2|].
    cbn [length]. lia.
Qed.

(** X23. A temporary token created with a prompt limit [p] of at least 1 is
    in the map, with its prompts counted, for as long as fewer than [p]
    prompts were made with it, and the prompt that brings the count to [p]
    removes it from the map. *)
Theorem temp_user_lasts_for_its_prompts (st : Store) (random : string)
  (p t r now : Z) (ps : list (string * string * Z)) (model addr : string)
  (now' : Z) :
  NoDup (map fst (users st)) -> 1 <= p -> Z.of_nat (length ps) = p - 1 ->
  (exists u,
     getUser (prompts (fst (createTempUser st random p t r now))
                (snd (createTempUser st random p t r now)) ps)
             (snd (createTempUser st random p t r now)) = Some u
     /\ promptCount u = p - 1)
  /\ getUser (incrementPromptCount
                (prompts (fst (createTempUser st random p t r now))
                   (snd (createTempUser st random p t r now)) ps)
                (snd (createTempUser st random p t r now)) model addr now')
             (snd (createTempUser st random p t r now)) = None.
Proof.
  intros Hnd Hp Hlen. unfold createTempUser. cbn [fst snd].
  set (tok := String.append "temp-" random).
  set (u0 := mkUser tok [] [] temp 0 0 0 (Some p) (Some (-1)) (Some t) 0 0
                    (Some r) now None None None).
  set (st0 := mark tok (with_users (map_set (users st) tok u0) st)).
  assert (Hnd0 : NoDup (map fst (users st0))).
  { destruct st as [us f i]. simpl. now apply NoDup_map_set. }
  assert (Hu0 : getUser st0 tok = Some u0).
  { destruct st as [us f i]. unfold getUser. simpl. apply map_get_set_eq. }
  assert (Hpl0 : prompt_limited p u0).
  { unfold prompt_limited. simpl. repeat split. lia. }
  destruct (prompt_limited_run ps st0 tok u0 p Hnd0 Hu0 eq_refl Hpl0)
    as (Hnd1 & u1 & Hu1 & Htok1 & Hpl1 & Hpc1).
  { simpl. lia. }
  simpl in Hpc1. split.
  - exists u1. split; [exact Hu1|lia].
  - destruct (prompt_limited_step _ tok model addr now' u1 p Hnd1 Hu1 Htok1 Hpl1)
      as (_ & _ & Hdel).
    apply Hdel. lia.
Qed.

Lemma temp_user_lasts_for_its_prompts_witness :
  (exists u,
     getUser (prompts (fst (createTempUser store_2 "AbC" 2 (-1) 5 3000))
                (snd (createTempUser store_2 "AbC" 2 (-1) 5 3000))
                [("gpt-4", "10.0.0.9", 3100)])
             (snd (createTempUser store_2 "AbC" 2 (-1) 5 3000)) = Some u
     /\ promptCount u = 2 - 1)
  /\ getUser (incrementPromptCount
                (prompts (fst (createTempUser store_2 "AbC" 2 (-1) 5 3000))
                   (snd (createTempUser store_2 "AbC" 2 (-1) 5 3000))
                   [("gpt-4", "10.0.0.9", 3100)])
                (snd (createTempUser store_2 "AbC" 2 (-1) 5 3000))
                "claude-2" "10.0.0.9" 3200)
             (snd (createTempUser store_2 "AbC" 2 (-1) 5 3000)) = None.
Proof.
  apply (temp_user_lasts_for_its_prompts store_2 "AbC" 2 (-1) 5 3000
           [("gpt-4", "10.0.0.9", 3100)] "claude-2" "10.0.0.9" 3200).
  - apply filed_store_2.
  - lia.
  - reflexivity.
Defined.

(** ** Temporary users with a time limit *)





(** ** incrementTokenCount *)

(** X25. [incrementTokenCount] adds the amount, 1 when none is given, to the
    GPT count for service [openai] and to the Claude count for service
    [anthropic]; for any other service it counts nothing. In each case it
    marks the token for flushing and touches no other user; for a token that
    is not in the map it does nothing at all. *)
Theorem tokens_are_counted_by_service (st : Store) (tok : string)
  (amount : option Z) (service : string) :
  (getUser st tok = None -> incrementTokenCount st tok amount service = st)
  /\ (forall u, getUser st tok = Some u ->
        exists u',
          getUser (incrementTokenCount st tok amount service) tok = Some u'
          /\ tokenGptCount u'
             = tokenGptCount u
               + (if String.eqb service "openai" then default 1 amount else 0)
          /\ tokenClaudeCount u'
             = tokenClaudeCount u
               + (if String.eqb service "anthropic" then default 1 amount else 0)
          /\ u' = set_tokenClaudeCount (tokenClaudeCount u')
                    (set_tokenGptCount (tokenGptCount u') u)
          /\ (forall t, t <> tok ->
                getUser (incrementTokenCount st tok amount service) t
                = getUser st t)
          /\ tok ∈ usersToFlush (incrementTokenCount st tok amount service)).
Proof.
  unfold incrementTokenCount, getUser. split.
  - intros ->. reflexivity.
  - intros u ->. destruct st as [us f i]. cbn [users usersToFlush mark with_users].
    eexists. split; [apply map_get_set_eq|].
    destruct (String.eqb service "openai") eqn:E1.
    + apply String.eqb_eq in E1. subst service. simpl.
      split; [reflexivity|]. split; [lia|]. split; [reflexivity|].
      split; [intros t Ht; now apply map_get_set_ne|set_solver].
    + destruct (String.eqb service "anthropic"); simpl;
        (split; [lia|]); (split; [lia|]); (split; [destruct u; reflexivity|]);
        (split; [intros t Ht; now apply map_get_set_ne|set_solver]).
Qed.

(** ** getPublicUsers *)

Lemma map_with_index_spec {A B : Type} (f : nat -> A -> B) (l : list A) i :
  length (map_with_index f i l) = length l
  /\ forall n a, l !! n = Some a ->
       map_with_index f i l !! n = Some (f (i + n)%nat a).
Proof.
  revert i. induction l as [|a l IH]; intros i; simpl.
  - split; [reflexivity|]. intros n a H. discriminate.
  - destruct (IH (S i)) as [Hl Hn]. split; [now rewrite Hl|].
    intros [|n] b H; simpl in *.
    + injection H as <-. now rewrite Nat.add_0_r.
    + rewrite (Hn n b H). f_equal. f_equal. lia.
Qed.

Lemma public_tokens_from (l : list (string * User)) (i : nat) :
  map pub_token
    (map_with_index (fun index (e : string * User) => public_view index (snd e))
       i l)
  = seq i (length l).
Proof.
  revert i. induction l as [|e l IH]; intros i; simpl; [reflexivity|].
  now rewrite IH.
Qed.

(** X26. [getPublicUsers] shows one entry per user of the map, in the order
    the users were added, and in place of each token it shows the position
    of the user in the map, counted from 0; the counts and limits shown are
    those of the user. *)
Theorem public_users_show_positions (st : Store) :
  length (getPublicUsers st) = length (users st)
  /\ map pub_token (getPublicUsers st) = seq 0 (length (users st))
  /\ forall n t u, users st !! n = Some (t, u) ->
       getPublicUsers st !! n = Some (public_view n u).
Proof.
  unfold getPublicUsers.
  destruct (map_with_index_spec
              (fun index (e : string * User) => public_view index (snd e))
              (users st) 0) as [Hl Hn].
  split; [exact Hl|]. split.
  - apply public_tokens_from.
  - intros n t u H. now rewrite (Hn n (t, u) H).
Qed.

(** ** flushUsers *)

(** X27. [flushUsers] hands over exactly the users that are marked for
    flushing and are still in the map, each under its token (a marked token
    whose user has been removed is skipped), and nothing at all when there
    is no such user; it empties the set of marks and leaves the map alone,
    so a second flush right after hands over nothing. *)
Theorem flushUsers_sends_marked_users (st : Store) :
  NoDup (map fst (users st)) ->
  users (fst (flushUsers st)) = users st
  /\ usersToFlush (fst (flushUsers st)) = ∅
  /\ (forall t u,
        (exists l, snd (flushUsers st) = Some l /\ In (t, u) l)
        <-> (t ∈ usersToFlush st /\ getUser st t = Some u))
  /\ (snd (flushUsers st) = None
      <-> forall t, t ∈ usersToFlush st -> getUser st t = None)
  /\ snd (flushUsers (fst (flushUsers st))) = None.
Proof.
  intros Hnd. unfold getUser. destruct st as [us f i].
  cbn [users usersToFlush immediates] in *.
  set (updates := List.filter (fun e => bool_decide (fst e ∈ f)) us).
  assert (Hin : forall t u, In (t, u) updates <-> t ∈ f /\ map_get us t = Some u).
  { intros t u. unfold updates. rewrite filter_In. simpl.
    rewrite bool_decide_eq_true. split.
    - intros [Hi Hf]. split; [exact Hf|]. now apply In_map_get.
    - intros [Hf Hg]. split; [|exact Hf]. now apply map_get_In. }
  assert (Hlast : snd (flushUsers (mkStore us ∅ i)) = None).
  { unfold flushUsers. cbn [users usersToFlush immediates].
    rewrite OpenAIKeyCheckerSpec.filter_empty; [reflexivity|].
    intros x _. apply bool_decide_eq_false_2. set_solver. }
  assert (E : flushUsers (mkStore us f i)
              = (mkStore us ∅ i,
                 match updates with [] => None | _ => Some updates end)).
  { unfold flushUsers. cbn [users usersToFlush immediates]. fold updates.
    destruct updates; reflexivity. }
  rewrite E. cbn [fst snd users usersToFlush].
  split; [reflexivity|]. split; [reflexivity|].
  destruct updates as [|e l] eqn:Eu.
  - split; [|split; [|exact Hlast]].
    + intros t u. split.
      * intros (l & Hl & _). discriminate.
      * intros H. apply Hin in H. destruct H.
    + split; [|reflexivity]. intros _ t Ht.
      destruct (map_get us t) as [u|] eqn:Hg; [|reflexivity].
      exfalso. apply (proj2 (Hin t u)). auto.
  - split; [|split; [|exact Hlast]].
    + intros t u. split.
      * intros (l' & [= <-] & Hl). now apply Hin.
      * intros H. exists (e :: l). split; [reflexivity|]. now apply Hin.
    + split; [discriminate|]. intros H. exfalso.
      destruct e as [t u]. destruct (proj1 (Hin t u)) as [Hf Hg]; [now left|].
      rewrite (H t Hf) in Hg. discriminate.
Qed.

Lemma flushUsers_sends_marked_users_witness :
  users (fst (flushUsers (mark "alice" (mark "gone" store_2)))) = users store_2
  /\ usersToFlush (fst (flushUsers (mark "alice" (mark "gone" store_2)))) = ∅
  /\ (forall t u,
        (exists l, snd (flushUsers (mark "alice" (mark "gone" store_2))) = Some l
                   /\ In (t, u) l)
        <-> (t ∈ usersToFlush (mark "alice" (mark "gone" store_2))
             /\ getUser (mark "alice" (mark "gone" store_2)) t = Some u))
  /\ (snd (flushUsers (mark "alice" (mark "gone" store_2))) = None
      <-> forall t, t ∈ usersToFlush (mark "alice" (mark "gone" store_2)) ->
            getUser (mark "alice" (mark "gone" store_2)) t = None)
  /\ snd (flushUsers (fst (flushUsers (mark "alice" (mark "gone" store_2))))) = None.
Proof.
  apply (flushUsers_sends_marked_users (mark "alice" (mark "gone" store_2))).
  apply filed_store_2.
Defined.

Lemma tokens_are_counted_by_service_witness :
  exists u',
    getUser (incrementTokenCount store_2 "alice" None "anthropic") "alice" = Some u'
    /\ tokenGptCount u'
       = tokenGptCount alice
         + (if String.eqb "anthropic" "openai" then default 1 None else 0)
    /\ tokenClaudeCount u'
       = tokenClaudeCount alice
         + (if String.eqb "anthropic" "anthropic" then default 1 None else 0)
    /\ u' = set_tokenClaudeCount (tokenClaudeCount u')
              (set_tokenGptCount (tokenGptCount u') alice)
    /\ (forall t, t <> "alice" ->
          getUser (incrementTokenCount store_2 "alice" None "anthropic") t
          = getUser store_2 t)
    /\ "alice" ∈ usersToFlush (incrementTokenCount store_2 "alice" None "anthropic").
Proof.
  apply (proj2 (tokens_are_counted_by_service store_2 "alice" None "anthropic")
           alice).
  reflexivity.
Defined.

(** ** createUser and authenticate *)

(** X28. A user just made by [createUser] is a normal user with no prompts,
    no tokens and no addresses, filed under the token returned and marked
    for flushing; and, unless [maxIpsPerUser] is negative, the first
    [authenticate] with that token returns the user, with the address as its
    only one. *)
Theorem created_user_can_authenticate (cfg : Config) (st : Store)
  (tok : string) (r now : Z) (addr : string) (now' : Z) :
  0 <= maxIpsPerUser cfg ->
  snd (createUser st tok r now) = tok
  /\ getUser (fst (createUser st tok r now)) tok
     = Some (mkUser tok [] [] normal 0 0 0 None None None 0 0 (Some r) now
                    None None None)
  /\ tok ∈ usersToFlush (fst (createUser st tok r now))
  /\ snd (authenticate cfg (fst (createUser st tok r now)) tok addr now')
     = Some (mkUser tok [addr] [] normal 0 0 0 None None None 0 0 (Some r) now
                    (Some now') None None).
Proof.
  intros Hmax. unfold createUser. cbn [fst snd].
  set (u := mkUser tok [] [] normal 0 0 0 None None None 0 0 (Some r) now
                   None None None).
  assert (Hu : getUser (mark tok (with_users (map_set (users st) tok u) st)) tok
               = Some u).
  { unfold getUser. destruct st as [us f i]. simpl. apply map_get_set_eq. }
  split; [reflexivity|]. split; [exact Hu|]. split.
  { destruct st as [us f i]. simpl. set_solver. }
  unfold authenticate. unfold getUser in Hu. rewrite Hu.
  cbn [is_disabled disabledAt u includes ip existsb].
  assert (Hl : over_ip_limit cfg (set_ip ([] ++ [addr]) u) = false).
  { unfold over_ip_limit. simpl.
    destruct (maxIpsPerUser cfg =? 0) eqn:E; [reflexivity|].
    apply Z.eqb_neq in E. apply Z.ltb_ge. lia. }
  unfold u in *. simpl in *. rewrite Hl. reflexivity.
Qed.

Lemma created_user_can_authenticate_witness :
  snd (createUser store_2 "u-1" 4 3000) = "u-1"
  /\ getUser (fst (createUser store_2 "u-1" 4 3000)) "u-1"
     = Some (mkUser "u-1" [] [] normal 0 0 0 None None None 0 0 (Some 4) 3000
                    None None None)
  /\ "u-1" ∈ usersToFlush (fst (createUser store_2 "u-1" 4 3000))
  /\ snd (authenticate cfg_2 (fst (createUser store_2 "u-1" 4 3000)) "u-1"
            "10.0.0.7" 3500)
     = Some (mkUser "u-1" ["10.0.0.7"] [] normal 0 0 0 None None None 0 0
                    (Some 4) 3000 (Some 3500) None None).
Proof.
  apply (created_user_can_authenticate cfg_2 store_2 "u-1" 4 3000 "10.0.0.7" 3500).
  vm_compute. discriminate.
Defined.

End UserStoreSpec.
